(** * LÖVE particle system (graphics/opengl/ParticleSystem.cpp)

    A shallow embedding of the particle pool, the particle initialiser, the
    per-tick integrator and the emission scheduler of
    [love::graphics::opengl::ParticleSystem], followed by the properties of
    the specification that were checked against it.

    Conventions of the embedding:
    - a C++ [float] is an IEEE-754 binary32 value, [spec_float] with
      [prec = 24] and [emax = 128]; every arithmetic operation and comparison
      is the correctly rounded one of [SpecFloat];
    - [uint32] and [size_t] are integers in [Z] with their wrap-around
      written out ([wrap32], [wrap64]; [size_t] is taken to be 64 bits wide);
    - a [Particle *] into the pool is the offset of the slot from [pMem]
      ([nat]), [nullptr] is [None]; the array [pMem] is a [list] of particle
      records, and a null [pMem] is [None];
    - a dereference outside the array, an index outside a [std::vector], a
      float-to-integer conversion whose truncated value does not fit, are
      undefined behaviour in C++: the embedding returns [Undefined];
    - a thrown [love::Exception] is [Exception msg];
    - the two [while] loops of [update] take fuel, [OutOfFuel] is returned
      when it runs out;
    - the random generator, libm and [Vector::normalize] are external to the
      file and are parameters of the model. *)

From Stdlib Require Import ZArith Lia Bool.
From Stdlib Require Import Floats.SpecFloat.
From stdpp Require Import base option list strings.

Local Open Scope Z_scope.

(** ** binary32 arithmetic *)

Definition prec : Z := 24.
Definition emax : Z := 128.

Definition float : Type := spec_float.

Definition fadd : float -> float -> float := SFadd prec emax.
Definition fsub : float -> float -> float := SFsub prec emax.
Definition fmul : float -> float -> float := SFmul prec emax.
Definition fdiv : float -> float -> float := SFdiv prec emax.

(** [a == b], [a < b], [a <= b], [a > b], [a != b] on floats. *)
Definition feq (a b : float) : bool := SFeqb a b.
Definition flt (a b : float) : bool := SFltb a b.
Definition fle (a b : float) : bool := SFleb a b.
Definition fgt (a b : float) : bool := SFltb b a.
Definition fne (a b : float) : bool := negb (SFeqb a b).

(** Conversion of an integer to [float] (round to nearest even). *)
Definition float_of_Z (z : Z) : float := binary_normalize prec emax z 0 false.

Definition f0 : float := S754_zero false.
Definition f1 : float := float_of_Z 1.
Definition f2 : float := float_of_Z 2.
Definition fhalf : float := fdiv f1 f2.
Definition fminus1 : float := float_of_Z (-1).
Definition f255 : float := float_of_Z 255.

Definition is_finite (x : float) : bool :=
  match x with
  | S754_zero _ | S754_finite _ _ _ => true
  | _ => false
  end.

Definition is_nan (x : float) : bool :=
  match x with S754_nan => true | _ => false end.

(** A well-formed binary32 datum: the mantissa is canonical for the
    exponent and the exponent is in range. *)
Definition valid_float (x : float) : bool := valid_binary prec emax x.

(** Truncation toward zero of a finite float; [None] on infinities and NaN. *)
Definition ftrunc (x : float) : option Z :=
  match x with
  | S754_zero _ => Some 0
  | S754_finite s m e =>
      Some (cond_Zopp s (if 0 <=? e then Zpos m * 2 ^ e else Zpos m / 2 ^ (- e)))
  | _ => None
  end.

(** ** Machine integers *)

Definition wrap32 (z : Z) : Z := z mod 2 ^ 32.
Definition wrap64 (z : Z) : Z := z mod 2 ^ 64.

(** ** Outcomes of a call *)

Inductive result (A : Type) : Type :=
| Ok (a : A)
| Exception (msg : string)
| Undefined
| OutOfFuel.

Arguments Ok {A} a.
Arguments Exception {A} msg.
Arguments Undefined {A}.
Arguments OutOfFuel {A}.

Definition bind {A B : Type} (m : result A) (k : A -> result B) : result B :=
  match m with
  | Ok a => k a
  | Exception msg => Exception msg
  | Undefined => Undefined
  | OutOfFuel => OutOfFuel
  end.

Notation "x <- m ;; k" := (bind m (fun x => k))
  (at level 100, m at next level, right associativity).

(** [(size_t) x]: the truncated value must be representable. *)
Definition size_t_of_float (x : float) : result Z :=
  match ftrunc x with
  | Some z => if (0 <=? z) && (z <? 2 ^ 64) then Ok z else Undefined
  | None => Undefined
  end.

(** [v[i]] on a [std::vector] with a [size_t] index. *)
Definition index {A : Type} (v : list A) (i : Z) : result A :=
  match v !! Z.to_nat i with
  | Some a => Ok a
  | None => Undefined
  end.

(** [v.size()] as a [size_t]. *)
Definition vsize {A : Type} (v : list A) : Z := Z.of_nat (length v).

(** ** Vectors and colours *)

Record Vector : Type := mkVector { vx : float; vy : float }.

(** Modelled from the spec: the operators of [love::Vector]
    (common/Vector.h is not among the sources) act on each coordinate. *)
Definition vadd (a b : Vector) : Vector :=
  mkVector (fadd (vx a) (vx b)) (fadd (vy a) (vy b)).
Definition vsub (a b : Vector) : Vector :=
  mkVector (fsub (vx a) (vx b)) (fsub (vy a) (vy b)).
Definition vscale (a : Vector) (k : float) : Vector :=
  mkVector (fmul (vx a) k) (fmul (vy a) k).

Record Colorf : Type := mkColorf { cr : float; cg : float; cb : float; ca : float }.

(** Modelled from the spec: the operators of [Colorf] (common/Color.h is not
    among the sources) act on each channel. *)
Definition cadd (a b : Colorf) : Colorf :=
  mkColorf (fadd (cr a) (cr b)) (fadd (cg a) (cg b))
           (fadd (cb a) (cb b)) (fadd (ca a) (ca b)).
Definition cscale (a : Colorf) (k : float) : Colorf :=
  mkColorf (fmul (cr a) k) (fmul (cg a) k) (fmul (cb a) k) (fmul (ca a) k).

(** [Color] has four [unsigned char] channels. *)
Record Color : Type := mkColor { r8 : Z; g8 : Z; b8 : Z; a8 : Z }.

Definition colorToFloat (c : Color) : Colorf :=
  mkColorf (fdiv (float_of_Z (r8 c)) f255) (fdiv (float_of_Z (g8 c)) f255)
           (fdiv (float_of_Z (b8 c)) f255) (fdiv (float_of_Z (a8 c)) f255).

(** ** Particles *)

Module Particle.

Record t : Type := mk {
  prev : option nat;
  next : option nat;
  lifetime : float;
  life : float;
  position : float * float;
  origin : Vector;
  velocity : Vector;
  linearAcceleration : Vector;
  radialAcceleration : float;
  tangentialAcceleration : float;
  linearDamping : float;
  direction : float;
  size : float;
  sizeOffset : float;
  sizeIntervalSize : float;
  rotation : float;
  angle : float;
  spinStart : float;
  spinEnd : float;
  color : Colorf;
  quadIndex : Z
}.

Definition set_prev (v : option nat) (p : t) : t :=
  mk v (next p) (lifetime p) (life p) (position p) (origin p) (velocity p)
     (linearAcceleration p) (radialAcceleration p) (tangentialAcceleration p)
     (linearDamping p) (direction p) (size p) (sizeOffset p)
     (sizeIntervalSize p) (rotation p) (angle p) (spinStart p) (spinEnd p)
     (color p) (quadIndex p).

Definition set_next (v : option nat) (p : t) : t :=
  mk (prev p) v (lifetime p) (life p) (position p) (origin p) (velocity p)
     (linearAcceleration p) (radialAcceleration p) (tangentialAcceleration p)
     (linearDamping p) (direction p) (size p) (sizeOffset p)
     (sizeIntervalSize p) (rotation p) (angle p) (spinStart p) (spinEnd p)
     (color p) (quadIndex p).

Definition set_life (v : float) (p : t) : t :=
  mk (prev p) (next p) (lifetime p) v (position p) (origin p) (velocity p)
     (linearAcceleration p) (radialAcceleration p) (tangentialAcceleration p)
     (linearDamping p) (direction p) (size p) (sizeOffset p)
     (sizeIntervalSize p) (rotation p) (angle p) (spinStart p) (spinEnd p)
     (color p) (quadIndex p).

(** The particle's own data: everything but the two links. *)
Definition data (p : t) : t := set_prev None (set_next None p).

(** The contents of a slot that was allocated and never written. *)
Definition blank : t :=
  mk None None f0 f0 (f0, f0) (mkVector f0 f0) (mkVector f0 f0)
     (mkVector f0 f0) f0 f0 f0 f0 f0 f0 f0 f0 f0 f0 f0
     (mkColorf f0 f0 f0 f0) 0.

End Particle.

Inductive InsertMode : Type :=
| INSERT_MODE_TOP
| INSERT_MODE_BOTTOM
| INSERT_MODE_RANDOM.

Inductive AreaSpreadDistribution : Type :=
| DISTRIBUTION_NONE
| DISTRIBUTION_UNIFORM
| DISTRIBUTION_NORMAL.

(** ** The particle system

    [Params] groups the members that only the setters write and that
    [initParticle] and [update] read; the other members of the class are the
    fields of [System]. The members used for drawing only ([texture], [ibo],
    [particleVerts], [offsetX], [offsetY]) are left out. *)

Record Params : Type := mkParams {
  areaSpreadDistribution : AreaSpreadDistribution;
  areaSpread : Vector;
  particleLifeMin : float;
  particleLifeMax : float;
  direction : float;
  spread : float;
  speedMin : float;
  speedMax : float;
  linearAccelerationMin : Vector;
  linearAccelerationMax : Vector;
  radialAccelerationMin : float;
  radialAccelerationMax : float;
  tangentialAccelerationMin : float;
  tangentialAccelerationMax : float;
  linearDampingMin : float;
  linearDampingMax : float;
  sizes : list float;
  sizeVariation : float;
  rotationMin : float;
  rotationMax : float;
  spinStart : float;
  spinEnd : float;
  spinVariation : float;
  colors : list Colorf;
  quads : list nat;
  relativeRotation : bool
}.

Definition set_particleLifeMin (v : float) (c : Params) : Params :=
  mkParams (areaSpreadDistribution c) (areaSpread c) v (particleLifeMax c)
  (direction c) (spread c) (speedMin c) (speedMax c)
  (linearAccelerationMin c) (linearAccelerationMax c)
  (radialAccelerationMin c) (radialAccelerationMax c)
  (tangentialAccelerationMin c) (tangentialAccelerationMax c)
  (linearDampingMin c) (linearDampingMax c) (sizes c) (sizeVariation c)
  (rotationMin c) (rotationMax c) (spinStart c) (spinEnd c) (spinVariation c)
  (colors c) (quads c) (relativeRotation c).

Definition set_particleLifeMax (v : float) (c : Params) : Params :=
  mkParams (areaSpreadDistribution c) (areaSpread c) (particleLifeMin c) v
  (direction c) (spread c) (speedMin c) (speedMax c)
  (linearAccelerationMin c) (linearAccelerationMax c)
  (radialAccelerationMin c) (radialAccelerationMax c)
  (tangentialAccelerationMin c) (tangentialAccelerationMax c)
  (linearDampingMin c) (linearDampingMax c) (sizes c) (sizeVariation c)
  (rotationMin c) (rotationMax c) (spinStart c) (spinEnd c) (spinVariation c)
  (colors c) (quads c) (relativeRotation c).

Definition set_sizes (v : list float) (c : Params) : Params :=
  mkParams (areaSpreadDistribution c) (areaSpread c) (particleLifeMin c)
  (particleLifeMax c) (direction c) (spread c) (speedMin c) (speedMax c)
  (linearAccelerationMin c) (linearAccelerationMax c)
  (radialAccelerationMin c) (radialAccelerationMax c)
  (tangentialAccelerationMin c) (tangentialAccelerationMax c)
  (linearDampingMin c) (linearDampingMax c) v (sizeVariation c)
  (rotationMin c) (rotationMax c) (spinStart c) (spinEnd c) (spinVariation c)
  (colors c) (quads c) (relativeRotation c).

Definition set_sizeVariation (v : float) (c : Params) : Params :=
  mkParams (areaSpreadDistribution c) (areaSpread c) (particleLifeMin c)
  (particleLifeMax c) (direction c) (spread c) (speedMin c) (speedMax c)
  (linearAccelerationMin c) (linearAccelerationMax c)
  (radialAccelerationMin c) (radialAccelerationMax c)
  (tangentialAccelerationMin c) (tangentialAccelerationMax c)
  (linearDampingMin c) (linearDampingMax c) (sizes c) v (rotationMin c)
  (rotationMax c) (spinStart c) (spinEnd c) (spinVariation c) (colors c)
  (quads c) (relativeRotation c).

Definition set_colors (v : list Colorf) (c : Params) : Params :=
  mkParams (areaSpreadDistribution c) (areaSpread c) (particleLifeMin c)
  (particleLifeMax c) (direction c) (spread c) (speedMin c) (speedMax c)
  (linearAccelerationMin c) (linearAccelerationMax c)
  (radialAccelerationMin c) (radialAccelerationMax c)
  (tangentialAccelerationMin c) (tangentialAccelerationMax c)
  (linearDampingMin c) (linearDampingMax c) (sizes c) (sizeVariation c)
  (rotationMin c) (rotationMax c) (spinStart c) (spinEnd c) (spinVariation c)
  v (quads c) (relativeRotation c).

(** What the file takes from outside: the generator [rng] of the anonymous
    namespace with its draws ([random()], [random(max)], [random(min, max)],
    [randomNormal(stddev)], each already converted to [float], and the 64-bit
    [rand()]), libm, [Vector::normalize], the macro [MAX_PARTICLES] of
    ParticleSystem.h, and the allocator: [allocates size] tells whether the
    two [new] of [createBuffers] succeed for [size] particles. [Rng] is the
    type of the states of the generator. *)
Record Externals (Rng : Type) : Type := mkExternals {
  rng_random : Rng -> float * Rng;
  rng_random_max : float -> Rng -> float * Rng;
  rng_random_range : float -> float -> Rng -> float * Rng;
  rng_randomNormal : float -> Rng -> float * Rng;
  rng_rand : Rng -> Z * Rng;
  cosf : float -> float;
  sinf : float -> float;
  atan2f : float -> float -> float;
  normalize : Vector -> Vector;
  MAX_PARTICLES : Z;
  allocates : Z -> bool
}.

Arguments mkExternals {Rng}.
Arguments rng_random {Rng}.
Arguments rng_random_max {Rng}.
Arguments rng_random_range {Rng}.
Arguments rng_randomNormal {Rng}.
Arguments rng_rand {Rng}.
Arguments cosf {Rng}.
Arguments sinf {Rng}.
Arguments atan2f {Rng}.
Arguments normalize {Rng}.
Arguments MAX_PARTICLES {Rng}.
Arguments allocates {Rng}.

Section State.

Context {Rng : Type}.

Record System : Type := mkSystem {
  pMem : option (list Particle.t);
  pFree : nat;
  pHead : option nat;
  pTail : option nat;
  active : bool;
  insertMode : InsertMode;
  maxParticles : Z;
  activeParticles : Z;
  emissionRate : float;
  emitCounter : float;
  position : Vector;
  prevPosition : Vector;
  lifetime : float;
  life : float;
  params : Params;
  rng : Rng
}.

Definition set_pMem (v : option (list Particle.t)) (s : System) : System :=
  mkSystem v (pFree s) (pHead s) (pTail s) (active s) (insertMode s)
  (maxParticles s) (activeParticles s) (emissionRate s) (emitCounter s)
  (position s) (prevPosition s) (lifetime s) (life s) (params s) (rng s).

Definition set_pFree (v : nat) (s : System) : System :=
  mkSystem (pMem s) v (pHead s) (pTail s) (active s) (insertMode s)
  (maxParticles s) (activeParticles s) (emissionRate s) (emitCounter s)
  (position s) (prevPosition s) (lifetime s) (life s) (params s) (rng s).

Definition set_pHead (v : option nat) (s : System) : System :=
  mkSystem (pMem s) (pFree s) v (pTail s) (active s) (insertMode s)
  (maxParticles s) (activeParticles s) (emissionRate s) (emitCounter s)
  (position s) (prevPosition s) (lifetime s) (life s) (params s) (rng s).

Definition set_pTail (v : option nat) (s : System) : System :=
  mkSystem (pMem s) (pFree s) (pHead s) v (active s) (insertMode s)
  (maxParticles s) (activeParticles s) (emissionRate s) (emitCounter s)
  (position s) (prevPosition s) (lifetime s) (life s) (params s) (rng s).

Definition set_active (v : bool) (s : System) : System :=
  mkSystem (pMem s) (pFree s) (pHead s) (pTail s) v (insertMode s)
  (maxParticles s) (activeParticles s) (emissionRate s) (emitCounter s)
  (position s) (prevPosition s) (lifetime s) (life s) (params s) (rng s).

Definition set_insertMode (v : InsertMode) (s : System) : System :=
  mkSystem (pMem s) (pFree s) (pHead s) (pTail s) (active s) v
  (maxParticles s) (activeParticles s) (emissionRate s) (emitCounter s)
  (position s) (prevPosition s) (lifetime s) (life s) (params s) (rng s).

Definition set_maxParticles (v : Z) (s : System) : System :=
  mkSystem (pMem s) (pFree s) (pHead s) (pTail s) (active s) (insertMode s)
  v (activeParticles s) (emissionRate s) (emitCounter s) (position s)
  (prevPosition s) (lifetime s) (life s) (params s) (rng s).

Definition set_activeParticles (v : Z) (s : System) : System :=
  mkSystem (pMem s) (pFree s) (pHead s) (pTail s) (active s) (insertMode s)
  (maxParticles s) v (emissionRate s) (emitCounter s) (position s)
  (prevPosition s) (lifetime s) (life s) (params s) (rng s).

Definition set_emissionRate (v : float) (s : System) : System :=
  mkSystem (pMem s) (pFree s) (pHead s) (pTail s) (active s) (insertMode s)
  (maxParticles s) (activeParticles s) v (emitCounter s) (position s)
  (prevPosition s) (lifetime s) (life s) (params s) (rng s).

Definition set_emitCounter (v : float) (s : System) : System :=
  mkSystem (pMem s) (pFree s) (pHead s) (pTail s) (active s) (insertMode s)
  (maxParticles s) (activeParticles s) (emissionRate s) v (position s)
  (prevPosition s) (lifetime s) (life s) (params s) (rng s).

Definition set_position (v : Vector) (s : System) : System :=
  mkSystem (pMem s) (pFree s) (pHead s) (pTail s) (active s) (insertMode s)
  (maxParticles s) (activeParticles s) (emissionRate s) (emitCounter s) v
  (prevPosition s) (lifetime s) (life s) (params s) (rng s).

Definition set_prevPosition (v : Vector) (s : System) : System :=
  mkSystem (pMem s) (pFree s) (pHead s) (pTail s) (active s) (insertMode s)
  (maxParticles s) (activeParticles s) (emissionRate s) (emitCounter s)
  (position s) v (lifetime s) (life s) (params s) (rng s).

Definition set_lifetime (v : float) (s : System) : System :=
  mkSystem (pMem s) (pFree s) (pHead s) (pTail s) (active s) (insertMode s)
  (maxParticles s) (activeParticles s) (emissionRate s) (emitCounter s)
  (position s) (prevPosition s) v (life s) (params s) (rng s).

Definition set_life (v : float) (s : System) : System :=
  mkSystem (pMem s) (pFree s) (pHead s) (pTail s) (active s) (insertMode s)
  (maxParticles s) (activeParticles s) (emissionRate s) (emitCounter s)
  (position s) (prevPosition s) (lifetime s) v (params s) (rng s).

Definition set_params (v : Params) (s : System) : System :=
  mkSystem (pMem s) (pFree s) (pHead s) (pTail s) (active s) (insertMode s)
  (maxParticles s) (activeParticles s) (emissionRate s) (emitCounter s)
  (position s) (prevPosition s) (lifetime s) (life s) v (rng s).

Definition set_rng (v : Rng) (s : System) : System :=
  mkSystem (pMem s) (pFree s) (pHead s) (pTail s) (active s) (insertMode s)
  (maxParticles s) (activeParticles s) (emissionRate s) (emitCounter s)
  (position s) (prevPosition s) (lifetime s) (life s) (params s) v.

End State.

Arguments System : clear implicits.

Section ParticleSystem.

Context {Rng : Type}.
Variable E : Externals Rng.

(** *** Access to the pool through a pointer *)

(** [*p] *)
Definition load (s : System Rng) (p : nat) : result Particle.t :=
  match pMem s with
  | Some mem => match mem !! p with Some v => Ok v | None => Undefined end
  | None => Undefined
  end.

(** [*p = v] *)
Definition store (p : nat) (v : Particle.t) (s : System Rng) : result (System Rng) :=
  match pMem s with
  | Some mem =>
      if decide (p < length mem)%nat
      then Ok (set_pMem (Some (<[p:=v]> mem)) s)
      else Undefined
  | None => Undefined
  end.

(** [p->field = v], with [f] the assignment of the field. *)
Definition modify (p : nat) (f : Particle.t -> Particle.t) (s : System Rng)
  : result (System Rng) :=
  v <- load s p ;; store p (f v) s.

(** *** Queries *)

Definition getCount (s : System Rng) : Z := activeParticles s.
Definition getBufferSize (s : System Rng) : Z := maxParticles s.
Definition isActive (s : System Rng) : bool := active s.
Definition isPaused (s : System Rng) : bool :=
  negb (active s) && flt (life s) (lifetime s).
Definition isStopped (s : System Rng) : bool :=
  negb (active s) && fle (lifetime s) (life s).
Definition isEmpty (s : System Rng) : bool := activeParticles s =? 0.
Definition isFull (s : System Rng) : bool := activeParticles s =? maxParticles s.

(** *** State changes of the emitter *)

Definition start (s : System Rng) : System Rng := set_active true s.

Definition stop (s : System Rng) : System Rng :=
  set_emitCounter f0 (set_life (lifetime s) (set_active false s)).

Definition pause (s : System Rng) : System Rng := set_active false s.

Definition reset (s : System Rng) : System Rng :=
  match pMem s with
  | None => s
  | Some _ =>
      set_emitCounter f0
        (set_life (lifetime s)
           (set_activeParticles 0
              (set_pTail None (set_pHead None (set_pFree 0%nat s)))))
  end.

(** *** Buffers *)

Definition deleteBuffers (s : System Rng) : System Rng :=
  set_activeParticles 0 (set_maxParticles 0 (set_pMem None s)).

(** The slots that [new Particle[size]] returns hold indeterminate values,
    [Particle.blank] stands for them. When one of the two [new] throws
    [std::bad_alloc], the handler calls [deleteBuffers] and throws
    [Out of memory]: the call of [reset] that follows in [setBufferSize] is
    skipped, and the object is left without buffers. *)
Definition createBuffers (size : Z) (s : System Rng) : result (System Rng) :=
  if allocates E size
  then Ok (set_maxParticles size
             (set_pMem (Some (replicate (Z.to_nat size) Particle.blank))
                (set_pFree 0%nat s)))
  else Exception "Out of memory".

Definition setBufferSize (size : Z) (s : System Rng) : result (System Rng) :=
  if (size =? 0) || (MAX_PARTICLES E <? size)
  then Exception "Invalid buffer size"
  else
    s <- createBuffers size (deleteBuffers s) ;;
    Ok (reset s).

(** *** Setters *)

Definition setInsertMode (mode : InsertMode) (s : System Rng) : System Rng :=
  set_insertMode mode s.

Definition setEmissionRate (rate : float) (s : System Rng) : result (System Rng) :=
  if flt rate f0 then Exception "Invalid emission rate"
  else Ok (set_emissionRate rate s).

Definition setEmitterLifetime (l : float) (s : System Rng) : System Rng :=
  set_life l (set_lifetime l s).

Definition setParticleLifetime (min max : float) (s : System Rng) : System Rng :=
  let c := set_particleLifeMin min (params s) in
  if feq max f0
  then set_params (set_particleLifeMax min c) s
  else set_params (set_particleLifeMax max c) s.

Definition setPosition (x y : float) (s : System Rng) : System Rng :=
  let s := set_position (mkVector x y) s in
  set_prevPosition (position s) s.

Definition moveTo (x y : float) (s : System Rng) : System Rng :=
  set_position (mkVector x y) s.

Definition setSize (size : float) (s : System Rng) : System Rng :=
  set_params (set_sizes [size] (params s)) s.

Definition setSizes (newSizes : list float) (s : System Rng) : System Rng :=
  set_params (set_sizes newSizes (params s)) s.

Definition setSizeVariation (variation : float) (s : System Rng) : System Rng :=
  set_params (set_sizeVariation variation (params s)) s.

Definition setColor (newColors : list Color) (s : System Rng) : System Rng :=
  set_params (set_colors (map colorToFloat newColors) (params s)) s.

(** *** The constructor *)

(** The member initialisers of the constructor. *)
Definition initialMembers (g : Rng) : System Rng :=
  let v0 := mkVector f0 f0 in
  mkSystem None 0%nat None None true INSERT_MODE_TOP 0 0 f0 f0 v0 v0
    fminus1 f0
    (mkParams DISTRIBUTION_NONE v0 f0 f0 f0 f0 f0 f0 v0 v0 f0 f0 f0 f0 f0 f0
       [f1] f0 f0 f0 f0 f0 f0 [mkColorf f1 f1 f1 f1] [] false)
    g.

Definition ParticleSystem (size : Z) (g : Rng) : result (System Rng) :=
  if (size =? 0) || (MAX_PARTICLES E <? size)
  then Exception "Invalid ParticleSystem size."
  else setBufferSize size (initialMembers g).

(** *** Initialisation of a particle *)

Definition calculate_variation (inner outer var : float) (g : Rng)
  : float * Rng :=
  let low := fsub inner (fmul (fdiv outer f2) var) in
  let high := fadd inner (fmul (fdiv outer f2) var) in
  let (r, g) := rng_random E g in
  (fadd (fmul low (fsub f1 r)) (fmul high r), g).

(** The index of [sizes] read for the initial size:
    [(size_t)(p->sizeOffset - .5f) * (sizes.size() - 1)]. *)
Definition initialSizeIndex (sizeOffset : float) (sizes : list float)
  : result Z :=
  i <- size_t_of_float (fsub sizeOffset fhalf) ;;
  Ok (wrap64 (i * wrap64 (vsize sizes - 1))).

Definition initParticle (p : nat) (t : float) (s : System Rng) : result (System Rng) :=
  old <- load s p ;;
  let c := params s in
  let g := rng s in
  let pos :=
    vadd (prevPosition s) (vscale (vsub (position s) (prevPosition s)) t) in
  let (life, g) :=
    if feq (particleLifeMin c) (particleLifeMax c)
    then (particleLifeMin c, g)
    else rng_random_range E (particleLifeMin c) (particleLifeMax c) g in
  let '(px, py, g) :=
    match areaSpreadDistribution c with
    | DISTRIBUTION_UNIFORM =>
        let (dx, g) :=
          rng_random_range E (SFopp (vx (areaSpread c))) (vx (areaSpread c)) g in
        let (dy, g) :=
          rng_random_range E (SFopp (vy (areaSpread c))) (vy (areaSpread c)) g in
        (fadd (vx pos) dx, fadd (vy pos) dy, g)
    | DISTRIBUTION_NORMAL =>
        let (dx, g) := rng_randomNormal E (vx (areaSpread c)) g in
        let (dy, g) := rng_randomNormal E (vy (areaSpread c)) g in
        (fadd (vx pos) dx, fadd (vy pos) dy, g)
    | DISTRIBUTION_NONE => (vx pos, vy pos, g)
    end in
  let (dir, g) :=
    rng_random_range E (fsub (direction c) (fdiv (spread c) f2))
                     (fadd (direction c) (fdiv (spread c) f2)) g in
  let (speed, g) := rng_random_range E (speedMin c) (speedMax c) g in
  let vel := vscale (mkVector (cosf E dir) (sinf E dir)) speed in
  let (lax, g) :=
    rng_random_range E (vx (linearAccelerationMin c))
                     (vx (linearAccelerationMax c)) g in
  let (lay, g) :=
    rng_random_range E (vy (linearAccelerationMin c))
                     (vy (linearAccelerationMax c)) g in
  let (radial, g) :=
    rng_random_range E (radialAccelerationMin c) (radialAccelerationMax c) g in
  let (tangential, g) :=
    rng_random_range E (tangentialAccelerationMin c)
                     (tangentialAccelerationMax c) g in
  let (damping, g) :=
    rng_random_range E (linearDampingMin c) (linearDampingMax c) g in
  let (sizeOffset, g) := rng_random_max E (sizeVariation c) g in
  let (r, g) := rng_random_max E (sizeVariation c) g in
  let sizeIntervalSize := fsub (fsub f1 r) sizeOffset in
  i <- initialSizeIndex sizeOffset (sizes c) ;;
  size <- index (sizes c) i ;;
  let (spin0, g) :=
    calculate_variation (spinStart c) (spinEnd c) (spinVariation c) g in
  let (spin1, g) :=
    calculate_variation (spinEnd c) (spinStart c) (spinVariation c) g in
  let (rotation, g) := rng_random_range E (rotationMin c) (rotationMax c) g in
  let angle :=
    if relativeRotation c then fadd rotation (atan2f E (vy vel) (vx vel))
    else rotation in
  color <- index (colors c) 0 ;;
  store p
    (Particle.mk (Particle.prev old) (Particle.next old) life life (px, py)
       pos vel (mkVector lax lay) radial tangential damping dir size
       sizeOffset sizeIntervalSize rotation angle spin0 spin1 color 0)
    (set_rng g s).

(** *** The active list *)

Definition insertTop (p : nat) (s : System Rng) : result (System Rng) :=
  s <- match pHead s with
       | None => modify p (Particle.set_prev None) (set_pHead (Some p) s)
       | Some _ =>
           match pTail s with
           | None => Undefined
           | Some tl =>
               s <- modify tl (Particle.set_next (Some p)) s ;;
               modify p (Particle.set_prev (Some tl)) s
           end
       end ;;
  s <- modify p (Particle.set_next None) s ;;
  Ok (set_pTail (Some p) s).

Definition insertBottom (p : nat) (s : System Rng) : result (System Rng) :=
  s <- match pTail s with
       | None => modify p (Particle.set_next None) (set_pTail (Some p) s)
       | Some _ =>
           match pHead s with
           | None => Undefined
           | Some hd =>
               s <- modify hd (Particle.set_prev (Some p)) s ;;
               modify p (Particle.set_next (Some hd)) s
           end
       end ;;
  s <- modify p (Particle.set_prev None) s ;;
  Ok (set_pHead (Some p) s).

Definition insertRandom (p : nat) (s : System Rng) : result (System Rng) :=
  let (r, g) := rng_rand E (rng s) in
  let s := set_rng g s in
  let pos := wrap64 r mod (activeParticles s + 1) in
  if pos =? activeParticles s then
    let pA := pHead s in
    s <- match pA with
         | Some a => modify a (Particle.set_prev (Some p)) s
         | None => Ok s
         end ;;
    s <- modify p (Particle.set_prev None) s ;;
    s <- modify p (Particle.set_next pA) s ;;
    Ok (set_pHead (Some p) s)
  else
    let pA := Z.to_nat pos in
    a <- load s pA ;;
    let pB := Particle.next a in
    s <- modify pA (Particle.set_next (Some p)) s ;;
    s <- match pB with
         | Some b => modify b (Particle.set_prev (Some p)) s
         | None => Ok (set_pTail (Some p) s)
         end ;;
    s <- modify p (Particle.set_prev (Some pA)) s ;;
    modify p (Particle.set_next pB) s.

Definition addParticle (t : float) (s : System Rng) : result (System Rng) :=
  if isFull s then Ok s
  else
    let p := pFree s in
    let s := set_pFree (S p) s in
    s <- initParticle p t s ;;
    s <- match insertMode s with
         | INSERT_MODE_TOP => insertTop p s
         | INSERT_MODE_BOTTOM => insertBottom p s
         | INSERT_MODE_RANDOM => insertRandom p s
         end ;;
    Ok (set_activeParticles (wrap32 (activeParticles s + 1)) s).

(** The result is the pair of the returned pointer [pNext] and the state. *)
Definition removeParticle (p : nat) (s : System Rng)
  : result (option nat * System Rng) :=
  v <- load s p ;;
  s <- match Particle.prev v with
       | Some a => modify a (Particle.set_next (Particle.next v)) s
       | None => Ok (set_pHead (Particle.next v) s)
       end ;;
  v <- load s p ;;
  s <- match Particle.next v with
       | Some b => modify b (Particle.set_prev (Particle.prev v)) s
       | None => Ok (set_pTail (Particle.prev v) s)
       end ;;
  let pNext := Particle.next v in
  match pFree s with
  | O => Undefined
  | S q =>
      let s := set_pFree q s in
      r <- (if decide (p = q) then Ok (pNext, s)
            else
              last <- load s q ;;
              s <- store p last s ;;
              let pNext :=
                if decide (pNext = Some q) then Some p else pNext in
              v <- load s p ;;
              s <- match Particle.prev v with
                   | Some a => modify a (Particle.set_next (Some p)) s
                   | None => Ok (set_pHead (Some p) s)
                   end ;;
              v <- load s p ;;
              s <- match Particle.next v with
                   | Some b => modify b (Particle.set_prev (Some p)) s
                   | None => Ok (set_pTail (Some p) s)
                   end ;;
              Ok (pNext, s)) ;;
      Ok (fst r, set_activeParticles (wrap32 (activeParticles (snd r) - 1))
                   (snd r))
  end.

Fixpoint emit_loop (num : nat) (s : System Rng) : result (System Rng) :=
  match num with
  | O => Ok s
  | S num => s <- addParticle f1 s ;; emit_loop num s
  end.

Definition emit (num : Z) (s : System Rng) : result (System Rng) :=
  if negb (active s) then Ok s
  else
    let num := Z.min num (wrap32 (maxParticles s - activeParticles s)) in
    emit_loop (Z.to_nat num) s.

(** *** The integrator *)

(** Piecewise-linear evaluation of the size curve at age [t] for a particle
    with the window ([sizeOffset], [sizeIntervalSize]). *)
Definition evalSize (sizes : list float) (sizeOffset sizeIntervalSize t : float)
  : result float :=
  let s := fadd sizeOffset (fmul t sizeIntervalSize) in
  let s := fmul s (float_of_Z (wrap64 (vsize sizes - 1))) in
  i <- size_t_of_float s ;;
  let k := if i =? wrap64 (vsize sizes - 1) then i else wrap64 (i + 1) in
  let s := fsub s (float_of_Z i) in
  a <- index sizes i ;;
  b <- index sizes k ;;
  Ok (fadd (fmul a (fsub f1 s)) (fmul b s)).

(** The same for the colour curve, at [t] itself. *)
Definition evalColor (colors : list Colorf) (t : float) : result Colorf :=
  let s := fmul t (float_of_Z (wrap64 (vsize colors - 1))) in
  i <- size_t_of_float s ;;
  let k := if i =? wrap64 (vsize colors - 1) then i else wrap64 (i + 1) in
  let s := fsub s (float_of_Z i) in
  a <- index colors i ;;
  b <- index colors k ;;
  Ok (cadd (cscale a (fsub f1 s)) (cscale b s)).

(** The quad index: [None] when no quad is configured (no assignment). *)
Definition evalQuadIndex (quads : list nat) (t : float) : result (option Z) :=
  let k := vsize quads in
  if 0 <? k then
    let s := fmul t (float_of_Z k) in
    i <- (if fgt s f0 then size_t_of_float s else Ok 0) ;;
    Ok (Some (if i <? k then i else k - 1))
  else Ok None.

(** The [else] branch of the loop of [update]: one step of a particle whose
    [life], already decreased, is positive. *)
Definition integrate (dt : float) (c : Params) (p : Particle.t)
  : result Particle.t :=
  let ppos := mkVector (fst (Particle.position p)) (snd (Particle.position p)) in
  let radial := normalize E (vsub ppos (Particle.origin p)) in
  let tangential := radial in
  let radial := vscale radial (Particle.radialAcceleration p) in
  let tangential := mkVector (SFopp (vy tangential)) (vx tangential) in
  let tangential := vscale tangential (Particle.tangentialAcceleration p) in
  let vel :=
    vadd (Particle.velocity p)
      (vscale (vadd (vadd radial tangential) (Particle.linearAcceleration p))
         dt) in
  let vel :=
    vscale vel (fdiv f1 (fadd f1 (fmul (Particle.linearDamping p) dt))) in
  let ppos := vadd ppos (vscale vel dt) in
  let t := fsub f1 (fdiv (Particle.life p) (Particle.lifetime p)) in
  let rotation :=
    fadd (Particle.rotation p)
      (fmul (fadd (fmul (Particle.spinStart p) (fsub f1 t))
                  (fmul (Particle.spinEnd p) t)) dt) in
  let angle :=
    if relativeRotation c then fadd rotation (atan2f E (vy vel) (vx vel))
    else rotation in
  size <- evalSize (sizes c) (Particle.sizeOffset p)
            (Particle.sizeIntervalSize p) t ;;
  color <- evalColor (colors c) t ;;
  quad <- evalQuadIndex (quads c) t ;;
  Ok (Particle.mk (Particle.prev p) (Particle.next p) (Particle.lifetime p)
        (Particle.life p) (vx ppos, vy ppos) (Particle.origin p) vel
        (Particle.linearAcceleration p) (Particle.radialAcceleration p)
        (Particle.tangentialAcceleration p) (Particle.linearDamping p)
        (Particle.direction p) size (Particle.sizeOffset p)
        (Particle.sizeIntervalSize p) rotation angle (Particle.spinStart p)
        (Particle.spinEnd p) color
        (match quad with Some i => i | None => Particle.quadIndex p end)).

(** *** update *)

(** [while (p) { ... }]: the traversal of the active list from [p]. *)
Fixpoint update_particles (fuel : nat) (dt : float) (p : option nat)
  (s : System Rng) : result (System Rng) :=
  match p with
  | None => Ok s
  | Some p =>
      match fuel with
      | O => OutOfFuel
      | S fuel =>
          s <- modify p
                 (fun v => Particle.set_life (fsub (Particle.life v) dt) v) s ;;
          v <- load s p ;;
          if fle (Particle.life v) f0 then
            r <- removeParticle p s ;;
            update_particles fuel dt (fst r) (snd r)
          else
            v <- integrate dt (params s) v ;;
            s <- store p v s ;;
            v <- load s p ;;
            update_particles fuel dt (Particle.next v) s
      end
  end.

(** [while (emitCounter > rate) { addParticle(...); emitCounter -= rate; }];
    the second component counts the calls of [addParticle]. *)
Fixpoint emit_pending (fuel : nat) (rate total : float) (s : System Rng)
  : result (System Rng * nat) :=
  if fgt (emitCounter s) rate then
    match fuel with
    | O => OutOfFuel
    | S fuel =>
        s <- addParticle
               (fsub f1 (fdiv (fsub (emitCounter s) rate) total)) s ;;
        r <- emit_pending fuel rate total
               (set_emitCounter (fsub (emitCounter s) rate) s) ;;
        Ok (fst r, S (snd r))
    end
  else Ok (s, O).

(** [if (active) { ... }]: the emission scheduler and the countdown of the
    emitter. *)
Definition update_emitter (fuel : nat) (dt : float) (s : System Rng)
  : result (System Rng * nat) :=
  if active s then
    let rate := fdiv f1 (emissionRate s) in
    let s := set_emitCounter (fadd (emitCounter s) dt) s in
    let total := fsub (emitCounter s) rate in
    r <- emit_pending fuel rate total s ;;
    let s := set_life (fsub (life (fst r)) dt) (fst r) in
    Ok (if fne (lifetime s) fminus1 && flt (life s) f0 then stop s else s,
        snd r)
  else Ok (s, O).

(** [update] together with the number of calls of [addParticle] it made. *)
Definition update_counting (fuel : nat) (dt : float) (s : System Rng)
  : result (System Rng * nat) :=
  match pMem s with
  | None => Ok (s, O)
  | Some _ =>
      if feq dt f0 then Ok (s, O)
      else
        s <- update_particles fuel dt (pHead s) s ;;
        r <- update_emitter fuel dt s ;;
        Ok (set_prevPosition (position (fst r)) (fst r), snd r)
  end.

Definition update (fuel : nat) (dt : float) (s : System Rng) : result (System Rng) :=
  r <- update_counting fuel dt s ;; Ok (fst r).

(** *** Sequences of calls *)

Inductive Call : Type :=
| CallEmit (num : Z)
| CallUpdate (dt : float)
| CallStart
| CallStop
| CallPause
| CallReset
| CallSetBufferSize (size : Z)
| CallSetInsertMode (mode : InsertMode)
| CallSetEmissionRate (rate : float)
| CallSetEmitterLifetime (l : float)
| CallSetParticleLifetime (min max : float)
| CallSetPosition (x y : float)
| CallMoveTo (x y : float)
| CallSetSizes (newSizes : list float)
| CallSetSizeVariation (variation : float)
| CallSetColor (newColors : list Color).

Definition exec (fuel : nat) (c : Call) (s : System Rng) : result (System Rng) :=
  match c with
  | CallEmit num => emit num s
  | CallUpdate dt => update fuel dt s
  | CallStart => Ok (start s)
  | CallStop => Ok (stop s)
  | CallPause => Ok (pause s)
  | CallReset => Ok (reset s)
  | CallSetBufferSize size => setBufferSize size s
  | CallSetInsertMode mode => Ok (setInsertMode mode s)
  | CallSetEmissionRate rate => setEmissionRate rate s
  | CallSetEmitterLifetime l => Ok (setEmitterLifetime l s)
  | CallSetParticleLifetime min max => Ok (setParticleLifetime min max s)
  | CallSetPosition x y => Ok (setPosition x y s)
  | CallMoveTo x y => Ok (moveTo x y s)
  | CallSetSizes newSizes => Ok (setSizes newSizes s)
  | CallSetSizeVariation variation => Ok (setSizeVariation variation s)
  | CallSetColor newColors => Ok (setColor newColors s)
  end.

Definition out_of_memory (msg : string) : bool :=
  String.eqb msg "Out of memory".

(** A call that throws for one of its arguments leaves the object as it was
    (these [throw] come before the first assignment), and the caller goes
    on. A failed allocation leaves the object without buffers: the sequence
    ends there, with that exception. *)
Fixpoint run (fuel : nat) (cs : list Call) (s : System Rng)
  : result (System Rng) :=
  match cs with
  | [] => Ok s
  | c :: cs =>
      match exec fuel c s with
      | Ok s => run fuel cs s
      | Exception msg =>
          if out_of_memory msg then Exception msg else run fuel cs s
      | Undefined => Undefined
      | OutOfFuel => OutOfFuel
      end
  end.

End ParticleSystem.


(** ** The active list as a property of the pool *)

Section Links.

(** [get] is one of the two links, [Particle.next] or [Particle.prev]. *)
Variable get : Particle.t -> option nat.

(** [seg mem h l e]: following the link from the pointer [h] visits the
    slots [l] in order, and the link of the last one is [e]. *)
Fixpoint seg (mem : list Particle.t) (h : option nat) (l : list nat)
  (e : option nat) : Prop :=
  match l with
  | [] => h = e
  | x :: l => h = Some x /\ exists v, mem !! x = Some v /\ seg mem (get v) l e
  end.

End Links.

Section Pool.

Context {Rng : Type}.

(** [pool s mem l]: the array is [mem], the [next] links from [pHead] visit
    [l] and end on [nullptr], and the [prev] links from the last slot of [l]
    visit [l] backwards and end on [nullptr]. *)
Definition pool (s : System Rng) (mem : list Particle.t) (l : list nat)
  : Prop :=
  pMem s = Some mem /\
  seg Particle.next mem (pHead s) l None /\
  seg Particle.prev mem (last l) (reverse l) None.

(** [pTail] points to the last slot of the list. *)
Definition tail_ok (s : System Rng) (l : list nat) : Prop :=
  pTail s = last l.

(** The list of the slots reached from [pHead] through [next]. *)
Definition active_list (s : System Rng) (l : list nat) : Prop :=
  exists mem, pMem s = Some mem /\ seg Particle.next mem (pHead s) l None.

(** The invariant of the pool: the active list is made of the slots below
    the free boundary, each once, and [activeParticles] counts them.
    [insertRandom] never reads [pTail], and the other two insertions keep
    it on the last slot. *)
Definition pool_inv (s : System Rng) : Prop :=
  exists mem l,
    pool s mem l /\
    l ≡ₚ seq 0 (pFree s) /\
    (pFree s <= length mem)%nat /\
    Z.of_nat (length mem) = maxParticles s /\
    maxParticles s < 2 ^ 32 /\
    activeParticles s = Z.of_nat (pFree s) /\
    (insertMode s <> INSERT_MODE_RANDOM -> tail_ok s l).

(** The members that neither the pool operations nor the generator touch. *)
Definition same_emitter (s s' : System Rng) : Prop :=
  active s' = active s /\ insertMode s' = insertMode s /\
  maxParticles s' = maxParticles s /\ emissionRate s' = emissionRate s /\
  emitCounter s' = emitCounter s /\ position s' = position s /\
  prevPosition s' = prevPosition s /\ lifetime s' = lifetime s /\
  life s' = life s /\ params s' = params s.

(** The same with the allocation of the buffer: what the list operations
    leave alone whatever the state of the pool. *)
Definition same_scheduler (s s' : System Rng) : Prop :=
  same_emitter s s' /\ (pMem s = None <-> pMem s' = None).

(** The data of the particles of the active list, in the order of the list. *)
Definition contents (mem : list Particle.t) (l : list nat)
  : list (option Particle.t) :=
  (fun x => Particle.data <$> mem !! x) <$> l.

(** Two arrays that differ only in the links of their slots. *)
Definition only_links (mem mem' : list Particle.t) : Prop :=
  length mem' = length mem /\
  forall x, Particle.data <$> mem' !! x = Particle.data <$> mem !! x.

(** What relinking leaves alone. *)
Definition untouched (s s' : System Rng) : Prop :=
  pFree s' = pFree s /\ activeParticles s' = activeParticles s /\
  rng s' = rng s /\ same_emitter s s'.

(** The slot that holds a particle after the compaction that moves slot [q]
    to slot [p]. *)
Definition rename (q p x : nat) : nat := if decide (x = q) then p else x.

End Pool.

(** ** A deterministic stand-in for the externals

    Every draw returns the middle of its range, [rand()] counts up, the
    libm functions return zero and [normalize] is the identity. It is used
    where a property is run on a concrete system. *)
Definition test_externals : Externals nat :=
  mkExternals
    (fun g => (fhalf, S g))
    (fun max g => (fmul fhalf max, S g))
    (fun min max g => (fadd min (fmul fhalf (fsub max min)), S g))
    (fun stddev g => (f0, S g))
    (fun g => (Z.of_nat g, S g))
    (fun _ => f0) (fun _ => f0) (fun _ _ => f0)
    (fun v => v)
    536870911
    (fun _ => true).

(** ** Concrete systems on which the properties are run *)

Definition f10 : float := float_of_Z 10.

(** [0.1f] *)
Definition ftenth : float := fdiv f1 f10.

(** A system of four slots holding three particles inserted at the top. *)
Definition three_particles : result (System nat) :=
  s <- ParticleSystem test_externals 4 0%nat ;; emit test_externals 3 s.



(** A freshly constructed system of sixteen slots emitting ten particles a
    second. *)
Definition ten_per_second : result (System nat) :=
  s <- ParticleSystem test_externals 16 0%nat ;; setEmissionRate f10 s.

(** A freshly constructed system of four slots. *)
Definition fresh_system : result (System nat) :=
  ParticleSystem test_externals 4 0%nat.

(** A control point that interpolation can reproduce bit for bit: a
    well-formed finite float other than the negative zero. *)
Definition plain (x : float) : bool :=
  valid_float x && is_finite x &&
  match x with S754_zero true => false | _ => true end.

Definition plain_color (c : Colorf) : bool :=
  plain (cr c) && plain (cg c) && plain (cb c) && plain (ca c).


(** [1.5f] *)
Definition fthree_halves : float := fadd f1 fhalf.

(** A system whose particles take a window of half the size curve. *)
Definition windowed_particle : result (System nat) :=
  s <- fresh_system ;;
  run test_externals 4
    [CallSetSizes [f1; f2]; CallSetSizeVariation f1; CallEmit 1] s.


(** A system whose emission rate is the negative zero. *)
Definition negative_zero_rate : result (System nat) :=
  s <- fresh_system ;; setEmissionRate (S754_zero true) s.

(** A system in the middle of an emission: an emitter of five seconds and
    ten particles a second, particles of one second, three updates. *)
Definition running_emitter : result (System nat) :=
  s <- fresh_system ;;
  run test_externals 4
    [CallSetEmitterLifetime (float_of_Z 5); CallSetParticleLifetime f1 f1;
     CallSetEmissionRate f10; CallUpdate ftenth; CallUpdate ftenth;
     CallUpdate ftenth] s.

(** A system whose emitter lifetime was set to a NaN. *)
Definition nan_lifetime : result (System nat) :=
  s <- fresh_system ;; Ok (setEmitterLifetime S754_nan s).


(** ** The colours read back, and the copy of a system *)

(** [(unsigned char) x]: the truncated value must be representable. *)
Definition uchar_of_float (x : float) : result Z :=
  match ftrunc x with
  | Some z => if (0 <=? z) && (z <? 256) then Ok z else Undefined
  | None => Undefined
  end.

Definition colorOfFloat (c : Colorf) : result Color :=
  r <- uchar_of_float (fmul (cr c) f255) ;;
  g <- uchar_of_float (fmul (cg c) f255) ;;
  b <- uchar_of_float (fmul (cb c) f255) ;;
  a <- uchar_of_float (fmul (ca c) f255) ;;
  Ok (mkColor r g b a).

(** The loop of [getColor] over the stored colours. *)
Fixpoint getColor_loop (cs : list Colorf) : result (list Color) :=
  match cs with
  | [] => Ok []
  | c :: cs =>
      n <- colorOfFloat c ;;
      ns <- getColor_loop cs ;;
      Ok (n :: ns)
  end.

Definition getColor {Rng : Type} (s : System Rng) : result (list Color) :=
  getColor_loop (colors (params s)).

(** [setColor(const Color &)]: one colour. *)
Definition setColor1 {Rng : Type} (color : Color) (s : System Rng)
  : System Rng :=
  set_params (set_colors [colorToFloat color] (params s)) s.

(** The member initialisers of the copy constructor; the generator is the
    one of the file, shared by every system. *)
Definition copiedMembers {Rng : Type} (p : System Rng) : System Rng :=
  mkSystem None 0%nat None None (active p) (insertMode p) (maxParticles p) 0
    (emissionRate p) f0 (position p) (prevPosition p) (lifetime p)
    (lifetime p) (params p) (rng p).

(** [ParticleSystem(const ParticleSystem &p)], which [clone] calls. *)
Definition clone {Rng : Type} (E : Externals Rng) (p : System Rng)
  : result (System Rng) :=
  let s := copiedMembers p in
  setBufferSize E (maxParticles s) s.

(** A byte. *)
Definition is_byte (z : Z) : Prop := 0 <= z < 256.

Definition byte_color (c : Color) : Prop :=
  is_byte (r8 c) /\ is_byte (g8 c) /\ is_byte (b8 c) /\ is_byte (a8 c).

(** A system of four slots that got its first particle in the random insert
    mode. *)
Definition random_first : result (System nat) :=
  s <- fresh_system ;;
  emit test_externals 1 (setInsertMode INSERT_MODE_RANDOM s).

(** A system of four slots holding three particles that live one second. *)
Definition long_lived_particles : result (System nat) :=
  s <- fresh_system ;; emit test_externals 3 (setParticleLifetime f1 f1 s).

(** The externals of the tests with an allocator that refuses more than
    two particles. *)
Definition small_heap : Externals nat :=
  mkExternals (rng_random test_externals) (rng_random_max test_externals)
    (rng_random_range test_externals) (rng_randomNormal test_externals)
    (rng_rand test_externals) (cosf test_externals) (sinf test_externals)
    (atan2f test_externals) (normalize test_externals)
    (MAX_PARTICLES test_externals) (fun size => size <=? 2).

(** ** The two loops of [update] seen from outside *)

(** A call that ends with its result or in undefined behaviour: it neither
    throws nor needs fuel. *)
Definition plain_result {A : Type} (r : result A) : Prop :=
  match r with
  | Ok _ | Undefined => True
  | Exception _ | OutOfFuel => False
  end.

(** [lives_are mem l ls]: the remaining lives of the particles in the slots
    [l], in that order, are [ls]. *)
Definition lives_are (mem : list Particle.t) (l : list nat)
  (ls : list float) : Prop :=
  Forall2 (fun x f => exists v, mem !! x = Some v /\ Particle.life v = f) l ls.

(** What the traversal makes of these lives: each goes down by [dt], and
    those that are then [<= 0] are gone. *)
Fixpoint survivors (dt : float) (ls : list float) : list float :=
  match ls with
  | [] => []
  | f :: ls =>
      if fle (fsub f dt) f0 then survivors dt ls
      else fsub f dt :: survivors dt ls
  end.

(** The loop of the scheduler on the counter alone: the counter when the
    loop is left and the number of its passes, [None] when the fuel does
    not reach the end. *)
Fixpoint scheduler_passes (fuel : nat) (rate c : float)
  : option (float * nat) :=
  if fgt c rate then
    match fuel with
    | O => None
    | S fuel =>
        match scheduler_passes fuel rate (fsub c rate) with
        | Some (c', k) => Some (c', S k)
        | None => None
        end
    end
  else Some (c, O).


(** The configuration of the particles that the constructor sets. *)
Definition constructor_params : Params := params (initialMembers tt).



(** ** Links *)

Section LinkFacts.

Variable get : Particle.t -> option nat.

Lemma seg_app mem h l1 l2 e :
  seg get mem h (l1 ++ l2) e <->
  exists m, seg get mem h l1 m /\ seg get mem m l2 e.
Proof.
  revert h. induction l1 as [|x l1 IH]; intros h; simpl.
  - split; [intros H; exists h; auto | intros (m & -> & H); exact H].
  - split.
    + intros (-> & v & Hv & H). apply IH in H as (m & H1 & H2).
      exists m. split; [|exact H2]. split; [reflexivity|]. eauto.
    + intros (m & (-> & v & Hv & H1) & H2). split; [reflexivity|].
      exists v. split; [exact Hv|]. apply IH. eauto.
Qed.

Lemma seg_first mem h l e :
  seg get mem h l e -> h = match l with [] => e | x :: _ => Some x end.
Proof. destruct l; simpl; [auto | intros [-> _]; reflexivity]. Qed.

Lemma seg_head mem h l : seg get mem h l None -> h = head l.
Proof. intros H. apply seg_first in H. destruct l; exact H. Qed.

Lemma seg_lookup mem h l e x :
  seg get mem h l e -> x ∈ l -> is_Some (mem !! x).
Proof.
  revert h. induction l as [|y l IH]; intros h; simpl.
  - intros _ Hx. inversion Hx.
  - intros (-> & v & Hv & H) Hx. apply elem_of_cons in Hx as [->|Hx]; eauto.
Qed.

(** Writing a slot that is not on the segment. *)
Lemma seg_frame mem x v h l e :
  x ∉ l -> seg get mem h l e -> seg get (<[x:=v]> mem) h l e.
Proof.
  revert h. induction l as [|y l IH]; intros h Hx; simpl; [auto|].
  intros (-> & w & Hw & H). apply not_elem_of_cons in Hx as [Hxy Hx].
  split; [reflexivity|]. exists w. split; [|auto].
  rewrite list_lookup_insert_ne by exact Hxy. exact Hw.
Qed.

(** Writing a slot without changing the link. *)
Lemma seg_keep mem x v v' h l e :
  mem !! x = Some v -> get v' = get v ->
  seg get mem h l e -> seg get (<[x:=v']> mem) h l e.
Proof.
  intros Hv Hget. revert h. induction l as [|y l IH]; intros h; simpl; [auto|].
  intros (-> & w & Hw & H). split; [reflexivity|].
  destruct (decide (x = y)) as [->|Hxy].
  - exists v'. rewrite list_lookup_insert_eq by (eapply lookup_lt_Some; eauto).
    split; [reflexivity|]. rewrite Hget. rewrite Hv in Hw. injection Hw as ->.
    auto.
  - exists w. rewrite list_lookup_insert_ne by exact Hxy. auto.
Qed.

(** Writing the link of the last slot of a segment. *)
Lemma seg_set_last mem h l a e va' :
  seg get mem h (l ++ [a]) e -> a ∉ l ->
  seg get (<[a:=va']> mem) h (l ++ [a]) (get va').
Proof.
  intros H Ha. apply seg_app in H as (m & H1 & H2). apply seg_app.
  exists m. split; [apply seg_frame; assumption|].
  simpl in *. destruct H2 as (-> & v & Hv & _). split; [reflexivity|].
  exists va'. rewrite list_lookup_insert_eq by (eapply lookup_lt_Some; eauto).
  auto.
Qed.

(** Redirecting the link that leads out of [l1] to the start of [l2]: the
    link of the last slot of [l1], or the entry pointer when [l1] is empty. *)
Lemma seg_redirect mem h l1 e y l2 a va' :
  seg get mem h l1 e -> seg get mem y l2 None ->
  last l1 = Some a -> NoDup l1 -> a ∉ l2 -> get va' = y ->
  seg get (<[a:=va']> mem) h (l1 ++ l2) None.
Proof.
  intros H1 H2 Hl Hnd Ha Hy. apply last_Some in Hl as (l & ->).
  apply NoDup_app in Hnd as (_ & Hd & _).
  apply seg_app. exists y. split.
  - rewrite <- Hy. eapply seg_set_last; [exact H1|].
    intros Hin. apply (Hd a Hin). apply list_elem_of_singleton. reflexivity.
  - apply seg_frame; assumption.
Qed.

End LinkFacts.

Section LinkFacts2.

Variable get : Particle.t -> option nat.

(** A segment only depends on the links of its own slots. *)
Lemma seg_ext mem mem' h l e :
  (forall x, x ∈ l -> get <$> mem' !! x = get <$> mem !! x) ->
  seg get mem h l e -> seg get mem' h l e.
Proof.
  revert h. induction l as [|y l IH]; intros h Hext; simpl; [auto|].
  intros (-> & v & Hv & H). split; [reflexivity|].
  pose proof (Hext y (list_elem_of_here y l)) as Hy. rewrite Hv in Hy.
  destruct (mem' !! y) as [w|]; [|discriminate]. simpl in Hy.
  injection Hy as Hy. exists w. split; [reflexivity|]. rewrite Hy.
  apply IH; [|exact H]. intros x Hx. apply Hext. apply list_elem_of_further, Hx.
Qed.

End LinkFacts2.

Section PoolFacts.

Context {Rng : Type}.
Implicit Types (s : System Rng) (mem : list Particle.t).

Lemma load_Some s mem p v :
  pMem s = Some mem -> mem !! p = Some v -> load s p = Ok v.
Proof. intros Hm Hv. unfold load. rewrite Hm, Hv. reflexivity. Qed.

Lemma store_Some s mem p v :
  pMem s = Some mem -> (p < length mem)%nat ->
  store p v s = Ok (set_pMem (Some (<[p:=v]> mem)) s).
Proof.
  intros Hm Hp. unfold store. rewrite Hm. destruct (decide _); [reflexivity|lia].
Qed.

Lemma modify_Some s mem p v f :
  pMem s = Some mem -> mem !! p = Some v ->
  modify p f s = Ok (set_pMem (Some (<[p:=f v]> mem)) s).
Proof.
  intros Hm Hv. unfold modify. rewrite (load_Some s mem p v Hm Hv). simpl.
  apply store_Some; [exact Hm|]. eapply lookup_lt_Some, Hv.
Qed.

Lemma same_emitter_refl s : same_emitter s s.
Proof. repeat split. Qed.

Lemma same_emitter_trans s1 s2 s3 :
  same_emitter s1 s2 -> same_emitter s2 s3 -> same_emitter s1 s3.
Proof. unfold same_emitter. intuition congruence. Qed.

Lemma untouched_refl s : untouched s s.
Proof. repeat split. Qed.

Lemma untouched_trans s1 s2 s3 :
  untouched s1 s2 -> untouched s2 s3 -> untouched s1 s3.
Proof.
  intros (? & ? & ? & ?) (? & ? & ? & ?).
  repeat split; try congruence; eapply same_emitter_trans; eauto.
Qed.

Lemma only_links_refl mem : only_links mem mem.
Proof. split; auto. Qed.

Lemma only_links_trans m1 m2 m3 :
  only_links m1 m2 -> only_links m2 m3 -> only_links m1 m3.
Proof. intros [? H1] [? H2]. split; [congruence|]. intros x. rewrite H2. apply H1. Qed.

(** Writing a link of a slot. *)
Lemma insert_link mem a va va' :
  mem !! a = Some va -> Particle.data va' = Particle.data va ->
  only_links mem (<[a:=va']> mem).
Proof.
  intros Hva Hd. split; [apply length_insert|]. intros x.
  destruct (decide (a = x)) as [<-|Hne].
  - rewrite list_lookup_insert_eq by (eapply lookup_lt_Some; eauto).
    rewrite Hva. simpl. congruence.
  - rewrite list_lookup_insert_ne by exact Hne. reflexivity.
Qed.

Lemma insert_other_link (get : Particle.t -> option nat) mem a va va' x :
  mem !! a = Some va -> get va' = get va ->
  get <$> <[a:=va']> mem !! x = get <$> mem !! x.
Proof.
  intros Hva Hg. destruct (decide (a = x)) as [<-|Hne].
  - rewrite list_lookup_insert_eq by (eapply lookup_lt_Some; eauto).
    rewrite Hva. simpl. congruence.
  - rewrite list_lookup_insert_ne by exact Hne. reflexivity.
Qed.

(** [if (a) a->next = y; else pHead = y;] where [a] is the last slot of the
    forward segment [l1], if any: the segment now continues with [l2]. *)
Lemma relink_next s mem a y l1 e l2 :
  pMem s = Some mem ->
  seg Particle.next mem (pHead s) l1 e -> last l1 = a -> NoDup l1 ->
  seg Particle.next mem y l2 None -> (forall x, a = Some x -> x ∉ l2) ->
  exists s' mem',
    match a with
    | Some a' => modify a' (Particle.set_next y) s
    | None => Ok (set_pHead y s)
    end = Ok s' /\
    pMem s' = Some mem' /\
    seg Particle.next mem' (pHead s') (l1 ++ l2) None /\
    pTail s' = pTail s /\ untouched s s' /\ only_links mem mem' /\
    (forall x, Particle.prev <$> mem' !! x = Particle.prev <$> mem !! x) /\
    (forall x, a <> Some x -> mem' !! x = mem !! x).
Proof.
  intros Hm H1 Hl Hnd H2 Hout. destruct a as [a|].
  - assert (Ha : a ∈ l1) by (apply last_Some_elem_of, Hl).
    destruct (seg_lookup _ _ _ _ _ _ H1 Ha) as [va Hva].
    exists (set_pMem (Some (<[a:=Particle.set_next y va]> mem)) s),
           (<[a:=Particle.set_next y va]> mem).
    split; [apply modify_Some; assumption|].
    split; [reflexivity|].
    split; [eapply seg_redirect; eauto|].
    split; [reflexivity|]. split; [repeat split|].
    split; [eapply insert_link; eauto|].
    split; [intros x; eapply (insert_other_link Particle.prev); eauto|].
    intros x Hx. apply list_lookup_insert_ne. congruence.
  - apply last_None in Hl as ->. simpl in H1. subst e.
    exists (set_pHead y s), mem. simpl.
    repeat split; auto.
Qed.

(** [if (b) b->prev = y; else pTail = y;], the same on the backward links;
    [t] is where the backward segment [l1] starts. *)
Lemma relink_prev s mem t b y l1 e l2 :
  pMem s = Some mem ->
  seg Particle.prev mem t l1 e -> last l1 = b -> NoDup l1 ->
  seg Particle.prev mem y l2 None -> (forall x, b = Some x -> x ∉ l2) ->
  exists s' mem',
    match b with
    | Some b' => modify b' (Particle.set_prev y) s
    | None => Ok (set_pTail y s)
    end = Ok s' /\
    pMem s' = Some mem' /\
    seg Particle.prev mem' (match b with Some _ => t | None => y end)
      (l1 ++ l2) None /\
    pTail s' = match b with Some _ => pTail s | None => y end /\
    pHead s' = pHead s /\ untouched s s' /\ only_links mem mem' /\
    (forall x, Particle.next <$> mem' !! x = Particle.next <$> mem !! x) /\
    (forall x, b <> Some x -> mem' !! x = mem !! x).
Proof.
  intros Hm H1 Hl Hnd H2 Hout. destruct b as [b|].
  - assert (Hb : b ∈ l1) by (apply last_Some_elem_of, Hl).
    destruct (seg_lookup _ _ _ _ _ _ H1 Hb) as [vb Hvb].
    exists (set_pMem (Some (<[b:=Particle.set_prev y vb]> mem)) s),
           (<[b:=Particle.set_prev y vb]> mem).
    split; [apply modify_Some; assumption|].
    split; [reflexivity|].
    split; [eapply seg_redirect; eauto|].
    split; [reflexivity|]. split; [reflexivity|]. split; [repeat split|].
    split; [eapply insert_link; eauto|].
    split; [intros x; eapply (insert_other_link Particle.next); eauto|].
    intros x Hx. apply list_lookup_insert_ne. congruence.
  - apply last_None in Hl as ->. simpl in H1. subst e.
    exists (set_pTail y s), mem. simpl.
    repeat split; auto.
Qed.

(** A backward segment that ends on [nullptr] starts at the last slot. *)
Lemma seg_prev_entry mem t l :
  seg Particle.prev mem t (reverse l) None ->
  t = last l /\ seg Particle.prev mem (last l) (reverse l) None.
Proof.
  intros H. assert (t = last l) as ->; [|auto].
  rewrite <- head_reverse. eapply seg_head, H.
Qed.

End PoolFacts.

Section RemoveFacts.

Context {Rng : Type}.
Implicit Types (s : System Rng) (mem : list Particle.t).

Lemma rename_same q x : rename q q x = x.
Proof. unfold rename. case_decide; congruence. Qed.

Lemma rename_other q p (l : list nat) : q ∉ l -> rename q p <$> l = l.
Proof.
  intros Hq. rewrite <- (list_fmap_id l) at 2. apply list_fmap_ext.
  intros i x Hx. unfold rename. destruct (decide (x = q)) as [->|]; [|reflexivity].
  exfalso. apply Hq. eapply list_elem_of_lookup_2, Hx.
Qed.

Lemma head_rename q p (l : list nat) :
  head (rename q p <$> l) =
  if decide (head l = Some q) then Some p else head l.
Proof.
  destruct l as [|x l]; simpl.
  - reflexivity.
  - unfold rename. destruct (decide (x = q)) as [->|Hne].
    + case_decide; [reflexivity|congruence].
    + case_decide; [congruence|reflexivity].
Qed.

Lemma NoDup_reverse (l : list nat) : NoDup l -> NoDup (reverse l).
Proof. intros H. rewrite reverse_Permutation. exact H. Qed.

(** The slot [p] of a pool whose list is [l1 ++ p :: l2]. *)
Lemma pool_middle s mem l1 p l2 :
  pool s mem (l1 ++ p :: l2) ->
  exists v,
    mem !! p = Some v /\
    Particle.next v = head l2 /\ Particle.prev v = last l1 /\
    seg Particle.next mem (pHead s) l1 (Some p) /\
    seg Particle.next mem (Particle.next v) l2 None /\
    seg Particle.prev mem (last (l1 ++ p :: l2)) (reverse l2) (Some p) /\
    seg Particle.prev mem (Particle.prev v) (reverse l1) None.
Proof.
  intros (Hm & Hf & Hb).
  apply seg_app in Hf as (m & Hf1 & Hf2). simpl in Hf2.
  destruct Hf2 as (-> & v & Hv & Hf2).
  rewrite reverse_app, reverse_cons, <- app_assoc in Hb. simpl in Hb.
  apply seg_app in Hb as (m & Hb1 & Hb2). simpl in Hb2.
  destruct Hb2 as (-> & v' & Hv' & Hb2).
  rewrite Hv in Hv'. injection Hv' as <-.
  exists v. split; [exact Hv|].
  split; [eapply seg_head; eauto|].
  split; [rewrite <- head_reverse; eapply seg_head; eauto|].
  auto.
Qed.

Lemma removeParticle_spec s mem l1 p l2 q :
  pool s mem (l1 ++ p :: l2) -> NoDup (l1 ++ p :: l2) ->
  pFree s = S q -> q ∈ l1 ++ p :: l2 ->
  exists s' mem',
    removeParticle p s = Ok (head (rename q p <$> l2), s') /\
    pool s' mem' (rename q p <$> (l1 ++ l2)) /\
    contents mem' (rename q p <$> (l1 ++ l2)) = contents mem (l1 ++ l2) /\
    length mem' = length mem /\
    pFree s' = q /\
    activeParticles s' = wrap32 (activeParticles s - 1) /\
    rng s' = rng s /\ same_emitter s s' /\
    (tail_ok s (l1 ++ p :: l2) ->
     tail_ok s' (rename q p <$> (l1 ++ l2))).
Proof.
  intros Hpool Hnd Hfree Hq.
  destruct (pool_middle _ _ _ _ _ Hpool) as
    (v & Hv & Hnext & Hprev & Hf1 & Hf2 & Hb1 & Hb2).
  destruct Hpool as (Hm & _ & _).
  apply NoDup_app in Hnd as (Hnd1 & Hdisj & Hnd2).
  apply NoDup_cons in Hnd2 as (Hp2 & Hnd2).
  assert (Hp1 : p ∉ l1).
  { intros Hin. apply (Hdisj p Hin). apply list_elem_of_here. }
  assert (Hdisj' : forall x, x ∈ l1 -> x ∉ l2).
  { intros x Hin Hin2. apply (Hdisj x Hin). apply list_elem_of_further, Hin2. }
  (* unlinking, forward *)
  destruct (relink_next s mem (Particle.prev v) (Particle.next v) l1 (Some p) l2)
    as (s1 & mem1 & E1 & Hm1 & Hf & Ht1 & Hu1 & Hl1 & Hpv1 & Ho1); auto.
  { intros x Hx. apply Hdisj'. apply last_Some_elem_of. congruence. }
  assert (Hv1 : mem1 !! p = Some v).
  { rewrite Ho1; [exact Hv|]. intros Hx. apply Hp1.
    apply last_Some_elem_of. congruence. }
  (* unlinking, backward *)
  destruct (relink_prev s1 mem1 (last (l1 ++ p :: l2)) (Particle.next v)
              (Particle.prev v) (reverse l2) (Some p) (reverse l1))
    as (s2 & mem2 & E2 & Hm2 & Hb & Ht2 & Hh2 & Hu2 & Hl2 & Hnx2 & Ho2); auto.
  { eapply seg_ext; [|exact Hb1]. intros; apply Hpv1. }
  { rewrite last_reverse. auto. }
  { apply NoDup_reverse, Hnd2. }
  { eapply seg_ext; [|exact Hb2]. intros; apply Hpv1. }
  { intros x Hx Hin. rewrite elem_of_reverse in Hin.
    apply (Hdisj' x Hin). apply head_Some_elem_of. congruence. }
  rewrite <- reverse_app in Hb. apply seg_prev_entry in Hb as [Hent2 Hb].
  assert (Hpool2 : pool s2 mem2 (l1 ++ l2)).
  { split; [exact Hm2|]. split; [|exact Hb].
    rewrite Hh2. eapply seg_ext; [|exact Hf]. intros; apply Hnx2. }
  assert (Htail2 : tail_ok s (l1 ++ p :: l2) -> tail_ok s2 (l1 ++ l2)).
  { unfold tail_ok. intros Htl. rewrite Ht2, Ht1, Htl. exact Hent2. }
  assert (Hlinks2 : only_links mem mem2) by (eapply only_links_trans; eauto).
  assert (Hunt2 : untouched s s2) by (eapply untouched_trans; eauto).
  unfold removeParticle.
  rewrite (load_Some s mem p v Hm Hv). simpl. rewrite E1. simpl.
  rewrite (load_Some s1 mem1 p v Hm1 Hv1). simpl. rewrite E2. simpl.
  destruct Hunt2 as (Hfree2 & Hact2 & Hrng2 & Hem2).
  rewrite Hfree2, Hfree.
  destruct (decide (p = q)) as [->|Hne].
  - (* the removed particle is the last allocated one *)
    simpl. exists (set_activeParticles (wrap32 (activeParticles s2 - 1)) (set_pFree q s2)), mem2.
    assert (Hid : forall l : list nat, rename q q <$> l = l).
    { intros l. rewrite <- (list_fmap_id l) at 2. apply list_fmap_ext.
      intros; apply rename_same. }
    rewrite !Hid, Hnext.
    split; [reflexivity|]. split; [exact Hpool2|].
    split.
    { unfold contents. apply list_fmap_ext. intros i x _. apply Hlinks2. }
    split; [apply Hlinks2|]. split; [reflexivity|].
    split; [simpl; rewrite Hact2; reflexivity|].
    split; [exact Hrng2|]. split; [exact Hem2|exact Htail2].
  - (* the last allocated particle moves into the freed slot *)
    assert (Hq2 : q ∈ l1 ++ l2).
    { rewrite elem_of_app in Hq. rewrite elem_of_app.
      destruct Hq as [Hq|Hq]; [left; exact Hq|].
      apply elem_of_cons in Hq as [Hq|Hq]; [congruence|right; exact Hq]. }
    apply list_elem_of_split in Hq2 as (m1 & m2 & Hsplit).
    assert (Hnd' : NoDup (m1 ++ q :: m2)).
    { rewrite <- Hsplit. apply NoDup_app. auto. }
    assert (Hp' : p ∉ m1 ++ q :: m2).
    { rewrite <- Hsplit. rewrite not_elem_of_app. auto. }
    rewrite Hsplit in Hpool2.
    destruct (pool_middle _ _ _ _ _ Hpool2) as
      (vq & Hvq & Hqnext & Hqprev & Hg1 & Hg2 & Hc1 & Hc2).
    apply NoDup_app in Hnd' as (Hndm1 & Hdm & Hndm2).
    apply NoDup_cons in Hndm2 as (Hqm2 & Hndm2).
    apply not_elem_of_app in Hp' as (Hpm1 & Hpm2).
    apply not_elem_of_cons in Hpm2 as (_ & Hpm2).
    assert (Hqm1 : q ∉ m1).
    { intros Hin. apply (Hdm q Hin). apply list_elem_of_here. }
    assert (Hdm' : forall x, x ∈ m1 -> x ∉ m2).
    { intros x Hin Hin2. apply (Hdm x Hin). apply list_elem_of_further, Hin2. }
    assert (Hplt : (p < length mem2)%nat).
    { destruct Hlinks2 as [-> _]. eapply lookup_lt_Some, Hv. }
    set (s2' := set_pFree q s2).
    set (mem3 := <[p:=vq]> mem2).
    set (s3 := set_pMem (Some mem3) s2').
    assert (Hvp3 : mem3 !! p = Some vq) by (apply list_lookup_insert_eq, Hplt).
    rewrite (load_Some s2' mem2 q vq Hm2 Hvq). simpl.
    rewrite (store_Some s2' mem2 p vq Hm2 Hplt). fold mem3. fold s3. simpl.
    rewrite (load_Some s3 mem3 p vq eq_refl Hvp3). simpl.
    (* the forward link that led to [q] now leads to [p] *)
    destruct (relink_next s3 mem3 (Particle.prev vq) (Some p) m1 (Some q)
                (p :: m2))
      as (s4 & mem4 & E4 & Hm4 & Hf4 & Ht4 & Hu4 & Hl4 & Hpv4 & Ho4); auto.
    { apply seg_frame; assumption. }
    { split; [reflexivity|]. exists vq. split; [exact Hvp3|].
      apply seg_frame; assumption. }
    { intros x Hx. assert (x ∈ m1) by (apply last_Some_elem_of; congruence).
      apply not_elem_of_cons. split; [congruence|auto]. }
    assert (Hvp4 : mem4 !! p = Some vq).
    { rewrite Ho4; [exact Hvp3|]. intros Hx. apply Hpm1.
      apply last_Some_elem_of. congruence. }
    rewrite E4. simpl. rewrite (load_Some s4 mem4 p vq Hm4 Hvp4). simpl.
    (* the backward link that led to [q] now leads to [p] *)
    destruct (relink_prev s4 mem4 (last (m1 ++ q :: m2)) (Particle.next vq)
                (Some p) (reverse m2) (Some q) (p :: reverse m1))
      as (s5 & mem5 & E5 & Hm5 & Hb5 & Ht5 & Hh5 & Hu5 & Hl5 & Hnx5 & Ho5);
      auto.
    { eapply seg_ext; [intros; apply Hpv4|].
      apply seg_frame; [rewrite elem_of_reverse; exact Hpm2|exact Hc1]. }
    { rewrite last_reverse. auto. }
    { apply NoDup_reverse, Hndm2. }
    { eapply seg_ext; [intros; apply Hpv4|].
      split; [reflexivity|]. exists vq. split; [exact Hvp3|].
      apply seg_frame; [rewrite elem_of_reverse; exact Hpm1|exact Hc2]. }
    { intros x Hx. assert (Hxm2 : x ∈ m2) by (apply head_Some_elem_of; congruence).
      apply not_elem_of_cons. split; [congruence|].
      rewrite elem_of_reverse. intros Hin. apply (Hdm' x Hin Hxm2). }
    rewrite E5. simpl.
    assert (Hren : rename q p <$> (l1 ++ l2) = m1 ++ p :: m2).
    { rewrite Hsplit, fmap_app, fmap_cons, !rename_other by assumption.
      unfold rename at 1. rewrite decide_True by reflexivity. reflexivity. }
    exists (set_activeParticles (wrap32 (activeParticles s5 - 1)) s5), mem5.
    split.
    { rewrite head_rename, Hnext. reflexivity. }
    rewrite Hren.
    replace (reverse m2 ++ p :: reverse m1) with (reverse (m1 ++ p :: m2)) in Hb5
      by (rewrite reverse_app, reverse_cons, <- app_assoc; reflexivity).
    apply seg_prev_entry in Hb5 as [Hent5 Hb5].
    split.
    { split; [exact Hm5|]. split; [|exact Hb5].
      simpl. rewrite Hh5. eapply seg_ext; [intros; apply Hnx5|]. exact Hf4. }
    assert (Hlinks5 : only_links mem3 mem5) by (eapply only_links_trans; eauto).
    split.
    { rewrite <- Hren. unfold contents. rewrite <- list_fmap_compose.
      apply list_fmap_ext. intros i x Hx. simpl.
      assert (Hxin : x ∈ l1 ++ l2) by (eapply list_elem_of_lookup_2, Hx).
      destruct Hlinks5 as [_ ->]. destruct Hlinks2 as [_ <-].
      unfold rename. destruct (decide (x = q)) as [->|Hxq].
      - rewrite Hvp3, Hvq. reflexivity.
      - unfold mem3. rewrite list_lookup_insert_ne; [reflexivity|].
        intros ->. rewrite elem_of_app in Hxin. tauto. }
    split.
    { destruct Hlinks5 as [-> _]. unfold mem3. rewrite length_insert.
      apply Hlinks2. }
    assert (Hunt5 : untouched s3 s5) by (eapply untouched_trans; eauto).
    destruct Hunt5 as (Hfree5 & Hact5 & Hrng5 & Hem5).
    split; [simpl; rewrite Hfree5; reflexivity|].
    split; [simpl; rewrite Hact5; simpl; rewrite Hact2; reflexivity|].
    split; [simpl; rewrite Hrng5; exact Hrng2|].
    split; [eapply same_emitter_trans; [exact Hem2|]; exact Hem5|].
    intros Htl. apply Htail2 in Htl. unfold tail_ok in *. simpl.
    rewrite Ht5, Ht4. simpl. rewrite Htl, Hsplit. exact Hent5.
Qed.
End RemoveFacts.

Section InsertFacts.

Context {Rng : Type}.
Implicit Types (s : System Rng) (mem : list Particle.t).

Section Views.

Variable get : Particle.t -> option nat.

Lemma seg_snoc_ext mem mem' h l a e y :
  seg get mem h (l ++ [a]) e ->
  (forall x, x ∈ l -> get <$> mem' !! x = get <$> mem !! x) ->
  get <$> mem' !! a = Some y ->
  seg get mem' h (l ++ [a]) y.
Proof.
  intros H Hl Ha. apply seg_app in H as (m & H1 & H2). apply seg_app.
  exists m. split; [eapply seg_ext; eauto|].
  simpl in *. destruct H2 as (-> & _). split; [reflexivity|].
  destruct (mem' !! a) as [w|]; [|discriminate]. injection Ha as Ha.
  exists w. auto.
Qed.

(** The slot [p] enters a list between [k1] and [k2]. *)
Lemma seg_insert mem mem' h h' k1 k2 p :
  seg get mem h (k1 ++ k2) None -> NoDup k1 ->
  (forall x, x ∈ k1 -> Some x <> last k1 ->
             get <$> mem' !! x = get <$> mem !! x) ->
  (forall x, x ∈ k2 -> get <$> mem' !! x = get <$> mem !! x) ->
  get <$> mem' !! p = Some (head k2) ->
  (forall a, last k1 = Some a -> get <$> mem' !! a = Some (Some p)) ->
  h' = match last k1 with Some _ => h | None => Some p end ->
  seg get mem' h' (k1 ++ p :: k2) None.
Proof.
  intros H Hnd Hk1 Hk2 Hp Ha ->.
  apply seg_app in H as (m & H1 & H2).
  assert (Hm : m = head k2) by (eapply seg_head; eauto). subst m.
  apply seg_app. exists (Some p). split.
  - destruct (last k1) as [a|] eqn:Hl.
    + apply last_Some in Hl as (l & ->).
      apply NoDup_app in Hnd as (_ & Hd & _).
      eapply seg_snoc_ext; [exact H1| |apply Ha; reflexivity].
      intros x Hx. apply Hk1.
      * apply elem_of_app. left. exact Hx.
      * intros [= ->]. apply (Hd a Hx). apply list_elem_of_here.
    + apply last_None in Hl as ->. reflexivity.
  - split; [reflexivity|].
    destruct (mem' !! p) as [w|]; [|discriminate]. injection Hp as Hp.
    exists w. split; [reflexivity|]. rewrite Hp.
    eapply seg_ext; [|exact H2]. exact Hk2.
Qed.

End Views.

Section AlterViews.

Context {B : Type}.
Variable get : Particle.t -> B.

Lemma view_alter_ne (f : Particle.t -> Particle.t) mem a x :
  x <> a -> get <$> alter f a mem !! x = get <$> mem !! x.
Proof. intros H. rewrite list_lookup_alter_ne by congruence. reflexivity. Qed.

Lemma view_alter_keep (f : Particle.t -> Particle.t) mem a x :
  (forall v, get (f v) = get v) ->
  get <$> alter f a mem !! x = get <$> mem !! x.
Proof.
  intros H. destruct (decide (x = a)) as [->|Hne].
  - rewrite list_lookup_alter_eq. destruct (mem !! a); simpl; [|reflexivity].
    rewrite H. reflexivity.
  - apply view_alter_ne, Hne.
Qed.

Lemma view_alter_set (f : Particle.t -> Particle.t) mem a y :
  (forall v, get (f v) = y) -> (a < length mem)%nat ->
  get <$> alter f a mem !! a = Some y.
Proof.
  intros H Ha. rewrite list_lookup_alter_eq.
  destruct (lookup_lt_is_Some_2 mem a Ha) as [v ->]. simpl. rewrite H.
  reflexivity.
Qed.

End AlterViews.

Lemma next_alter_set_next y a mem :
  (a < length mem)%nat ->
  Particle.next <$> alter (Particle.set_next y) a mem !! a = Some y.
Proof. intros Ha. apply view_alter_set; [reflexivity|exact Ha]. Qed.

Lemma prev_alter_set_prev y a mem :
  (a < length mem)%nat ->
  Particle.prev <$> alter (Particle.set_prev y) a mem !! a = Some y.
Proof. intros Ha. apply view_alter_set; [reflexivity|exact Ha]. Qed.

Lemma modify_alter s mem p f :
  pMem s = Some mem -> (p < length mem)%nat ->
  modify p f s = Ok (set_pMem (Some (alter f p mem)) s).
Proof.
  intros Hm Hp. destruct (lookup_lt_is_Some_2 mem p Hp) as [v Hv].
  rewrite (modify_Some s mem p v f Hm Hv). do 3 f_equal.
  rewrite list_insert_alter. apply list_alter_ext; [|reflexivity].
  intros w Hw. congruence.
Qed.

Lemma only_links_alter mem mem' f a :
  (forall v, Particle.data (f v) = Particle.data v) ->
  only_links mem mem' -> only_links mem (alter f a mem').
Proof.
  intros Hf [Hlen Hd]. split; [rewrite length_alter; exact Hlen|].
  intros x. rewrite (view_alter_keep Particle.data) by exact Hf. apply Hd.
Qed.

End InsertFacts.

Section InitFacts.

Context {Rng : Type}.
Variable E : Externals Rng.
Implicit Types (s : System Rng) (mem : list Particle.t).

Lemma bind_Ok {A B : Type} (m : result A) (k : A -> result B) (b : B) :
  bind m k = Ok b -> exists a, m = Ok a /\ k a = Ok b.
Proof. destruct m; simpl; try discriminate. eauto. Qed.

Lemma store_Ok s p v s' :
  store p v s = Ok s' ->
  exists mem, pMem s = Some mem /\ (p < length mem)%nat /\
              s' = set_pMem (Some (<[p:=v]> mem)) s.
Proof.
  unfold store. destruct (pMem s) as [mem|]; [|discriminate].
  destruct (decide _); [|discriminate]. intros [= <-]. eauto.
Qed.

Lemma load_Ok s p v :
  load s p = Ok v -> exists mem, pMem s = Some mem /\ mem !! p = Some v.
Proof.
  unfold load. destruct (pMem s) as [mem|]; [|discriminate].
  destruct (mem !! p) eqn:Hv; [|discriminate]. intros [= <-]. eauto.
Qed.

(** [initParticle] writes the slot [p] and leaves its two links as they
    were. *)
Lemma initParticle_Ok p t s s' :
  initParticle E p t s = Ok s' ->
  exists mem v v',
    pMem s = Some mem /\ mem !! p = Some v /\
    pMem s' = Some (<[p:=v']> mem) /\
    Particle.prev v' = Particle.prev v /\ Particle.next v' = Particle.next v /\
    pHead s' = pHead s /\ pTail s' = pTail s /\ pFree s' = pFree s /\
    activeParticles s' = activeParticles s /\ same_emitter s s'.
Proof.
  unfold initParticle. intros H.
  apply bind_Ok in H as (old & Hold & H).
  apply load_Ok in Hold as (mem & Hm & Hv).
  repeat match type of H with
         | context [let (_, _) := ?x in _] => destruct x
         | context [match ?x with DISTRIBUTION_NONE => _ | _ => _ end] => destruct x
         | context [if ?x then _ else _] => destruct x
         end.
  all: apply bind_Ok in H as (i & _ & H).
  all: apply bind_Ok in H as (size & _ & H).
  all: repeat match type of H with
         | context [let (_, _) := ?x in _] => destruct x
         end.
  all: apply bind_Ok in H as (color & _ & H).
  all: apply store_Ok in H as (mem' & Hm' & Hlt & ->).
  all: simpl in Hm'; rewrite Hm in Hm'; injection Hm' as <-.
  all: eexists mem, old, _; simpl; repeat split; eauto.
Qed.

End InitFacts.

Section InsertSpecs.

Context {Rng : Type}.
Variable E : Externals Rng.
Implicit Types (s : System Rng) (mem : list Particle.t).

Ltac view :=
  repeat first
    [ rewrite next_alter_set_next by (rewrite ?length_alter; assumption)
    | rewrite prev_alter_set_prev by (rewrite ?length_alter; assumption)
    | rewrite view_alter_keep by (intros; reflexivity)
    | rewrite view_alter_ne by congruence ].

Ltac modify_step :=
  cbn [bind];
  erewrite modify_alter;
  [ | first [eassumption | simpl; reflexivity]
    | rewrite ?length_alter; assumption ];
  cbn [bind].

Ltac links :=
  repeat match goal with
         | |- only_links _ (alter _ _ _) =>
             apply only_links_alter; [intros; reflexivity|]
         end;
  apply only_links_refl.

Lemma pool_head s mem l : pool s mem l -> pHead s = head l.
Proof. intros (_ & Hf & _). eapply seg_head, Hf. Qed.

Lemma insertTop_spec s mem l p :
  pool s mem l -> tail_ok s l -> NoDup l -> p ∉ l -> (p < length mem)%nat ->
  exists s' mem',
    insertTop p s = Ok s' /\ pool s' mem' (l ++ [p]) /\
    tail_ok s' (l ++ [p]) /\ only_links mem mem' /\ untouched s s'.
Proof.
  intros Hpool Ht Hnd Hp Hlt.
  pose proof (pool_head _ _ _ Hpool) as Hh. unfold tail_ok in *.
  destruct Hpool as (Hm & Hf & Hb).
  unfold insertTop. rewrite Hh, Ht.
  destruct (last l) as [tl|] eqn:Hl.
  - assert (Htl : tl ∈ l) by (apply last_Some_elem_of, Hl).
    assert (Hne : tl <> p) by congruence.
    assert (Htlt : (tl < length mem)%nat).
    { apply lookup_lt_is_Some_1. exact (seg_lookup _ _ _ _ _ _ Hf Htl). }
    destruct (head l) as [hd|] eqn:Hhd;
      [|apply head_None in Hhd; subst l; discriminate].
    do 3 modify_step. eexists _, _. split; [reflexivity|].
    split; [split; [reflexivity|split; simpl]
           |split; [simpl; rewrite last_snoc; reflexivity
                   |split; [links|repeat split]]].
    + eapply (seg_insert Particle.next mem _ _ _ l []);
        [rewrite app_nil_r; exact Hf|exact Hnd|..].
      * intros x Hx Hlast. rewrite Hl in Hlast.
        assert (x <> p) by congruence. assert (x <> tl) by congruence. view.
        reflexivity.
      * intros x Hx. inversion Hx.
      * view. reflexivity.
      * intros a Ha. rewrite Hl in Ha. injection Ha as <-. view. reflexivity.
      * rewrite Hl. reflexivity.
    + apply seg_prev_entry with (t := Some p). rewrite reverse_app. simpl.
      eapply (seg_insert Particle.prev mem _ _ _ [] (reverse l));
        [exact Hb|constructor|..].
      * intros x Hx. inversion Hx.
      * intros x Hx. rewrite elem_of_reverse in Hx.
        assert (x <> p) by congruence. view. reflexivity.
      * view. rewrite head_reverse, Hl. reflexivity.
      * intros a Ha. discriminate.
      * reflexivity.
  - apply last_None in Hl. subst l. simpl.
    do 2 modify_step. eexists _, _. split; [reflexivity|].
    split; [split; [reflexivity|split; simpl]
           |split; [reflexivity|split; [links|repeat split]]].
    + split; [reflexivity|].
      destruct (lookup_lt_is_Some_2 mem p Hlt) as [v Hv].
      eexists. rewrite !list_lookup_alter_eq, Hv. simpl. split; reflexivity.
    + split; [reflexivity|].
      destruct (lookup_lt_is_Some_2 mem p Hlt) as [v Hv].
      eexists. rewrite !list_lookup_alter_eq, Hv. simpl. split; reflexivity.
Qed.

Lemma insertBottom_spec s mem l p :
  pool s mem l -> tail_ok s l -> NoDup l -> p ∉ l -> (p < length mem)%nat ->
  exists s' mem',
    insertBottom p s = Ok s' /\ pool s' mem' (p :: l) /\
    tail_ok s' (p :: l) /\ only_links mem mem' /\ untouched s s'.
Proof.
  intros Hpool Ht Hnd Hp Hlt.
  pose proof (pool_head _ _ _ Hpool) as Hh. unfold tail_ok in *.
  destruct Hpool as (Hm & Hf & Hb).
  unfold insertBottom. rewrite Hh, Ht.
  destruct (head l) as [hd|] eqn:Hhd.
  - assert (Hin : hd ∈ l) by (apply head_Some_elem_of, Hhd).
    assert (Hne : hd <> p) by congruence.
    assert (Hhlt : (hd < length mem)%nat).
    { apply lookup_lt_is_Some_1. exact (seg_lookup _ _ _ _ _ _ Hf Hin). }
    destruct (last l) as [tl|] eqn:Hl;
      [|apply last_None in Hl; subst l; discriminate].
    do 3 modify_step. eexists _, _. split; [reflexivity|].
    split; [split; [reflexivity|split; simpl]
           |split; [simpl; rewrite last_cons, Hl; exact Ht
                   |split; [links|repeat split]]].
    + eapply (seg_insert Particle.next mem _ _ _ [] l);
        [exact Hf|constructor|..].
      * intros x Hx. inversion Hx.
      * intros x Hx. assert (x <> p) by congruence. view. reflexivity.
      * view. rewrite Hhd. reflexivity.
      * intros a Ha. discriminate.
      * reflexivity.
    + apply seg_prev_entry with (t := Some tl). rewrite reverse_cons.
      eapply (seg_insert Particle.prev mem _ _ _ (reverse l) []);
        [rewrite app_nil_r; exact Hb|apply NoDup_reverse, Hnd|..].
      * intros x Hx Hlast. rewrite elem_of_reverse in Hx.
        rewrite last_reverse, Hhd in Hlast.
        assert (x <> p) by congruence. assert (x <> hd) by congruence. view.
        reflexivity.
      * intros x Hx. inversion Hx.
      * view. reflexivity.
      * intros a Ha. rewrite last_reverse, Hhd in Ha. injection Ha as <-.
        view. reflexivity.
      * rewrite last_reverse, Hhd. reflexivity.
  - apply head_None in Hhd. subst l. simpl.
    do 2 modify_step. eexists _, _. split; [reflexivity|].
    split; [split; [reflexivity|split; simpl]
           |split; [reflexivity|split; [links|repeat split]]].
    + split; [reflexivity|].
      destruct (lookup_lt_is_Some_2 mem p Hlt) as [v Hv].
      eexists. rewrite !list_lookup_alter_eq, Hv. simpl. split; reflexivity.
    + split; [reflexivity|].
      destruct (lookup_lt_is_Some_2 mem p Hlt) as [v Hv].
      eexists. rewrite !list_lookup_alter_eq, Hv. simpl. split; reflexivity.
Qed.

Lemma insertRandom_spec s mem l p :
  pool s mem l -> NoDup l -> p ∉ l -> (p < length mem)%nat ->
  0 <= activeParticles s ->
  (forall x : nat, Z.of_nat x < activeParticles s -> x ∈ l) ->
  exists s' mem' l',
    insertRandom E p s = Ok s' /\ pool s' mem' l' /\ l' ≡ₚ p :: l /\
    (l <> [] -> pTail s = last l -> pTail s' = last l') /\
    only_links mem mem' /\ pFree s' = pFree s /\
    activeParticles s' = activeParticles s /\ same_emitter s s'.
Proof.
  intros Hpool Hnd Hp Hlt Hact Hall.
  pose proof (pool_head _ _ _ Hpool) as Hh.
  unfold insertRandom. destruct (rng_rand E (rng s)) as [r g]. simpl.
  set (pos := wrap64 r mod (activeParticles s + 1)).
  assert (Hpos : 0 <= pos < activeParticles s + 1)
    by (apply Z.mod_pos_bound; lia).
  destruct (pos =? activeParticles s) eqn:Hcmp.
  - (* before the head *)
    destruct Hpool as (Hm & Hf & Hb). rewrite Hh.
    destruct (head l) as [hd|] eqn:Hhd.
    + assert (Hin : hd ∈ l) by (apply head_Some_elem_of, Hhd).
      assert (Hne : hd <> p) by congruence.
      assert (Hhlt : (hd < length mem)%nat).
      { apply lookup_lt_is_Some_1. exact (seg_lookup _ _ _ _ _ _ Hf Hin). }
      destruct (last l) as [tl|] eqn:Hl;
        [|apply last_None in Hl; subst l; discriminate].
      do 3 modify_step. eexists _, _, (p :: l). split; [reflexivity|].
      split; [split; [reflexivity|split; simpl]
             |split; [reflexivity|split;
                [intros _ Ht; simpl; rewrite last_cons, Hl; exact Ht
                |split; [links|repeat split]]]].
      * eapply (seg_insert Particle.next mem _ _ _ [] l);
          [exact Hf|constructor|..].
        -- intros x Hx. inversion Hx.
        -- intros x Hx. assert (x <> p) by congruence. view. reflexivity.
        -- view. rewrite Hhd. reflexivity.
        -- intros a Ha. discriminate.
        -- reflexivity.
      * apply seg_prev_entry with (t := Some tl). rewrite reverse_cons.
        eapply (seg_insert Particle.prev mem _ _ _ (reverse l) []);
          [rewrite app_nil_r; exact Hb|apply NoDup_reverse, Hnd|..].
        -- intros x Hx Hlast. rewrite elem_of_reverse in Hx.
           rewrite last_reverse, Hhd in Hlast.
           assert (x <> p) by congruence. assert (x <> hd) by congruence. view.
           reflexivity.
        -- intros x Hx. inversion Hx.
        -- view. reflexivity.
        -- intros a Ha. rewrite last_reverse, Hhd in Ha. injection Ha as <-.
           view. reflexivity.
        -- rewrite last_reverse, Hhd. reflexivity.
    + apply head_None in Hhd. subst l. simpl.
      do 2 modify_step. eexists _, _, [p]. split; [reflexivity|].
      split; [split; [reflexivity|split; simpl]
             |split; [reflexivity|split;
                [intros Hne; congruence|split; [links|repeat split]]]].
      * split; [reflexivity|].
        destruct (lookup_lt_is_Some_2 mem p Hlt) as [v Hv].
        eexists. rewrite !list_lookup_alter_eq, Hv. simpl. split; reflexivity.
      * split; [reflexivity|].
        destruct (lookup_lt_is_Some_2 mem p Hlt) as [v Hv].
        eexists. rewrite !list_lookup_alter_eq, Hv. simpl. split; reflexivity.
  - (* after the slot [pos] *)
    apply Z.eqb_neq in Hcmp.
    assert (HpA : Z.to_nat pos ∈ l) by (apply Hall; lia).
    apply list_elem_of_split in HpA as (k1 & k2 & Hsplit).
    set (pA := Z.to_nat pos) in *. subst l.
    destruct (pool_middle _ _ _ _ _ Hpool) as
      (a & Ha & Hanext & Haprev & Hf1 & Hf2 & Hb1 & Hb2).
    destruct Hpool as (Hm & Hf & Hb).
    assert (HpAp : pA <> p).
    { intros ->. apply Hp. apply elem_of_app. right. apply list_elem_of_here. }
    assert (HpAlt : (pA < length mem)%nat) by (eapply lookup_lt_Some, Ha).
    apply not_elem_of_app in Hp as (Hpk1 & Hpk2).
    apply not_elem_of_cons in Hpk2 as (_ & Hpk2).
    pose proof Hnd as Hnd0.
    apply NoDup_app in Hnd as (Hnd1 & Hdisj & Hnd2).
    apply NoDup_cons in Hnd2 as (HpAk2 & Hnd2).
    assert (HpAk1 : pA ∉ k1).
    { intros Hin. apply (Hdisj pA Hin). apply list_elem_of_here. }
    assert (Hdisj' : forall x, x ∈ k1 -> x ∉ k2).
    { intros x Hin Hin2. apply (Hdisj x Hin). apply list_elem_of_further, Hin2. }
    rewrite (load_Some (set_rng g s) mem pA a Hm Ha). simpl. modify_step.
    assert (Hperm : k1 ++ pA :: p :: k2 ≡ₚ p :: k1 ++ pA :: k2).
    { change (k1 ++ pA :: p :: k2) with (k1 ++ [pA] ++ p :: k2).
      rewrite app_assoc. rewrite <- Permutation_middle.
      rewrite <- app_assoc. reflexivity. }
    assert (Hfwd : forall mem',
      (forall x, x <> p -> x <> pA ->
         Particle.next <$> mem' !! x = Particle.next <$> mem !! x) ->
      Particle.next <$> mem' !! pA = Some (Some p) ->
      Particle.next <$> mem' !! p = Some (head k2) ->
      seg Particle.next mem' (pHead s) (k1 ++ pA :: p :: k2) None).
    { intros mem' Ho HA HP.
      change (k1 ++ pA :: p :: k2) with (k1 ++ [pA] ++ p :: k2).
      rewrite app_assoc.
      eapply (seg_insert Particle.next mem _ _ _ (k1 ++ [pA]) k2).
      - rewrite <- app_assoc. exact Hf.
      - apply NoDup_app. split; [exact Hnd1|]. split; [|apply NoDup_singleton].
        intros x Hx Hx'. apply list_elem_of_singleton in Hx'. congruence.
      - intros x Hx Hlast. rewrite last_snoc in Hlast. apply Ho; [|congruence].
        intros ->. apply elem_of_app in Hx as [Hx|Hx]; [auto|].
        apply list_elem_of_singleton in Hx. congruence.
      - intros x Hx. apply Ho; intros ->; auto.
      - exact HP.
      - intros b Hb'. rewrite last_snoc in Hb'. injection Hb' as <-. exact HA.
      - rewrite last_snoc. reflexivity. }
    assert (Hbwd : forall mem' t',
      (forall x, x <> p -> Some x <> head k2 ->
         Particle.prev <$> mem' !! x = Particle.prev <$> mem !! x) ->
      (forall b, head k2 = Some b ->
         Particle.prev <$> mem' !! b = Some (Some p)) ->
      Particle.prev <$> mem' !! p = Some (Some pA) ->
      t' = match head k2 with
           | Some _ => last (k1 ++ pA :: k2)
           | None => Some p
           end ->
      seg Particle.prev mem' (last (k1 ++ pA :: p :: k2))
        (reverse (k1 ++ pA :: p :: k2)) None /\
      t' = last (k1 ++ pA :: p :: k2)).
    { intros mem' t' Ho HB HP Ht'.
      assert (Hseg : seg Particle.prev mem' t'
                       (reverse (k1 ++ pA :: p :: k2)) None).
      { rewrite reverse_app, !reverse_cons, <- !app_assoc. simpl.
        eapply (seg_insert Particle.prev mem _ _ _ (reverse k2)
                  (pA :: reverse k1)).
        - rewrite reverse_app, reverse_cons, <- app_assoc in Hb. exact Hb.
        - apply NoDup_reverse, Hnd2.
        - intros x Hx Hlast. rewrite elem_of_reverse in Hx.
          rewrite last_reverse in Hlast. apply Ho; congruence.
        - intros x Hx. apply elem_of_cons in Hx as [->|Hx].
          + apply Ho; [congruence|]. intros Heq.
            apply HpAk2. apply head_Some_elem_of. congruence.
          + rewrite elem_of_reverse in Hx. apply Ho; [congruence|].
            intros Heq. apply (Hdisj' x Hx). apply head_Some_elem_of.
            congruence.
        - exact HP.
        - intros b Hb'. rewrite last_reverse in Hb'. apply HB, Hb'.
        - rewrite last_reverse. exact Ht'. }
      apply seg_prev_entry in Hseg as [-> Hseg]. auto. }
    destruct (Particle.next a) as [b|] eqn:HpB.
    + assert (Hbk2 : b ∈ k2) by (apply head_Some_elem_of; congruence).
      assert (Hbp : b <> p) by congruence.
      assert (HbA : b <> pA) by congruence.
      assert (Hblt : (b < length mem)%nat).
      { apply lookup_lt_is_Some_1. eapply (seg_lookup _ _ _ _ _ _ Hf).
        apply elem_of_app. right. apply list_elem_of_further, Hbk2. }
      do 3 modify_step. eexists _, _, (k1 ++ pA :: p :: k2).
      split; [reflexivity|].
      edestruct Hbwd as [Hseg Hlast]; [| | |reflexivity|].
      4:{ split; [split; [reflexivity|split; simpl; [apply Hfwd|exact Hseg]]|].
          - intros x ? ?. view. reflexivity.
          - view. reflexivity.
          - view. rewrite Hanext. reflexivity.
          - split; [exact Hperm|]. split.
            + intros _ Ht. simpl. rewrite Ht. rewrite <- Hanext in Hlast.
              exact Hlast.
            + split; [links|repeat split]. }
      * intros x Hx1 Hx2. rewrite <- Hanext in Hx2.
        assert (x <> b) by congruence. view. reflexivity.
      * intros b' Hb'. rewrite <- Hanext in Hb'. injection Hb' as <-.
        view. reflexivity.
      * view. reflexivity.
    + do 2 modify_step. eexists _, _, (k1 ++ pA :: p :: k2).
      split; [reflexivity|].
      edestruct Hbwd as [Hseg Hlast]; [| | |reflexivity|].
      4:{ split; [split; [reflexivity|split; simpl; [apply Hfwd|exact Hseg]]|].
          - intros x ? ?. view. reflexivity.
          - view. reflexivity.
          - view. rewrite Hanext. reflexivity.
          - split; [exact Hperm|]. split.
            + intros _ Ht. simpl. rewrite <- Hanext in Hlast. exact Hlast.
            + split; [links|repeat split]. }
      * intros x Hx1 Hx2. view. reflexivity.
      * intros b' Hb'. rewrite <- Hanext in Hb'. discriminate.
      * view. reflexivity.
Qed.

End InsertSpecs.

Section InvFacts.

Context {Rng : Type}.
Variable E : Externals Rng.
Implicit Types (s : System Rng) (mem : list Particle.t).

Lemma pool_inv_list s mem l :
  pool s mem l -> l ≡ₚ seq 0 (pFree s) ->
  NoDup l /\ forall x, x ∈ l <-> (x < pFree s)%nat.
Proof.
  intros _ Hperm. split.
  - rewrite Hperm. apply NoDup_seq.
  - intros x. rewrite Hperm, elem_of_seq. lia.
Qed.

(** Changing the data of a slot keeps the pool. *)
Lemma pool_store_data s mem l p v v' :
  pool s mem l -> mem !! p = Some v ->
  Particle.prev v' = Particle.prev v -> Particle.next v' = Particle.next v ->
  pool (set_pMem (Some (<[p:=v']> mem)) s) (<[p:=v']> mem) l.
Proof.
  intros (Hm & Hf & Hb) Hv Hp Hn. split; [reflexivity|]. split; simpl.
  - eapply seg_keep; eauto.
  - eapply seg_keep; eauto.
Qed.

Lemma pool_next_in s mem l x v :
  pool s mem l -> x ∈ l -> mem !! x = Some v ->
  forall y, Particle.next v = Some y -> y ∈ l.
Proof.
  intros Hpool Hx Hv y Hy.
  apply list_elem_of_split in Hx as (l1 & l2 & ->).
  destruct (pool_middle _ _ _ _ _ Hpool) as (w & Hw & Hnext & _).
  rewrite Hv in Hw. injection Hw as <-.
  apply elem_of_app. right. apply list_elem_of_further.
  apply head_Some_elem_of. congruence.
Qed.

Lemma rename_perm (l1 l2 : list nat) p q :
  l1 ++ p :: l2 ≡ₚ seq 0 (S q) ->
  rename q p <$> (l1 ++ l2) ≡ₚ seq 0 q.
Proof.
  intros Hperm.
  assert (Hnd : NoDup (l1 ++ p :: l2)) by (rewrite Hperm; apply NoDup_seq).
  assert (Hin : forall x, x ∈ l1 ++ p :: l2 <-> (x <= q)%nat).
  { intros x. rewrite Hperm, elem_of_seq. lia. }
  assert (Hnd' : NoDup (l1 ++ l2) /\ p ∉ l1 ++ l2).
  { apply NoDup_app in Hnd as (H1 & Hd & H2).
    apply NoDup_cons in H2 as (Hp2 & H2). split.
    - apply NoDup_app. split; [exact H1|]. split; [|exact H2].
      intros x Hx Hx2. apply (Hd x Hx). apply list_elem_of_further, Hx2.
    - rewrite not_elem_of_app. split; [|exact Hp2].
      intros Hx. apply (Hd p Hx). apply list_elem_of_here. }
  destruct Hnd' as [Hnd' Hp].
  assert (Hin' : forall x, x ∈ l1 ++ l2 <-> (x <= q)%nat /\ x <> p).
  { intros x. rewrite <- Hin, !elem_of_app, elem_of_cons.
    rewrite elem_of_app in Hp. split; [|tauto].
    intros Hx. split; [tauto|]. intros ->. tauto. }
  apply NoDup_Permutation.
  - apply NoDup_fmap_2_strong; [|exact Hnd'].
    intros x y Hx Hy. unfold rename.
    apply Hin' in Hx. apply Hin' in Hy.
    repeat case_decide; intros; subst; tauto.
  - apply NoDup_seq.
  - intros y. rewrite list_elem_of_fmap, elem_of_seq. split.
    + intros (x & -> & Hx). apply Hin' in Hx. unfold rename.
      case_decide; subst.
      * assert (p <= q)%nat by (apply Hin, elem_of_app; right; left). lia.
      * lia.
    + intros Hy. destruct (decide (y = p)) as [->|Hne].
      * exists q. unfold rename. rewrite decide_True by reflexivity.
        split; [reflexivity|]. apply Hin'. lia.
      * exists y. unfold rename. rewrite decide_False by lia.
        split; [reflexivity|]. apply Hin'. lia.
Qed.

Lemma wrap32_small z : 0 <= z < 2 ^ 32 -> wrap32 z = z.
Proof. intros H. unfold wrap32. apply Z.mod_small. exact H. Qed.

(** [removeParticle] on a slot of the active list keeps the invariant, and
    what it returns is [nullptr] or a slot of the new list. *)
Lemma removeParticle_inv s p :
  pool_inv s -> (p < pFree s)%nat ->
  exists ret s',
    removeParticle p s = Ok (ret, s') /\ pool_inv s' /\ same_emitter s s' /\
    rng s' = rng s /\ S (pFree s') = pFree s /\
    (forall x, ret = Some x -> (x < pFree s')%nat).
Proof.
  intros (mem & l & Hpool & Hperm & Hle & Hlen & Hmax & Hact & Htail) Hp.
  destruct (pool_inv_list _ _ _ Hpool Hperm) as [Hnd Hin].
  assert (Hpl : p ∈ l) by (apply Hin, Hp).
  apply list_elem_of_split in Hpl as (l1 & l2 & ->).
  destruct (pFree s) as [|q] eqn:Hfree; [lia|].
  assert (Hq : q ∈ l1 ++ p :: l2) by (apply Hin; lia).
  destruct (removeParticle_spec s mem l1 p l2 q Hpool Hnd Hfree Hq)
    as (s' & mem' & Heq & Hpool' & _ & Hlen' & Hfree' & Hact' & Hrng & Hem & Ht').
  pose proof (rename_perm _ _ _ _ Hperm) as Hperm'.
  exists (head (rename q p <$> l2)), s'.
  split; [exact Heq|]. split.
  { exists mem', (rename q p <$> (l1 ++ l2)).
    destruct Hem as (? & Hmode & Hmx & ?).
    split; [exact Hpool'|]. rewrite Hfree'. split; [exact Hperm'|].
    split; [lia|]. split; [rewrite Hlen', Hmx; exact Hlen|].
    split; [rewrite Hmx; exact Hmax|].
    split; [rewrite Hact', Hact; rewrite wrap32_small; lia|].
    intros Hm. apply Ht', Htail. congruence. }
  split; [exact Hem|]. split; [exact Hrng|]. split; [congruence|].
  intros x Hx. rewrite Hfree'.
  assert (x ∈ rename q p <$> (l1 ++ l2)).
  { rewrite fmap_app, elem_of_app. right. apply head_Some_elem_of, Hx. }
  rewrite Hperm', elem_of_seq in H. lia.
Qed.

Lemma pool_set_inv s s' :
  pMem s' = pMem s -> pHead s' = pHead s -> pTail s' = pTail s ->
  pFree s' = pFree s -> maxParticles s' = maxParticles s ->
  activeParticles s' = activeParticles s -> insertMode s' = insertMode s ->
  pool_inv s -> pool_inv s'.
Proof.
  intros Hm Hh Ht Hf Hmx Ha Hmode (mem & l & (Hp1 & Hp2 & Hp3) & H).
  exists mem, l. unfold pool, tail_ok in *.
  rewrite Hm, Hh, Ht, Hf, Hmx, Ha, Hmode. auto.
Qed.

(** [addParticle] keeps the invariant. *)
Lemma addParticle_inv t s s' :
  pool_inv s -> addParticle E t s = Ok s' ->
  pool_inv s' /\ same_emitter s s' /\
  (isFull s = true -> s' = s) /\
  (isFull s = false -> pFree s' = S (pFree s)).
Proof.
  intros Hinv. pose proof Hinv as Hinv0.
  destruct Hinv as (mem & l & Hpool & Hperm & Hle & Hlen & Hmax & Hact & Htail).
  unfold addParticle. destruct (isFull s) eqn:Hfull.
  { intros [= <-]. split; [exact Hinv0|]. split; [apply same_emitter_refl|].
    split; [reflexivity|discriminate]. }
  unfold isFull in Hfull. apply Z.eqb_neq in Hfull.
  assert (Hlt : (pFree s < length mem)%nat) by lia.
  intros H. apply bind_Ok in H as (s2 & Hinit & H).
  apply bind_Ok in H as (s3 & Hins & H). injection H as <-.
  apply initParticle_Ok in Hinit
    as (mem0 & v & v' & Hm0 & Hv & Hm2 & Hpv & Hnx & Hh2 & Ht2 & Hf2 & Ha2 & Hem2).
  destruct (pool_inv_list _ _ _ Hpool Hperm) as [Hnd Hin].
  assert (Hp : pFree s ∉ l) by (rewrite Hin; lia).
  simpl in Hm0, Hh2, Ht2, Hf2, Ha2.
  assert (Hmm : mem0 = mem) by (destruct Hpool as (Hm & _); congruence).
  subst mem0.
  assert (Hpool2 : pool s2 (<[pFree s:=v']> mem) l).
  { destruct Hpool as (Hm & Hfw & Hbw). split; [exact Hm2|].
    rewrite Hh2. split; eapply seg_keep; eauto. }
  assert (Hlt2 : (pFree s < length (<[pFree s:=v']> mem))%nat)
    by (rewrite length_insert; exact Hlt).
  assert (Hem2' : same_emitter s s2).
  { destruct Hem2 as (? & ? & ? & ? & ? & ? & ? & ? & ? & ?).
    repeat split; assumption. }
  pose proof Hem2' as (_ & Hmode2 & Hmx2 & _).
  assert (Hfin : forall s3 mem3 l3,
    pool s3 mem3 l3 -> l3 ≡ₚ pFree s :: l ->
    (insertMode s <> INSERT_MODE_RANDOM -> tail_ok s3 l3) ->
    length mem3 = length mem -> pFree s3 = S (pFree s) ->
    activeParticles s3 = activeParticles s -> same_emitter s2 s3 ->
    pool_inv (set_activeParticles (wrap32 (activeParticles s3 + 1)) s3) /\
    same_emitter s (set_activeParticles (wrap32 (activeParticles s3 + 1)) s3) /\
    (false = true -> set_activeParticles (wrap32 (activeParticles s3 + 1)) s3 = s) /\
    (false = false ->
     pFree (set_activeParticles (wrap32 (activeParticles s3 + 1)) s3) =
     S (pFree s))).
  { intros s3' mem3 l3 Hp3 Hperm3 Ht3 Hlen3 Hf3 Ha3 Hem3.
    assert (Hem : same_emitter s s3') by (eapply same_emitter_trans; eauto).
    pose proof Hem as (_ & Hmode3 & Hmx3 & _).
    split.
    { exists mem3, l3. split; [exact Hp3|]. simpl. rewrite Hf3.
      split.
      { rewrite Hperm3, Hperm, seq_S. simpl.
        apply Permutation_cons_append. }
      split; [lia|]. split; [congruence|]. split; [congruence|].
      split; [rewrite Ha3, wrap32_small; lia|].
      intros Hm. apply Ht3. congruence. }
    split; [exact Hem|]. split; [discriminate|]. intros _. exact Hf3. }
  destruct (insertMode s2) eqn:Hmode.
  - destruct (insertTop_spec s2 _ l (pFree s) Hpool2) as
      (s3' & mem3 & Heq & Hp3 & Ht3 & Hl3 & Hu3); auto.
    { unfold tail_ok. rewrite Ht2. apply Htail. congruence. }
    rewrite Heq in Hins. injection Hins as <-.
    destruct Hu3 as (Hf3 & Ha3 & _ & Hem3).
    eapply Hfin; eauto.
    + symmetry. apply Permutation_cons_append.
    + destruct Hl3 as [-> _]. apply length_insert.
    + congruence.
    + congruence.
  - destruct (insertBottom_spec s2 _ l (pFree s) Hpool2) as
      (s3' & mem3 & Heq & Hp3 & Ht3 & Hl3 & Hu3); auto.
    { unfold tail_ok. rewrite Ht2. apply Htail. congruence. }
    rewrite Heq in Hins. injection Hins as <-.
    destruct Hu3 as (Hf3 & Ha3 & _ & Hem3).
    eapply Hfin; eauto.
    + destruct Hl3 as [-> _]. apply length_insert.
    + congruence.
    + congruence.
  - destruct (insertRandom_spec E s2 _ l (pFree s) Hpool2) as
      (s3' & mem3 & l3 & Heq & Hp3 & Hperm3 & _ & Hl3 & Hf3 & Ha3 & Hem3); auto.
    { rewrite Ha2. lia. }
    { intros x Hx. apply Hin. rewrite Ha2 in Hx. lia. }
    rewrite Heq in Hins. injection Hins as <-.
    eapply Hfin; eauto.
    + intros Hm. congruence.
    + destruct Hl3 as [-> _]. apply length_insert.
    + congruence.
    + congruence.
Qed.

End InvFacts.

Section UpdateFacts.

Context {Rng : Type}.
Variable E : Externals Rng.
Implicit Types (s : System Rng) (mem : list Particle.t).

Lemma integrate_links dt c v v' :
  integrate E dt c v = Ok v' ->
  Particle.prev v' = Particle.prev v /\ Particle.next v' = Particle.next v /\
  Particle.life v' = Particle.life v.
Proof.
  unfold integrate. intros H.
  apply bind_Ok in H as (size & _ & H).
  apply bind_Ok in H as (color & _ & H).
  apply bind_Ok in H as (quad & _ & H).
  injection H as <-. auto.
Qed.

(** Writing the data of a slot keeps the invariant. *)
Lemma store_data_inv s p v v' s' :
  pool_inv s -> load s p = Ok v ->
  Particle.prev v' = Particle.prev v -> Particle.next v' = Particle.next v ->
  store p v' s = Ok s' ->
  pool_inv s' /\ same_emitter s s' /\ pFree s' = pFree s /\ rng s' = rng s /\
  pHead s' = pHead s /\ load s' p = Ok v'.
Proof.
  intros (mem & l & Hpool & Hrest) Hload Hp Hn Hstore.
  apply load_Ok in Hload as (mem0 & Hm0 & Hv).
  apply store_Ok in Hstore as (mem1 & Hm1 & Hlt & ->).
  assert (mem0 = mem) by (destruct Hpool as (Hm & _); congruence).
  assert (mem1 = mem) by congruence. subst mem0 mem1.
  split.
  - exists (<[p:=v']> mem), l.
    split; [eapply pool_store_data; eauto|].
    simpl. rewrite length_insert. exact Hrest.
  - split; [repeat split|]. split; [reflexivity|]. split; [reflexivity|].
    split; [reflexivity|]. unfold load. simpl.
    rewrite list_lookup_insert_eq by exact Hlt. reflexivity.
Qed.

Lemma modify_Ok s p f s' :
  modify p f s = Ok s' -> exists v, load s p = Ok v /\ store p (f v) s = Ok s'.
Proof. unfold modify. intros H. apply bind_Ok in H. exact H. Qed.

(** The slot after a slot of the list is a slot of the list. *)
Lemma inv_next_in s p v x :
  pool_inv s -> (p < pFree s)%nat -> load s p = Ok v ->
  Particle.next v = Some x -> (x < pFree s)%nat.
Proof.
  intros (mem & l & Hpool & Hperm & _) Hp Hload Hx.
  apply load_Ok in Hload as (mem0 & Hm0 & Hv).
  assert (mem0 = mem) by (destruct Hpool as (Hm & _); congruence). subst mem0.
  destruct (pool_inv_list _ _ _ Hpool Hperm) as [_ Hin].
  apply Hin. eapply pool_next_in; eauto. apply Hin, Hp.
Qed.

(** The traversal of [update] keeps the invariant. *)
Lemma update_particles_inv fuel dt cur s s' :
  pool_inv s -> (forall x, cur = Some x -> (x < pFree s)%nat) ->
  update_particles E fuel dt cur s = Ok s' ->
  pool_inv s' /\ same_emitter s s' /\ rng s' = rng s.
Proof.
  revert cur s. induction fuel as [|fuel IH]; intros cur s Hinv Hcur.
  - destruct cur; simpl; [discriminate|]. intros [= <-].
    split; [exact Hinv|]. split; [apply same_emitter_refl|reflexivity].
  - destruct cur as [p|]; simpl.
    2:{ intros [= <-]. split; [exact Hinv|].
        split; [apply same_emitter_refl|reflexivity]. }
    assert (Hp : (p < pFree s)%nat) by (apply Hcur; reflexivity).
    intros H. apply bind_Ok in H as (s1 & Hmod & H).
    apply modify_Ok in Hmod as (v0 & Hload0 & Hstore0).
    destruct (store_data_inv s p v0
                (Particle.set_life (fsub (Particle.life v0) dt) v0) s1
                Hinv Hload0 eq_refl eq_refl Hstore0)
      as (Hinv1 & Hem1 & Hf1 & Hr1 & Hh1 & Hload1).
    rewrite Hload1 in H. cbn [bind] in H.
    destruct (fle _ f0).
    + apply bind_Ok in H as ([ret s2] & Hrem & H). simpl in H.
      destruct (removeParticle_inv s1 p Hinv1) as
        (ret' & s2' & Heq & Hinv2 & Hem2 & Hr2 & Hf2 & Hret); [lia|].
      rewrite Heq in Hrem. injection Hrem as <- <-.
      destruct (IH ret' s2' Hinv2 Hret H) as (Hinv' & Hem' & Hr').
      split; [exact Hinv'|].
      split; [eauto using same_emitter_trans|congruence].
    + apply bind_Ok in H as (v2 & Hint & H).
      apply bind_Ok in H as (s2 & Hstore2 & H).
      apply integrate_links in Hint as (Hpv & Hnx & _).
      destruct (store_data_inv s1 p _ v2 s2 Hinv1 Hload1 Hpv Hnx Hstore2)
        as (Hinv2 & Hem2 & Hf2 & Hr2 & Hh2 & Hload2).
      rewrite Hload2 in H. cbn [bind] in H.
      destruct (IH (Particle.next v2) s2 Hinv2) as (Hinv' & Hem' & Hr'); auto.
      { intros x Hx. eapply inv_next_in; eauto. lia. }
      split; [exact Hinv'|].
      split; [eauto using same_emitter_trans|congruence].
Qed.

Lemma emit_loop_inv num s s' :
  pool_inv s -> emit_loop E num s = Ok s' -> pool_inv s' /\ same_emitter s s'.
Proof.
  revert s. induction num as [|num IH]; intros s Hinv; simpl.
  - intros [= <-]. split; [exact Hinv|apply same_emitter_refl].
  - intros H. apply bind_Ok in H as (s1 & Hadd & H).
    destruct (addParticle_inv E _ _ _ Hinv Hadd) as (Hinv1 & Hem1 & _).
    destruct (IH s1 Hinv1 H) as (Hinv' & Hem').
    split; [exact Hinv'|eauto using same_emitter_trans].
Qed.

Lemma emit_inv num s s' :
  pool_inv s -> emit E num s = Ok s' -> pool_inv s' /\ same_emitter s s'.
Proof.
  intros Hinv. unfold emit. destruct (negb (active s)).
  - intros [= <-]. split; [exact Hinv|apply same_emitter_refl].
  - apply emit_loop_inv, Hinv.
Qed.




End UpdateFacts.

Section RunFacts.

Context {Rng : Type}.
Variable E : Externals Rng.
Implicit Types (s : System Rng) (mem : list Particle.t).

Lemma setBufferSize_Ok size s s' :
  setBufferSize E size s = Ok s' ->
  size <> 0 /\ size <= MAX_PARTICLES E /\ allocates E size = true /\
  s' = mkSystem (Some (replicate (Z.to_nat size) Particle.blank)) 0%nat None
         None (active s) (insertMode s) size 0 (emissionRate s) f0
         (position s) (prevPosition s) (lifetime s) (lifetime s) (params s)
         (rng s).
Proof.
  unfold setBufferSize, createBuffers.
  destruct (size =? 0) eqn:H0; [discriminate|]. apply Z.eqb_neq in H0.
  destruct (_ <? _) eqn:H1; [discriminate|]. apply Z.ltb_ge in H1.
  destruct (allocates E size); [|discriminate].
  cbn [orb bind]. intros [= <-]. repeat split; assumption.
Qed.

Lemma setBufferSize_inv size s s' :
  0 <= size < 2 ^ 32 -> setBufferSize E size s = Ok s' ->
  pool_inv s' /\ tail_ok s' [] /\ insertMode s' = insertMode s.
Proof.
  intros Hsize H. apply setBufferSize_Ok in H as (H0 & _ & _ & ->).
  split; [|split; reflexivity].
  exists (replicate (Z.to_nat size) Particle.blank), [].
  split; [repeat split|]. simpl.
  split; [reflexivity|]. split; [lia|].
  rewrite length_replicate. split; [lia|]. split; [lia|].
  split; [reflexivity|]. intros _. reflexivity.
Qed.

Lemma constructor_inv size g s :
  0 <= size < 2 ^ 32 -> ParticleSystem E size g = Ok s ->
  pool_inv s /\ tail_ok s [] /\ activeParticles s = 0 /\
  maxParticles s = size /\ pFree s = 0%nat /\ pHead s = None.
Proof.
  intros Hsize. unfold ParticleSystem.
  destruct (_ || _); [discriminate|]. intros H.
  pose proof (setBufferSize_inv _ _ _ Hsize H) as (H1 & H2 & _).
  split; [exact H1|]. split; [exact H2|].
  apply setBufferSize_Ok in H as (_ & _ & _ & ->). repeat split.
Qed.



Lemma exec_Exception fuel c s msg :
  exec E fuel c s = Exception msg ->
  (exists size, c = CallSetBufferSize size) \/
  (exists rate, c = CallSetEmissionRate rate) \/
  (exists dt, c = CallUpdate dt) \/ (exists num, c = CallEmit num).
Proof. destruct c; simpl; try discriminate; eauto 10. Qed.


End RunFacts.

Section FrameFacts.

Context {Rng : Type}.
Variable E : Externals Rng.
Implicit Types (s : System Rng) (mem : list Particle.t).

Lemma same_scheduler_refl s : same_scheduler s s.
Proof. split; [apply same_emitter_refl|tauto]. Qed.

Lemma same_scheduler_trans s1 s2 s3 :
  same_scheduler s1 s2 -> same_scheduler s2 s3 -> same_scheduler s1 s3.
Proof.
  intros [H1 H1'] [H2 H2']. split; [eapply same_emitter_trans; eauto|tauto].
Qed.

Lemma store_frame p v s s' : store p v s = Ok s' -> same_scheduler s s'.
Proof.
  intros H. apply store_Ok in H as (mem & Hm & _ & ->).
  split; [repeat split|]. simpl. rewrite Hm. split; discriminate.
Qed.

Lemma modify_frame p f s s' : modify p f s = Ok s' -> same_scheduler s s'.
Proof.
  intros H. apply modify_Ok in H as (v & _ & H). eapply store_frame, H.
Qed.

Ltac frame_step :=
  match goal with
  | H : bind _ _ = Ok _ |- _ =>
      let x := fresh "x" in let Hx := fresh "Hx" in
      apply bind_Ok in H as (x & Hx & H)
  | H : modify _ _ ?s = Ok ?s' |- _ => apply modify_frame in H
  | H : store _ _ ?s = Ok ?s' |- _ => apply store_frame in H
  | H : Ok _ = Ok _ |- _ => injection H as H; try subst
  | H : Undefined = Ok _ |- _ => discriminate H
  | H : match ?x with Some _ => _ | None => _ end = Ok _ |- _ =>
      destruct x eqn:?
  | H : match ?x with O => _ | S _ => _ end = Ok _ |- _ => destruct x eqn:?
  | H : match ?x with left _ => _ | right _ => _ end = Ok _ |- _ => destruct x
  | H : (if ?x then _ else _) = Ok _ |- _ => destruct x eqn:?
  end.

Ltac frame_close :=
  repeat match goal with
         | H : same_scheduler ?a ?b |- same_scheduler ?a _ =>
             apply (same_scheduler_trans a b); [exact H|]; clear H
         end;
  first [apply same_scheduler_refl | split; [repeat split|simpl; tauto]].

Lemma removeParticle_frame p s r :
  removeParticle p s = Ok r -> same_scheduler s (snd r).
Proof.
  unfold removeParticle. intros H. repeat frame_step; simpl.
  all: repeat match goal with
         | H : same_scheduler ?a ?b |- _ =>
             destruct H as [(? & ? & ? & ? & ? & ? & ? & ? & ? & ?) ?]
         end; simpl in *.
  all: split; [repeat split; simpl; congruence|simpl; tauto].
Qed.

Ltac frame_finish :=
  simpl;
  repeat match goal with
         | H : same_scheduler ?a ?b |- _ =>
             destruct H as [(? & ? & ? & ? & ? & ? & ? & ? & ? & ?) ?]
         end;
  simpl in *;
  split; [repeat split; simpl; congruence|simpl; tauto].

Lemma insertTop_frame p s s' : insertTop p s = Ok s' -> same_scheduler s s'.
Proof. unfold insertTop. intros H. repeat frame_step; frame_finish. Qed.

Lemma insertBottom_frame p s s' :
  insertBottom p s = Ok s' -> same_scheduler s s'.
Proof. unfold insertBottom. intros H. repeat frame_step; frame_finish. Qed.

Lemma insertRandom_frame p s s' :
  insertRandom E p s = Ok s' -> same_scheduler s s'.
Proof.
  unfold insertRandom. destruct (rng_rand E (rng s)) as [r g]. intros H.
  repeat frame_step; frame_finish.
Qed.

Lemma initParticle_frame p t s s' :
  initParticle E p t s = Ok s' -> same_scheduler s s'.
Proof.
  intros H. apply initParticle_Ok in H
    as (mem & v & v' & Hm & _ & Hm' & _ & _ & _ & _ & _ & _ & Hem).
  split; [exact Hem|]. rewrite Hm, Hm'. split; discriminate.
Qed.

Lemma addParticle_frame t s s' :
  addParticle E t s = Ok s' -> same_scheduler s s'.
Proof.
  unfold addParticle. intros H.
  destruct (isFull s); [injection H as <-; apply same_scheduler_refl|].
  apply bind_Ok in H as (s1 & H1 & H). apply bind_Ok in H as (s2 & H2 & H).
  injection H as <-. apply initParticle_frame in H1.
  assert (H3 : same_scheduler s1 s2).
  { destruct (insertMode s1);
      eauto using insertTop_frame, insertBottom_frame, insertRandom_frame. }
  frame_finish.
Qed.

Lemma update_particles_frame fuel dt cur s s' :
  update_particles E fuel dt cur s = Ok s' -> same_scheduler s s'.
Proof.
  revert cur s. induction fuel as [|fuel IH]; intros cur s; simpl.
  - destruct cur; [discriminate|]. intros [= <-]. apply same_scheduler_refl.
  - destruct cur as [p|]; [|intros [= <-]; apply same_scheduler_refl].
    intros H. apply bind_Ok in H as (s1 & H1 & H). apply modify_frame in H1.
    apply bind_Ok in H as (v & _ & H). destruct (fle _ _).
    + apply bind_Ok in H as (r & Hr & H). apply removeParticle_frame in Hr.
      apply IH in H. eauto using same_scheduler_trans.
    + apply bind_Ok in H as (v' & _ & H). apply bind_Ok in H as (s2 & H2 & H).
      apply store_frame in H2. apply bind_Ok in H as (v'' & _ & H).
      apply IH in H. eauto using same_scheduler_trans.
Qed.

(** The loop of the scheduler changes the pool, the generator and
    [emitCounter] only. *)
Lemma emit_pending_frame fuel rate total s r :
  emit_pending E fuel rate total s = Ok r ->
  same_scheduler (set_emitCounter (emitCounter (fst r)) s) (fst r).
Proof.
  revert s r. induction fuel as [|fuel IH]; intros s r; simpl.
  - destruct (fgt _ _); [discriminate|]. intros [= <-]. simpl.
    split; [repeat split|simpl; tauto].
  - destruct (fgt _ _);
      [|intros [= <-]; simpl; split; [repeat split|simpl; tauto]].
    intros H. apply bind_Ok in H as (s1 & H1 & H).
    apply bind_Ok in H as (r1 & H2 & H). injection H as <-. simpl.
    apply addParticle_frame in H1. apply IH in H2. frame_finish.
Qed.

End FrameFacts.

(** ** binary32 facts *)

Section FloatFacts.

Lemma valid_finite s m e :
  valid_float (S754_finite s m e) = true ->
  fexp prec emax (Zpos (digits2_pos m) + e) = e /\ e <= emax - prec.
Proof.
  unfold valid_float, valid_binary, bounded, canonical_mantissa.
  intros H. apply andb_true_iff in H as [H1 H2].
  apply Z.eqb_eq in H1. apply Z.leb_le in H2. auto.
Qed.

Lemma digits_xO m : Zpos (digits2_pos m~0) = Zpos (digits2_pos m) + 1.
Proof. cbn [digits2_pos]. rewrite Pos2Z.inj_succ. lia. Qed.

Lemma digits_shift23 m :
  Zpos (digits2_pos (m * 8388608)) = Zpos (digits2_pos m) + 23.
Proof.
  rewrite Pos.mul_comm.
  change (8388608 * m)%positive with (m~0~0~0~0~0~0~0~0~0~0~0~0~0~0~0~0~0~0~0~0~0~0~0)%positive.
  rewrite !digits_xO. lia.
Qed.

Lemma shr_shift23 m :
  SpecFloat.iter_pos shr_1 23 (Build_shr_record (Zpos (m * 8388608)) false false) =
  Build_shr_record (Zpos m) false false.
Proof.
  rewrite Pos.mul_comm.
  change (8388608 * m)%positive with (m~0~0~0~0~0~0~0~0~0~0~0~0~0~0~0~0~0~0~0~0~0~0~0)%positive.
  reflexivity.
Qed.

Lemma round_exact s m e :
  valid_float (S754_finite s m e) = true ->
  binary_round_aux prec emax s (Zpos (m * 8388608)) (e + -23) loc_Exact =
  S754_finite s m e.
Proof.
  intros Hv. apply valid_finite in Hv as [Hc Hb].
  unfold binary_round_aux, shr_fexp. unfold Zdigits2 at 1.
  rewrite digits_shift23.
  replace (Zpos (digits2_pos m) + 23 + (e + -23)) with (Zpos (digits2_pos m) + e) by lia.
  rewrite Hc. replace (e - (e + -23)) with 23 by lia.
  change (shr (shr_record_of_loc (Z.pos (m * 8388608)) loc_Exact) (e + -23) 23)
    with (SpecFloat.iter_pos shr_1 23
            (Build_shr_record (Z.pos (m * 8388608)) false false),
          e + -23 + 23).
  rewrite shr_shift23.
  cbn [shr_m loc_of_shr_record round_nearest_even Zdigits2].
  replace (e + -23 + 23) with e by lia. rewrite Hc, Z.sub_diag.
  cbn [shr shr_record_of_loc shr_m].
  apply Z.leb_le in Hb. rewrite Hb. reflexivity.
Qed.

Lemma fmul_1_r x : valid_float x = true -> fmul x f1 = x.
Proof.
  destruct x as [s|s| |s m e]; intros Hv; try reflexivity.
  - destruct s; reflexivity.
  - destruct s; reflexivity.
  - unfold fmul, f1. change (float_of_Z 1) with (S754_finite false 8388608 (-23)).
    unfold SFmul. rewrite xorb_false_r. apply round_exact, Hv.
Qed.

Lemma fmul_1_l x : valid_float x = true -> fmul f1 x = x.
Proof.
  destruct x as [s|s| |s m e]; intros Hv; try reflexivity.
  unfold fmul, f1. change (float_of_Z 1) with (S754_finite false 8388608 (-23)).
  unfold SFmul. rewrite xorb_false_l, Pos.mul_comm, Z.add_comm.
  apply round_exact, Hv.
Qed.

Lemma fmul_0_r x :
  is_finite x = true ->
  exists s, fmul x f0 = S754_zero s.
Proof. destruct x; intros H; try discriminate; simpl; eauto. Qed.

Lemma fsub_self x : is_finite x = true -> fsub x x = f0.
Proof.
  destruct x as [s|s| |s m e]; intros H; try discriminate.
  - destruct s; reflexivity.
  - unfold fsub, SFsub. rewrite Z.sub_diag. reflexivity.
Qed.

Lemma fle_refl x : is_nan x = false -> fle x x = true.
Proof.
  destruct x as [s|s| |s m e]; intros H; try discriminate.
  - reflexivity.
  - destruct s; reflexivity.
  - unfold fle, SFleb, SFcompare.
    destruct s; rewrite Z.compare_refl, Pos.compare_cont_refl; reflexivity.
Qed.

Lemma fgt_inf x : fgt x (S754_infinity false) = false.
Proof. destruct x as [s|s| |s m e]; try reflexivity; destruct s; reflexivity. Qed.

End FloatFacts.

Section ConversionFacts.

Lemma digits_lower p : 2 ^ (Zpos (digits2_pos p) - 1) <= Zpos p.
Proof.
  induction p as [p IH|p IH|]; cbn [digits2_pos].
  - rewrite Pos2Z.inj_succ.
    replace (Z.succ (Zpos (digits2_pos p)) - 1)
      with (Z.succ (Zpos (digits2_pos p) - 1)) by lia.
    rewrite Z.pow_succ_r by lia. lia.
  - rewrite Pos2Z.inj_succ.
    replace (Z.succ (Zpos (digits2_pos p)) - 1)
      with (Z.succ (Zpos (digits2_pos p) - 1)) by lia.
    rewrite Z.pow_succ_r by lia. lia.
  - simpl. lia.
Qed.

Lemma digits_small p : Zpos p < 2 ^ 24 -> Zpos (digits2_pos p) <= 24.
Proof.
  intros Hp. pose proof (digits_lower p) as H.
  destruct (Z_le_gt_dec (Zpos (digits2_pos p)) 24) as [|Hgt]; [assumption|].
  assert (2 ^ 24 <= 2 ^ (Zpos (digits2_pos p) - 1))
    by (apply Z.pow_le_mono_r; lia).
  lia.
Qed.

Lemma iter_xO_digits p j :
  Zpos (digits2_pos (Pos.iter xO p j)) = Zpos (digits2_pos p) + Zpos j.
Proof.
  induction j as [|j IH] using Pos.peano_ind.
  - simpl. apply digits_xO.
  - rewrite Pos.iter_succ, digits_xO, IH. lia.
Qed.

Lemma iter_xO_value p j : Zpos (Pos.iter xO p j) = Zpos p * 2 ^ Zpos j.
Proof.
  induction j as [|j IH] using Pos.peano_ind.
  - simpl. lia.
  - rewrite Pos.iter_succ, Pos2Z.inj_xO, IH, Pos2Z.inj_succ.
    rewrite Z.pow_succ_r by lia. lia.
Qed.

(** An integer below [2^24] converts to [float] exactly. *)
Lemma float_of_Z_exact p :
  Zpos p < 2 ^ 24 ->
  exists m e,
    float_of_Z (Zpos p) = S754_finite false m e /\
    valid_float (S754_finite false m e) = true /\
    e <= 0 /\ Zpos m = Zpos p * 2 ^ (- e).
Proof.
  intros Hp. pose proof (digits_small p Hp) as Hd.
  pose proof (Pos2Z.is_pos (digits2_pos p)) as Hd0.
  set (d := Zpos (digits2_pos p)) in *.
  assert (Hfexp : forall x, x = d -> fexp prec emax x = d - 24).
  { intros x ->. unfold fexp, emin, prec, emax. lia. }
  assert (Hround : forall m, Zpos (digits2_pos m) + (d - 24) = d ->
            binary_round_aux prec emax false (Zpos m) (d - 24) loc_Exact =
            S754_finite false m (d - 24)).
  { intros m Hm. unfold binary_round_aux, shr_fexp.
    cbn [Zdigits2 shr_record_of_loc].
    rewrite (Hfexp _ Hm), Z.sub_diag.
    cbn [shr shr_m loc_of_shr_record round_nearest_even Zdigits2
         shr_record_of_loc].
    rewrite (Hfexp _ Hm), Z.sub_diag. cbn [shr shr_m].
    replace (d - 24 <=? emax - prec) with true; [reflexivity|].
    symmetry. apply Z.leb_le. unfold emax, prec. lia. }
  assert (Hvalid : forall m, Zpos (digits2_pos m) + (d - 24) = d ->
            valid_float (S754_finite false m (d - 24)) = true).
  { intros m Hm. unfold valid_float, valid_binary, bounded, canonical_mantissa.
    rewrite (Hfexp _ Hm), Z.eqb_refl. simpl. apply Z.leb_le.
    unfold emax, prec. lia. }
  unfold float_of_Z, binary_normalize, binary_round, shl_align.
  rewrite (Hfexp (Zpos (digits2_pos p) + 0)) by (fold d; lia).
  destruct (d - 24 - 0) as [|j|j] eqn:Hj; [|lia|].
  - exists p, (d - 24).
    assert (Hm : Zpos (digits2_pos p) + (d - 24) = d) by (fold d; lia).
    replace 0 with (d - 24) at 1 by lia.
    split; [apply Hround, Hm|]. split; [apply Hvalid, Hm|].
    split; [lia|]. replace (- (d - 24)) with 0 by lia. lia.
  - exists (Pos.iter xO p j), (d - 24).
    assert (Hm : Zpos (digits2_pos (Pos.iter xO p j)) + (d - 24) = d)
      by (rewrite iter_xO_digits; fold d; lia).
    split; [apply Hround, Hm|]. split; [apply Hvalid, Hm|].
    split; [lia|]. rewrite iter_xO_value. f_equal. f_equal. lia.
Qed.

Lemma float_of_Z_roundtrip k :
  0 <= k < 2 ^ 24 ->
  size_t_of_float (float_of_Z k) = Ok k /\
  valid_float (float_of_Z k) = true /\ is_finite (float_of_Z k) = true /\
  fmul f0 (float_of_Z k) = f0.
Proof.
  intros Hk. destruct k as [|p|p]; [| |lia].
  - repeat split.
  - destruct (float_of_Z_exact p) as (m & e & Heq & Hv & He & Hm); [lia|].
    rewrite Heq. split; [|repeat split; assumption].
    unfold size_t_of_float, ftrunc. cbn [cond_Zopp].
    assert (Hval : (if 0 <=? e then Zpos m * 2 ^ e else Zpos m / 2 ^ (- e))
                   = Zpos p).
    { destruct (0 <=? e) eqn:H0.
      - apply Z.leb_le in H0. assert (e = 0) by lia. subst e.
        simpl in Hm. simpl. lia.
      - rewrite Hm. apply Z.div_mul. apply Z.pow_nonzero; lia. }
    rewrite Hval.
    replace ((0 <=? Zpos p) && (Zpos p <? 2 ^ 64)) with true; [reflexivity|].
    symmetry. apply andb_true_iff. split; [apply Z.leb_le|apply Z.ltb_lt]; lia.
Qed.

End ConversionFacts.

(** ** The traversal of [update], particle by particle *)

Section TraversalFacts.

Context {Rng : Type}.
Variable E : Externals Rng.
Implicit Types (s : System Rng) (mem : list Particle.t) (l : list nat).

Lemma bind_plain {A B : Type} (m : result A) (k : A -> result B) :
  plain_result m -> (forall a, plain_result (k a)) -> plain_result (bind m k).
Proof. destruct m; simpl; auto. Qed.

Lemma size_t_plain x : plain_result (size_t_of_float x).
Proof.
  unfold size_t_of_float. destruct (ftrunc x); [|exact I].
  destruct (_ && _); exact I.
Qed.

Lemma index_plain {A : Type} (v : list A) i : plain_result (index v i).
Proof. unfold index. destruct (v !! _); exact I. Qed.

Lemma load_plain s p : plain_result (load s p).
Proof.
  unfold load. destruct (pMem s) as [mem|]; [|exact I].
  destruct (mem !! p); exact I.
Qed.

Lemma store_plain p v s : plain_result (store p v s).
Proof.
  unfold store. destruct (pMem s) as [mem|]; [|exact I].
  destruct (decide _); exact I.
Qed.

Lemma modify_plain p f s : plain_result (modify p f s).
Proof.
  unfold modify. apply bind_plain; [apply load_plain|].
  intros v. apply store_plain.
Qed.

Ltac plain_step :=
  first
    [ exact I
    | apply size_t_plain
    | apply index_plain
    | apply load_plain
    | apply store_plain
    | apply modify_plain
    | apply bind_plain; [|intros ?]
    | match goal with
      | |- plain_result (let (_, _) := ?x in _) => destruct x
      | |- plain_result (match ?x with _ => _ end) => destruct x
      end ].

Lemma integrate_plain dt c v : plain_result (integrate E dt c v).
Proof.
  unfold integrate, evalSize, evalColor, evalQuadIndex. repeat plain_step.
Qed.

Lemma initParticle_plain p t s : plain_result (initParticle E p t s).
Proof.
  unfold initParticle, initialSizeIndex.
  apply bind_plain; [apply load_plain|]. intros old.
  repeat plain_step.
Qed.

Lemma insertTop_plain p s : plain_result (insertTop p s).
Proof. unfold insertTop. repeat plain_step. Qed.

Lemma insertBottom_plain p s : plain_result (insertBottom p s).
Proof. unfold insertBottom. repeat plain_step. Qed.

Lemma insertRandom_plain p s : plain_result (insertRandom E p s).
Proof. unfold insertRandom. repeat plain_step. Qed.

Lemma addParticle_plain t s : plain_result (addParticle E t s).
Proof.
  unfold addParticle. destruct (isFull s); [exact I|].
  apply bind_plain; [apply initParticle_plain|]. intros s1.
  apply bind_plain; [|intros ?; exact I].
  destruct (insertMode s1);
    [apply insertTop_plain|apply insertBottom_plain|apply insertRandom_plain].
Qed.

Lemma lives_contents mem mem' l l' ls :
  contents mem' l' = contents mem l ->
  lives_are mem l ls -> lives_are mem' l' ls.
Proof.
  intros Hc Hl. revert l' Hc.
  induction Hl as [|x f l ls (v & Hv & Hf) _ IH]; intros [|x' l'] Hc;
    try discriminate; [constructor|].
  unfold contents in Hc. cbn [fmap list_fmap] in Hc.
  injection Hc as Hx Hc.
  constructor; [|apply IH; exact Hc].
  rewrite Hv in Hx. destruct (mem' !! x') as [v'|] eqn:Hv'; [|discriminate].
  assert (Hd : Particle.data v' = Particle.data v)
    by (cbn in Hx; congruence).
  exists v'. split; [reflexivity|].
  change (Particle.life v') with (Particle.life (Particle.data v')).
  rewrite Hd. exact Hf.
Qed.

Lemma lives_insert_ne mem p v l ls :
  p ∉ l -> lives_are mem l ls -> lives_are (<[p:=v]> mem) l ls.
Proof.
  intros Hp Hl.
  induction Hl as [|x f l ls (w & Hw & Hf) _ IH]; [constructor|].
  apply not_elem_of_cons in Hp as [Hne Hp].
  constructor; [|apply IH, Hp].
  exists w. rewrite list_lookup_insert_ne by congruence. auto.
Qed.

Lemma lives_length mem l ls : lives_are mem l ls -> length l = length ls.
Proof. apply Forall2_length. Qed.

(** Every slot of a linked list holds a particle. *)
Lemma pool_lives s mem l : pool s mem l -> exists ls, lives_are mem l ls.
Proof.
  intros (_ & Hseg & _). revert Hseg. generalize (pHead s).
  induction l as [|x l IH]; intros h Hseg.
  - exists []. constructor.
  - destruct Hseg as (_ & v & Hv & Hseg).
    destruct (IH _ Hseg) as [ls Hls].
    exists (Particle.life v :: ls). constructor; [eauto|exact Hls].
Qed.

Lemma survivors_alive dt ls :
  Forall (fun f => fle f f0 = false) (survivors dt ls).
Proof.
  induction ls as [|f ls IH]; [constructor|]. cbn [survivors].
  destruct (fle (fsub f dt) f0) eqn:H; [exact IH|].
  constructor; assumption.
Qed.

(** The traversal from the particle at the head of [l2], the particles of
    [l1] having been visited.  It runs out of fuel only when the fuel is
    less than the number of particles still to visit; it is undefined only
    through the integrator, hence only when a particle survives; and when
    it returns, the list holds the visited particles followed by the
    survivors of the others, in their order, each aged once. *)
Lemma sweep_core fuel dt s mem l1 l2 ls1 ls2 :
  pool s mem (l1 ++ l2) -> l1 ++ l2 ≡ₚ seq 0 (pFree s) ->
  lives_are mem l1 ls1 -> lives_are mem l2 ls2 ->
  match update_particles E fuel dt (head l2) s with
  | Ok s' =>
      exists mem' l',
        pool s' mem' l' /\ l' ≡ₚ seq 0 (pFree s') /\
        lives_are mem' l' (ls1 ++ survivors dt ls2)
  | OutOfFuel => (fuel < length l2)%nat
  | Undefined => survivors dt ls2 <> []
  | Exception _ => False
  end.
Proof.
  revert s mem l1 l2 ls1 ls2.
  induction fuel as [|fuel IH]; intros s mem l1 l2 ls1 ls2 Hpool Hperm Hl1 Hl2.
  - destruct l2 as [|p l2]; simpl; [|lia].
    inversion Hl2; subst. exists mem, l1.
    rewrite app_nil_r in *. auto.
  - destruct l2 as [|p l2]; cbn [head update_particles].
    { inversion Hl2; subst. exists mem, l1. rewrite app_nil_r in *. auto. }
    inversion Hl2 as [|? f ? ls2' (v0' & Hv0' & Hf) Hl2']; subst.
    assert (Hnd : NoDup (l1 ++ p :: l2)).
    { rewrite Hperm. apply NoDup_seq. }
    assert (Hp1 : p ∉ l1).
    { apply NoDup_app in Hnd as (_ & Hd & _). intros Hin.
      apply (Hd p Hin). left. }
    assert (Hp2 : p ∉ l2).
    { apply NoDup_app in Hnd as (_ & _ & Hd).
      apply NoDup_cons in Hd as [Hd _]. exact Hd. }
    destruct (pool_middle _ _ _ _ _ Hpool) as (v0 & Hv0 & Hnext & _).
    assert (v0' = v0) by congruence. subst v0'.
    pose proof Hpool as (Hm & _).
    rewrite (modify_Some s mem p v0 _ Hm Hv0). cbn [bind].
    set (v1 := Particle.set_life (fsub (Particle.life v0) dt) v0).
    set (mem1 := <[p:=v1]> mem).
    set (s1 := set_pMem (Some mem1) s).
    assert (Hlt : (p < length mem)%nat) by (eapply lookup_lt_Some; eauto).
    assert (Hpool1 : pool s1 mem1 (l1 ++ p :: l2)).
    { eapply pool_store_data; eauto. }
    assert (Hv1 : mem1 !! p = Some v1)
      by (apply list_lookup_insert_eq; exact Hlt).
    rewrite (load_Some s1 mem1 p v1 eq_refl Hv1). cbn [bind].
    assert (Hl1' : lives_are mem1 l1 ls1) by (apply lives_insert_ne; auto).
    assert (Hl2'' : lives_are mem1 l2 ls2') by (apply lives_insert_ne; auto).
    cbn [survivors].
    change (Particle.life v1) with (fsub (Particle.life v0) dt).
    destruct (fle (fsub (Particle.life v0) dt) f0) eqn:Hdead.
    + assert (Hpin : p ∈ seq 0 (pFree s)).
      { rewrite <- Hperm. apply elem_of_app. right. left. }
      apply elem_of_seq in Hpin.
      destruct (pFree s) as [|q] eqn:Hfree; [lia|].
      assert (Hq : q ∈ l1 ++ p :: l2).
      { rewrite Hperm. apply elem_of_seq. lia. }
      destruct (removeParticle_spec s1 mem1 l1 p l2 q Hpool1 Hnd Hfree Hq)
        as (s2 & mem2 & Heq & Hpool2 & Hcont & _ & Hfree2 & _).
      rewrite Heq. cbn [bind fst snd].
      rewrite fmap_app in Hpool2, Hcont.
      assert (Hperm2 : (rename q p <$> l1) ++ (rename q p <$> l2)
                       ≡ₚ seq 0 (pFree s2)).
      { rewrite Hfree2, <- fmap_app. eapply rename_perm. exact Hperm. }
      unfold contents in Hcont. rewrite !fmap_app in Hcont.
      apply app_inj_1 in Hcont as [Hc1 Hc2];
        [|rewrite !length_fmap; reflexivity].
      assert (Hr1 : lives_are mem2 (rename q p <$> l1) ls1)
        by (eapply lives_contents; [exact Hc1|exact Hl1']).
      assert (Hr2 : lives_are mem2 (rename q p <$> l2) ls2')
        by (eapply lives_contents; [exact Hc2|exact Hl2'']).
      specialize (IH s2 mem2 _ _ _ _ Hpool2 Hperm2 Hr1 Hr2).
      destruct (update_particles E fuel dt (head (rename q p <$> l2)) s2);
        try exact IH.
      rewrite length_fmap in IH. simpl. lia.
    + pose proof (integrate_plain dt (params s1) v1) as Hplain.
      destruct (integrate E dt (params s1) v1) as [v2| | |] eqn:Hint;
        cbn [bind]; try contradiction; [|discriminate].
      apply integrate_links in Hint as (Hpv & Hnx & Hlife).
      assert (Hlt1 : (p < length mem1)%nat)
        by (unfold mem1; rewrite length_insert; exact Hlt).
      rewrite (store_Some s1 mem1 p v2 eq_refl Hlt1). cbn [bind].
      set (mem2 := <[p:=v2]> mem1).
      set (s2 := set_pMem (Some mem2) s1).
      assert (Hv2 : mem2 !! p = Some v2)
        by (apply list_lookup_insert_eq; exact Hlt1).
      rewrite (load_Some s2 mem2 p v2 eq_refl Hv2). cbn [bind].
      assert (Hpool2 : pool s2 mem2 ((l1 ++ [p]) ++ l2)).
      { rewrite <- app_assoc. eapply pool_store_data; eauto. }
      assert (Hperm2 : (l1 ++ [p]) ++ l2 ≡ₚ seq 0 (pFree s2)).
      { rewrite <- app_assoc. exact Hperm. }
      assert (Hr1 : lives_are mem2 (l1 ++ [p])
                      (ls1 ++ [fsub (Particle.life v0) dt])).
      { apply Forall2_app; [apply lives_insert_ne; auto|].
        constructor; [|constructor]. exists v2. split; [exact Hv2|].
        rewrite Hlife. reflexivity. }
      assert (Hr2 : lives_are mem2 l2 ls2')
        by (apply lives_insert_ne; auto).
      specialize (IH s2 mem2 _ _ _ _ Hpool2 Hperm2 Hr1 Hr2).
      replace (Particle.next v2) with (head l2)
        by (rewrite Hnx; symmetry; exact Hnext).
      destruct (update_particles E fuel dt (head l2) s2); try exact IH.
      * destruct IH as (mem' & l' & H1 & H2 & H3).
        exists mem', l'. rewrite <- app_assoc in H3. auto.
      * discriminate.
      * simpl. lia.
Qed.

End TraversalFacts.

(** ** The scheduler of [update], pass by pass *)

Section SchedulerFacts.

Context {Rng : Type}.
Variable E : Externals Rng.
Implicit Types (s : System Rng) (mem : list Particle.t) (l : list nat).

Lemma pool_inv_count s :
  pool_inv s ->
  activeParticles s = Z.of_nat (pFree s) /\
  0 <= activeParticles s <= maxParticles s /\ maxParticles s < 2 ^ 32.
Proof.
  intros (mem & l & _ & _ & Hle & Hlen & Hmax & Hact & _). lia.
Qed.

Lemma pool_inv_head s x :
  pool_inv s -> pHead s = Some x -> (x < pFree s)%nat.
Proof.
  intros (mem & l & Hpool & Hperm & _) Hx.
  destruct (pool_inv_list _ _ _ Hpool Hperm) as [_ Hin].
  apply Hin. apply head_Some_elem_of.
  rewrite <- (pool_head _ _ _ Hpool). exact Hx.
Qed.

(** The loop of the scheduler makes the passes of [scheduler_passes]: it
    returns with that counter after that many calls of [addParticle], and
    runs out of fuel exactly when the counter alone does. *)
Lemma emit_pending_passes fuel rate total s :
  match emit_pending E fuel rate total s with
  | Ok r =>
      scheduler_passes fuel rate (emitCounter s) =
      Some (emitCounter (fst r), snd r)
  | OutOfFuel => scheduler_passes fuel rate (emitCounter s) = None
  | Undefined => True
  | Exception _ => False
  end.
Proof.
  revert s. induction fuel as [|fuel IH]; intros s;
    cbn [emit_pending scheduler_passes].
  - destruct (fgt (emitCounter s) rate); reflexivity.
  - destruct (fgt (emitCounter s) rate); [|reflexivity].
    pose proof (addParticle_plain E
                  (fsub f1 (fdiv (fsub (emitCounter s) rate) total)) s) as Hp.
    destruct (addParticle E _ s) as [s1| | |] eqn:Hadd; cbn [bind];
      try contradiction; [|exact I].
    apply addParticle_frame in Hadd as [(_ & _ & _ & _ & Hec & _) _].
    specialize (IH (set_emitCounter (fsub (emitCounter s1) rate) s1)).
    cbn [emitCounter set_emitCounter] in IH. rewrite Hec in *.
    destruct (emit_pending E fuel rate total _) as [r| | |]; cbn [bind];
      try exact IH.
    + cbn [fst snd]. rewrite IH. reflexivity.
    + rewrite IH. reflexivity.
Qed.

(** With fuel for every active particle the traversal ends, by returning
    or in undefined behaviour. *)
Lemma traversal_plain fuel dt s :
  pool_inv s -> (pFree s <= fuel)%nat ->
  plain_result (update_particles E fuel dt (pHead s) s).
Proof.
  intros (mem & l & Hpool & Hperm & _) Hfuel.
  destruct (pool_lives _ _ _ Hpool) as [ls Hls].
  pose proof (sweep_core E fuel dt s mem [] l [] ls Hpool Hperm
                (Forall2_nil_2 _ _ _) Hls) as H.
  rewrite <- (pool_head _ _ _ Hpool) in H.
  destruct (update_particles E fuel dt (pHead s) s); try exact I;
    try exact H.
  apply Permutation_length in Hperm. rewrite length_seq in Hperm.
  simpl. lia.
Qed.

(** One [update] of an active emitter, outcome by outcome. *)
Lemma update_counting_passes fuel dt s :
  pool_inv s -> (pFree s <= fuel)%nat -> feq dt f0 = false ->
  active s = true ->
  match update_counting E fuel dt s with
  | Ok r =>
      exists c,
        scheduler_passes fuel (fdiv f1 (emissionRate s))
          (fadd (emitCounter s) dt) = Some (c, snd r) /\
        (active (fst r) = true -> emitCounter (fst r) = c)
  | OutOfFuel =>
      scheduler_passes fuel (fdiv f1 (emissionRate s))
        (fadd (emitCounter s) dt) = None
  | Undefined => True
  | Exception _ => False
  end.
Proof.
  intros Hinv Hfuel Hdt Hact. unfold update_counting.
  pose proof Hinv as (mem & l & (Hm & _) & _). rewrite Hm, Hdt.
  pose proof (traversal_plain fuel dt s Hinv Hfuel) as Hp.
  destruct (update_particles E fuel dt (pHead s) s) as [s1| | |] eqn:Htrav;
    cbn [bind]; try contradiction; [|exact I].
  apply update_particles_frame in Htrav
    as [(Ha & _ & _ & Hr & Hec & _) _].
  unfold update_emitter. rewrite Ha, Hact, Hr.
  pose proof (emit_pending_passes fuel (fdiv f1 (emissionRate s))
                (fsub (emitCounter (set_emitCounter
                                      (fadd (emitCounter s1) dt) s1))
                   (fdiv f1 (emissionRate s)))
                (set_emitCounter (fadd (emitCounter s1) dt) s1)) as H.
  cbn [emitCounter set_emitCounter] in *. rewrite Hec in *.
  destruct (emit_pending E fuel _ _ _) as [r| | |]; cbn [bind];
    try exact H.
  cbn [fst snd]. exists (emitCounter (fst r)). split; [exact H|].
  destruct (fne _ _ && _); cbn; [discriminate|reflexivity].
Qed.

(** What [update] can end in on a well-linked pool: it throws nothing, and
    the fuel runs out only in the loop of the scheduler of an active
    emitter. *)
Lemma update_counting_outcome fuel dt s :
  pool_inv s -> (pFree s <= fuel)%nat ->
  match update_counting E fuel dt s with
  | Ok _ | Undefined => True
  | OutOfFuel =>
      feq dt f0 = false /\ active s = true /\
      scheduler_passes fuel (fdiv f1 (emissionRate s))
        (fadd (emitCounter s) dt) = None
  | Exception _ => False
  end.
Proof.
  intros Hinv Hfuel.
  destruct (feq dt f0) eqn:Hdt.
  { unfold update_counting. rewrite Hdt. destruct (pMem s); exact I. }
  destruct (active s) eqn:Hact.
  - pose proof (update_counting_passes fuel dt s Hinv Hfuel Hdt Hact) as H.
    destruct (update_counting E fuel dt s); auto.
  - unfold update_counting.
    pose proof Hinv as (mem & l & (Hm & _) & _). rewrite Hm, Hdt.
    pose proof (traversal_plain fuel dt s Hinv Hfuel) as Hp.
    destruct (update_particles E fuel dt (pHead s) s) as [s1| | |] eqn:Htrav;
      cbn [bind]; try contradiction; [|exact I].
    apply update_particles_frame in Htrav as [(Ha & _) _].
    unfold update_emitter. rewrite Ha, Hact. exact I.
Qed.



(** [update] leaves the configuration of the system alone. *)
Lemma update_configuration fuel dt s s' :
  update E fuel dt s = Ok s' ->
  params s' = params s /\ emissionRate s' = emissionRate s /\
  insertMode s' = insertMode s /\ maxParticles s' = maxParticles s /\
  position s' = position s /\ lifetime s' = lifetime s /\
  (pMem s <> None -> feq dt f0 = false -> prevPosition s' = position s).
Proof.
  unfold update, update_counting. intros H.
  apply bind_Ok in H as (r & H & H'). injection H' as <-.
  destruct (pMem s) as [mem|] eqn:Hmem.
  2:{ injection H as <-. simpl. repeat split. contradiction. }
  destruct (feq dt f0) eqn:Hdt.
  { injection H as <-. simpl. repeat split. discriminate. }
  apply bind_Ok in H as (s1 & Htrav & H).
  apply bind_Ok in H as (r1 & Hem & H). injection H as <-.
  apply update_particles_frame in Htrav
    as [(Ha & Hmode & Hmx & Hrate & Hec & Hpos & Hpp & Hlt & Hl & Hc) _].
  assert (Hfr :
    params (fst r1) = params s1 /\
    emissionRate (fst r1) = emissionRate s1 /\
    insertMode (fst r1) = insertMode s1 /\
    maxParticles (fst r1) = maxParticles s1 /\
    position (fst r1) = position s1 /\ lifetime (fst r1) = lifetime s1).
  { unfold update_emitter in Hem. destruct (active s1).
    - apply bind_Ok in Hem as (r2 & Hloop & Hem). injection Hem as <-.
      apply emit_pending_frame in Hloop
        as [(_ & Hmode2 & Hmx2 & Hrate2 & _ & Hpos2 & _ & Hlt2 & _ & Hc2) _].
      simpl in *. destruct (_ && _); simpl; repeat split; assumption.
    - injection Hem as <-. repeat split. }
  destruct Hfr as (F1 & F2 & F3 & F4 & F5 & F6).
  simpl. repeat split; congruence.
Qed.


End SchedulerFacts.

(** ** The particles of the constructor's configuration *)

Section DefaultFacts.

Context {Rng : Type}.
Variable E : Externals Rng.
Hypothesis random_zero : forall g, fst (rng_random_max E f0 g) = f0.
Implicit Types (s : System Rng) (mem : list Particle.t) (l : list nat).

Ltac draw :=
  match goal with
  | |- context [let (_, _) := rng_random_max E f0 ?g in _] =>
      let Hr := fresh "Hr" in
      pose proof (random_zero g) as Hr;
      destruct (rng_random_max E f0 g) as [? ?]; cbn [fst] in Hr; subst
  | |- context [let (_, _) := ?x in _] => destruct x as [? ?]
  end.

(** With the configuration of the constructor the initialisation of a
    particle is defined, and the particle has no life left. *)
Lemma initParticle_total p t s old :
  load s p = Ok old -> params s = constructor_params ->
  exists v g,
    initParticle E p t s = store p v (set_rng g s) /\
    Particle.life v = f0 /\ Particle.prev v = Particle.prev old /\
    Particle.next v = Particle.next old.
Proof.
  intros Hl Hc. unfold initParticle. rewrite Hl, Hc. cbn [bind].
  cbv beta iota zeta delta
    [constructor_params params initialMembers particleLifeMin
     particleLifeMax areaSpreadDistribution sizeVariation sizes colors
     areaSpread direction spread speedMin speedMax linearAccelerationMin
     linearAccelerationMax radialAccelerationMin radialAccelerationMax
     tangentialAccelerationMin tangentialAccelerationMax linearDampingMin
     linearDampingMax rotationMin rotationMax spinStart spinEnd
     spinVariation relativeRotation].
  change (feq f0 f0) with true. cbv iota.
  repeat draw.
  assert (Hi : initialSizeIndex f0 [f1] = Ok 0) by (vm_compute; reflexivity).
  rewrite Hi. cbn [bind index Z.to_nat lookup list_lookup].
  eexists _, _. split; [reflexivity|]. cbn. auto.
Qed.










End DefaultFacts.

(** ** The truncation of a difference of at most a half *)

Lemma digits2_pos_gt p : Zpos p < 2 ^ Zpos (digits2_pos p).
Proof.
  induction p as [p IH|p IH|]; cbn [digits2_pos];
    rewrite ?Pos2Z.inj_succ, ?Z.pow_succ_r by lia; lia.
Qed.

Lemma digits2_pos_le p : 2 ^ (Zpos (digits2_pos p) - 1) <= Zpos p.
Proof.
  induction p as [p IH|p IH|]; cbn [digits2_pos];
    rewrite ?Pos2Z.inj_succ;
    [replace (Z.succ (Zpos (digits2_pos p)) - 1)
       with (Z.succ (Zpos (digits2_pos p) - 1)) by lia;
     rewrite Z.pow_succ_r by lia; lia..|reflexivity].
Qed.

Lemma digits2_pos_upper p k :
  0 <= k -> Zpos p < 2 ^ k -> Zpos (digits2_pos p) <= k.
Proof.
  intros Hk Hp. pose proof (digits2_pos_le p) as Hl.
  destruct (Z_le_gt_dec (Zpos (digits2_pos p)) k) as [H|H]; [exact H|].
  assert (2 ^ k <= 2 ^ (Zpos (digits2_pos p) - 1))
    by (apply Z.pow_le_mono_r; lia).
  lia.
Qed.

Lemma Zdigits2_upper m k :
  0 <= k -> 0 <= m < 2 ^ k -> Zdigits2 m <= k.
Proof.
  intros Hk [H0 Hm]. destruct m as [|p|p]; [exact Hk| |lia].
  apply digits2_pos_upper; assumption.
Qed.

Lemma iter_xO m d : Zpos (Pos.iter xO m d) = Zpos m * 2 ^ Zpos d.
Proof.
  induction d as [|d IH] using Pos.peano_ind.
  - cbn [Pos.iter]. lia.
  - rewrite Pos.iter_succ, Pos2Z.inj_succ, Z.pow_succ_r by lia.
    rewrite Pos2Z.inj_xO, IH. lia.
Qed.

Lemma shr_1_bound mrs :
  0 <= shr_m mrs ->
  0 <= shr_m (shr_1 mrs) /\ 2 * shr_m (shr_1 mrs) <= shr_m mrs.
Proof. destruct mrs as [[|[p|p|]|p] r s]; cbn; lia. Qed.

Lemma iter_shr_bound p mrs :
  0 <= shr_m mrs ->
  0 <= shr_m (SpecFloat.iter_pos shr_1 p mrs) /\
  2 ^ Zpos p * shr_m (SpecFloat.iter_pos shr_1 p mrs) <= shr_m mrs.
Proof.
  revert mrs. induction p as [p IH|p IH|]; intros mrs H0; cbn [SpecFloat.iter_pos].
  - destruct (shr_1_bound mrs H0) as [H1 H2].
    destruct (IH _ H1) as [H3 H4]. destruct (IH _ H3) as [H5 H6].
    split; [exact H5|].
    replace (Zpos p~1) with (Zpos p + Zpos p + 1) by lia.
    rewrite !Z.pow_add_r by lia. change (2 ^ 1) with 2.
    pose proof (Z.pow_pos_nonneg 2 (Zpos p)). nia.
  - destruct (IH _ H0) as [H3 H4]. destruct (IH _ H3) as [H5 H6].
    split; [exact H5|].
    replace (Zpos p~0) with (Zpos p + Zpos p) by lia.
    rewrite !Z.pow_add_r by lia.
    pose proof (Z.pow_pos_nonneg 2 (Zpos p)). nia.
  - apply shr_1_bound. exact H0.
Qed.

(** The shift to the exponent of the format of a mantissa below one. *)
Lemma shr_fexp_below_one m e :
  0 <= m -> Zdigits2 m + e <= 0 -> e <= -24 ->
  exists mrs n,
    shr_fexp prec emax m e loc_Exact = (mrs, e + n) /\ 0 <= n /\
    e + n <= -24 /\ 0 <= shr_m mrs /\ 2 ^ n * shr_m mrs <= m /\
    (n = 0 -> mrs = Build_shr_record m false false).
Proof.
  intros H0 Hd He. unfold shr_fexp, shr. cbn [shr_record_of_loc].
  destruct (fexp prec emax (Zdigits2 m + e) - e) as [|p|p] eqn:Hn.
  - exists (Build_shr_record m false false), 0. rewrite Z.add_0_r.
    cbn [shr_m]. repeat split; lia.
  - destruct (iter_shr_bound p (Build_shr_record m false false) H0)
      as [H1 H2].
    eexists _, (Zpos p). split; [reflexivity|]. cbn [shr_m] in H2.
    unfold fexp, emin, prec, emax in Hn. repeat split; try lia.
  - exists (Build_shr_record m false false), 0. rewrite Z.add_0_r.
    cbn [shr_m]. repeat split; lia.
Qed.

Lemma round_nearest_even_bound m l :
  m <= round_nearest_even m l <= m + 1.
Proof.
  destruct l as [|[| |]]; cbn [round_nearest_even];
    try destruct (Z.even m); lia.
Qed.

Lemma ftrunc_below_one sx m e :
  e <= -24 -> Zpos m < 2 ^ (- e) -> ftrunc (S754_finite sx m e) = Some 0.
Proof.
  intros He Hm. cbn [ftrunc]. destruct (0 <=? e) eqn:H0; [lia|].
  rewrite Z.div_small by lia. destruct sx; reflexivity.
Qed.

Lemma binary_round_aux_below_half sx m e :
  0 <= m -> e <= -24 -> m <= 2 ^ (- e - 1) ->
  ftrunc (binary_round_aux prec emax sx m e loc_Exact) = Some 0.
Proof.
  intros H0 He Hm.
  assert (Hp : 2 * 2 ^ (- e - 1) = 2 ^ (- e))
    by (rewrite <- Z.pow_succ_r by lia; f_equal; lia).
  assert (Hbig : 2 ^ 23 <= 2 ^ (- e - 1))
    by (apply Z.pow_le_mono_r; lia).
  destruct (shr_fexp_below_one m e H0) as
    (mrs1 & n1 & Hs1 & Hn1 & He1 & Hm1 & Hb1 & _); [|exact He|].
  { pose proof (Zdigits2_upper m (- e) ltac:(lia) ltac:(lia)). lia. }
  unfold binary_round_aux. rewrite Hs1.
  pose proof (round_nearest_even_bound (shr_m mrs1)
                (loc_of_shr_record mrs1)) as Hr.
  set (r := round_nearest_even (shr_m mrs1) (loc_of_shr_record mrs1)) in *.
  assert (Hp1 : 2 * 2 ^ (- (e + n1) - 1) = 2 ^ (- (e + n1)))
    by (rewrite <- Z.pow_succ_r by lia; f_equal; lia).
  assert (Hbig1 : 2 ^ 23 <= 2 ^ (- (e + n1) - 1))
    by (apply Z.pow_le_mono_r; lia).
  assert (Hsplit : 2 ^ (- e - 1) = 2 ^ n1 * 2 ^ (- (e + n1) - 1))
    by (rewrite <- Z.pow_add_r by lia; f_equal; lia).
  assert (Hm1' : shr_m mrs1 <= 2 ^ (- (e + n1) - 1)).
  { pose proof (Z.pow_pos_nonneg 2 n1). nia. }
  assert (Hr' : 0 <= r < 2 ^ (- (e + n1))) by (change (2 ^ 23) with 8388608 in *; lia).
  destruct (shr_fexp_below_one r (e + n1)) as
    (mrs2 & n2 & Hs2 & Hn2 & He2 & Hm2 & Hb2 & _); [lia| |exact He1|].
  { pose proof (Zdigits2_upper r (- (e + n1)) ltac:(lia) Hr'). lia. }
  rewrite Hs2.
  assert (Hsplit2 : 2 ^ (- (e + n1)) = 2 ^ n2 * 2 ^ (- (e + n1 + n2)))
    by (rewrite <- Z.pow_add_r by lia; f_equal; lia).
  assert (Hm2' : shr_m mrs2 < 2 ^ (- (e + n1 + n2))).
  { pose proof (Z.pow_pos_nonneg 2 n2). nia. }
  destruct (shr_m mrs2) as [|p|p]; [reflexivity| |lia].
  destruct (e + n1 + n2 <=? emax - prec) eqn:Hov.
  - apply ftrunc_below_one; assumption.
  - unfold emax, prec in Hov. lia.
Qed.

Lemma binary_round_below_half sx m e :
  e <= -24 -> Zpos m <= 2 ^ (- e - 1) ->
  ftrunc (binary_round prec emax sx m e) = Some 0.
Proof.
  intros He Hm. unfold binary_round, shl_align.
  destruct (fexp prec emax (Zpos (digits2_pos m) + e) - e) as [|d|d] eqn:Hd;
    try (apply binary_round_aux_below_half; lia).
  apply binary_round_aux_below_half; [lia| |].
  - unfold fexp, emin, prec, emax in *. lia.
  - rewrite iter_xO.
    replace (fexp prec emax (Zpos (digits2_pos m) + e)) with (e - Zpos d)
      by lia.
    replace (- (e - Zpos d) - 1) with (- e - 1 + Zpos d) by lia.
    rewrite Z.pow_add_r by lia.
    pose proof (Z.pow_pos_nonneg 2 (Zpos d)). nia.
Qed.

Lemma fle_finite m e n e' :
  fle (S754_finite false m e) (S754_finite false n e') = true ->
  e < e' \/ (e = e' /\ Zpos m <= Zpos n).
Proof.
  unfold fle, SFleb, SFcompare.
  destruct (Z.compare_spec e e') as [He|He|He]; [|auto|discriminate].
  intros H. right. split; [exact He|].
  enough (m <= n)%positive by lia.
  unfold Pos.le, Pos.compare. intros Hgt. rewrite Hgt in H. discriminate.
Qed.

Lemma f1_bits : f1 = S754_finite false 8388608 (-23).
Proof. vm_compute. reflexivity. Qed.

Lemma fhalf_bits : fhalf = S754_finite false 8388608 (-24).
Proof. vm_compute. reflexivity. Qed.

(** [(size_t)(x - .5f)] is 0 for every [x] between 0 and 1. *)
Lemma half_below_unit x :
  valid_float x = true -> fle f0 x = true -> fle x f1 = true ->
  size_t_of_float (fsub x fhalf) = Ok 0.
Proof.
  intros Hv H0 H1.
  enough (ftrunc (fsub x fhalf) = Some 0) as H
    by (unfold size_t_of_float; rewrite H; reflexivity).
  rewrite f1_bits in H1. rewrite fhalf_bits.
  destruct x as [[|]|[|]| |[|] m e]; try discriminate; try reflexivity.
  unfold valid_float, valid_binary, bounded, canonical_mantissa in Hv.
  apply andb_true_iff in Hv as [Hc _]. apply Z.eqb_eq in Hc.
  unfold fexp, emin, prec, emax in Hc.
  pose proof (digits2_pos_gt m) as Hg. pose proof (digits2_pos_le m) as Hl.
  apply fle_finite in H1 as [He|[He Hm]].
  - assert (Hd : Zpos (digits2_pos m) <= 24) by lia.
    assert (Hm : Zpos m < 2 ^ 24).
    { assert (2 ^ Zpos (digits2_pos m) <= 2 ^ 24)
        by (apply Z.pow_le_mono_r; lia). lia. }
    assert (Hbig : 2 ^ 24 <= 2 ^ (- e)) by (apply Z.pow_le_mono_r; lia).
    assert (Hp : 2 * 2 ^ (- e - 1) = 2 ^ (- e))
      by (rewrite <- Z.pow_succ_r by lia; f_equal; lia).
    unfold fsub, SFsub. rewrite Z.min_l by lia.
    assert (Hx : fst (shl_align m e e) = m)
      by (unfold shl_align; rewrite Z.sub_diag; reflexivity).
    assert (Hy : Zpos (fst (shl_align 8388608 (-24) e)) = 2 ^ (- e - 1)).
    { unfold shl_align. destruct (e - -24) as [|d|d] eqn:Hd'; [|lia|].
      - assert (e = -24) by lia. subst e. reflexivity.
      - cbn [fst]. rewrite iter_xO.
        replace (- e - 1) with (23 + Zpos d) by lia.
        rewrite Z.pow_add_r by lia. reflexivity. }
    rewrite Hx. cbn [cond_Zopp]. rewrite Hy.
    destruct (Zpos m - 2 ^ (- e - 1)) as [|p|p] eqn:HM;
      cbn [binary_normalize]; [reflexivity| |];
      apply binary_round_below_half; lia.
  - assert (Hd : Zpos (digits2_pos m) = 24) by lia.
    rewrite Hd in Hl. change (2 ^ (24 - 1)) with 8388608 in Hl.
    assert (m = 8388608%positive) as -> by lia.
    subst e. vm_compute. reflexivity.
Qed.

(** ** The properties of the specification *)

Section Claims.

Context {Rng : Type}.
Variable E : Externals Rng.
Implicit Types (s : System Rng) (mem : list Particle.t).


(** C2. Removing the particle [p] of the active list [l1 ++ p :: l2], when
    the last allocated slot is [q], succeeds; it leaves the list
    [l1 ++ l2] with [q] renamed to [p], linked in both directions from the
    new head and keeping the tail pointer on the last slot; the particles of
    the list keep their data and their order, the slot [p] holding the data
    that was in [q]; the free boundary and the count go down by one; and the
    pointer returned is the first slot of what was [l2], that is the next
    particle in the order of the traversal, at its new place [p] when it was
    in the slot [q]. *)
Theorem removeParticle_correct s mem l1 p l2 q :
  pool s mem (l1 ++ p :: l2) ->
  l1 ++ p :: l2 ≡ₚ seq 0 (S q) ->
  pFree s = S q ->
  exists s' mem',
    removeParticle p s = Ok (head (rename q p <$> l2), s') /\
    (head l2 = Some q -> head (rename q p <$> l2) = Some p) /\
    (head l2 <> Some q -> head (rename q p <$> l2) = head l2) /\
    pool s' mem' (rename q p <$> (l1 ++ l2)) /\
    pHead s' = head (rename q p <$> (l1 ++ l2)) /\
    (tail_ok s (l1 ++ p :: l2) -> tail_ok s' (rename q p <$> (l1 ++ l2))) /\
    contents mem' (rename q p <$> (l1 ++ l2)) = contents mem (l1 ++ l2) /\
    (p <> q -> Particle.data <$> mem' !! p = Particle.data <$> mem !! q) /\
    pFree s' = q /\
    activeParticles s' = wrap32 (activeParticles s - 1) /\
    same_emitter s s'.
Proof.
  intros Hpool Hperm Hfree.
  assert (Hnd : NoDup (l1 ++ p :: l2)) by (rewrite Hperm; apply NoDup_seq).
  assert (Hq : q ∈ l1 ++ p :: l2) by (rewrite Hperm, elem_of_seq; lia).
  destruct (removeParticle_spec s mem l1 p l2 q Hpool Hnd Hfree Hq)
    as (s' & mem' & Heq & Hpool' & Hcont & Hlen' & Hfree' & Hact' & Hrng & Hem
        & Ht').
  exists s', mem'. split; [exact Heq|].
  split; [intros Hh; rewrite head_rename, decide_True by exact Hh; reflexivity|].
  split; [intros Hh; rewrite head_rename, decide_False by exact Hh; reflexivity|].
  split; [exact Hpool'|]. split; [eapply pool_head, Hpool'|].
  split; [exact Ht'|]. split; [exact Hcont|].
  split; [|auto].
  intros Hne.
  assert (Hq2 : q ∈ l1 ++ l2).
  { rewrite elem_of_app in Hq. rewrite elem_of_app.
    destruct Hq as [Hq|Hq]; [left; exact Hq|].
    apply elem_of_cons in Hq as [Hq|Hq]; [congruence|right; exact Hq]. }
  apply list_elem_of_lookup in Hq2 as [i Hi].
  assert (Hi' : contents mem' (rename q p <$> (l1 ++ l2)) !! i =
                contents mem (l1 ++ l2) !! i) by (rewrite Hcont; reflexivity).
  unfold contents in Hi'. rewrite !list_lookup_fmap, Hi in Hi'. simpl in Hi'.
  unfold rename in Hi' at 1. rewrite decide_True in Hi' by reflexivity.
  injection Hi' as Hi'. exact Hi'.
Qed.

End Claims.


Section Claims2.

Context {Rng : Type}.
Variable E : Externals Rng.
Implicit Types (s : System Rng) (mem : list Particle.t).

(** C4, amended. [reset] on a system whose buffer is allocated empties the
    pool (no active particle, empty list, free boundary at the start of the
    buffer), zeroes [emitCounter] and puts the remaining life of the emitter
    back to the configured lifetime; it leaves the [active] flag as it was,
    so that the system is stopped afterwards exactly when it was not active
    (the lifetime being a number); and on a system that is not active an
    [update] then changes nothing but [prevPosition]. *)
Theorem reset_effect s :
  pMem s <> None ->
  activeParticles (reset s) = 0 /\
  active_list (reset s) [] /\ pFree (reset s) = 0%nat /\
  pTail (reset s) = None /\
  emitCounter (reset s) = f0 /\
  life (reset s) = lifetime s /\ lifetime (reset s) = lifetime s /\
  active (reset s) = active s /\
  (is_nan (lifetime s) = false -> isStopped (reset s) = negb (active s)) /\
  (active s = false ->
   forall fuel dt,
     update E fuel dt (reset s) =
     Ok (if feq dt f0 then reset s
         else set_prevPosition (position (reset s)) (reset s))).
Proof.
  intros Hm. unfold reset. destruct (pMem s) as [mem|] eqn:Hmem; [|contradiction].
  simpl. repeat split.
  - exists mem. split; [exact Hmem|reflexivity].
  - intros Hnan. unfold isStopped. simpl. rewrite fle_refl by exact Hnan.
    apply andb_true_r.
  - intros Hact fuel dt. unfold update, update_counting. simpl.
    rewrite Hmem. destruct (feq dt f0); [reflexivity|].
    destruct fuel; simpl; unfold update_emitter; simpl; rewrite Hact;
      reflexivity.
Qed.

(** C8, amended. [stop] clears the [active] flag, puts the remaining life
    back to the configured lifetime and zeroes [emitCounter]; the count of
    active particles, the buffer with every particle in it, the list and
    the free boundary are what they were; and the system is then reported
    as stopped whenever the configured lifetime is a number: with a NaN
    lifetime, which [setEmitterLifetime] accepts, [isStopped] stays
    false. *)
Theorem stop_effect s :
  active (stop s) = false /\ life (stop s) = lifetime s /\
  lifetime (stop s) = lifetime s /\ emitCounter (stop s) = f0 /\
  activeParticles (stop s) = activeParticles s /\
  pMem (stop s) = pMem s /\ pHead (stop s) = pHead s /\
  pTail (stop s) = pTail s /\ pFree (stop s) = pFree s /\
  (forall l, active_list (stop s) l <-> active_list s l) /\
  (is_nan (lifetime s) = false -> isStopped (stop s) = true) /\
  (is_nan (lifetime s) = true -> isStopped (stop s) = false).
Proof.
  repeat split; try (intros H; exact H).
  - intros Hnan. unfold isStopped. simpl. apply fle_refl, Hnan.
  - intros Hnan. unfold isStopped. simpl.
    destruct (lifetime s); try discriminate. reflexivity.
Qed.

(** C10. [setParticleLifetime min max] with [max == 0] sets both the
    minimum and the maximum lifetime of the particles to [min]; with any
    other [max] it sets the minimum to [min] and the maximum to [max]. *)
Theorem setParticleLifetime_effect min max s :
  particleLifeMin (params (setParticleLifetime min max s)) = min /\
  (feq max f0 = true ->
   particleLifeMax (params (setParticleLifetime min max s)) = min) /\
  (feq max f0 = false ->
   particleLifeMax (params (setParticleLifetime min max s)) = max).
Proof.
  unfold setParticleLifetime. destruct (feq max f0); simpl.
  - repeat split. discriminate.
  - repeat split. discriminate.
Qed.

End Claims2.

Section Claims3.

Context {Rng : Type}.
Variable E : Externals Rng.
Implicit Types (s : System Rng) (mem : list Particle.t).

(** *** The emission rate zero *)

(** With the rate [+0.0] the interval is [+infinity]: the loop of the
    scheduler is not entered, whatever the fuel. *)
Lemma zero_rate_no_emission fuel dt s :
  active s = true -> emissionRate s = f0 ->
  exists s',
    update_emitter E fuel dt s = Ok (s', O) /\
    pMem s' = pMem s /\ pHead s' = pHead s /\ pFree s' = pFree s /\
    activeParticles s' = activeParticles s.
Proof.
  intros Hact Hrate. unfold update_emitter. rewrite Hact, Hrate.
  change (fdiv f1 f0) with (S754_infinity false).
  assert (Hloop : forall s0 total,
            emit_pending E fuel (S754_infinity false) total s0 = Ok (s0, O)).
  { intros s0 total. destruct fuel; simpl; rewrite fgt_inf; reflexivity. }
  rewrite Hloop. simpl. eexists. split; [reflexivity|].
  destruct (_ && _); repeat split.
Qed.

(** With the rate [-0.0] the interval is [-infinity]: once entered, the
    loop of the scheduler is never left. *)
Lemma emit_pending_forever fuel total s r :
  fgt (emitCounter s) (S754_infinity true) = true ->
  emit_pending E fuel (S754_infinity true) total s <> Ok r.
Proof.
  revert s r. induction fuel as [|fuel IH]; intros s r Hgt; simpl; rewrite Hgt.
  - discriminate.
  - intros H. apply bind_Ok in H as (s1 & Hadd & H).
    apply bind_Ok in H as (r1 & Hrec & _).
    apply addParticle_frame in Hadd as [(_ & _ & _ & _ & Hec & _) _].
    apply IH in Hrec; [exact Hrec|]. simpl. rewrite Hec.
    destruct (emitCounter s) as [b|b| |b m e]; try discriminate; try reflexivity.
    destruct b; [discriminate|reflexivity].
Qed.

Lemma negative_zero_rate_never_returns fuel dt s s' :
  pMem s <> None -> feq dt f0 = false -> active s = true ->
  emissionRate s = S754_zero true ->
  fgt (fadd (emitCounter s) dt) (S754_infinity true) = true ->
  update E fuel dt s <> Ok s'.
Proof.
  intros Hm Hdt Hact Hrate Hgt. unfold update, update_counting. intros H.
  apply bind_Ok in H as (r & H & _).
  destruct (pMem s); [|contradiction]. rewrite Hdt in H.
  apply bind_Ok in H as (s1 & Htrav & H).
  apply bind_Ok in H as (r1 & Hem & _).
  apply update_particles_frame in Htrav
    as [(Ha & _ & _ & Hr & Hec & _) _].
  unfold update_emitter in Hem. rewrite Ha, Hact, Hr, Hrate in Hem.
  change (fdiv f1 (S754_zero true)) with (S754_infinity true) in Hem.
  apply bind_Ok in Hem as (r2 & Hloop & _).
  apply emit_pending_forever in Hloop; [exact Hloop|].
  simpl. rewrite Hec. exact Hgt.
Qed.

(** *** The two ends of the curves *)

Lemma plain_valid x :
  plain x = true -> valid_float x = true /\ is_finite x = true.
Proof.
  unfold plain. intros H. apply andb_true_iff in H as [H _].
  apply andb_true_iff in H. exact H.
Qed.

(** [a * (1.0f - 0) + b * 0] is [a]. *)
Lemma lerp_first a b :
  plain a = true -> is_finite b = true ->
  fadd (fmul a (fsub f1 f0)) (fmul b f0) = a.
Proof.
  intros Ha Hb. change (fsub f1 f0) with f1.
  destruct (plain_valid a Ha) as [Hv _]. rewrite (fmul_1_r a Hv).
  destruct (fmul_0_r b Hb) as [sb ->].
  destruct a as [sa|sa| |sa m e]; try discriminate.
  - destruct sa; [discriminate|]. destruct sb; reflexivity.
  - reflexivity.
Qed.

Lemma lerp_first_color a b :
  plain_color a = true -> plain_color b = true ->
  cadd (cscale a (fsub f1 f0)) (cscale b f0) = a.
Proof.
  unfold plain_color. intros Ha Hb.
  apply andb_true_iff in Ha as [Ha Ha4]. apply andb_true_iff in Ha as [Ha Ha3].
  apply andb_true_iff in Ha as [Ha1 Ha2].
  apply andb_true_iff in Hb as [Hb Hb4]. apply andb_true_iff in Hb as [Hb Hb3].
  apply andb_true_iff in Hb as [Hb1 Hb2].
  destruct a as [ar ag ab aa], b as [br bg bb ba]. unfold cadd, cscale.
  cbn [cr cg cb ca] in *.
  f_equal; apply lerp_first; try assumption; eapply plain_valid; eassumption.
Qed.

Lemma index_Some {A : Type} (v : list A) (i : nat) (a : A) :
  v !! i = Some a -> index v (Z.of_nat i) = Ok a.
Proof. intros H. unfold index. rewrite Nat2Z.id, H. reflexivity. Qed.

Lemma wrap64_small z : 0 <= z < 2 ^ 64 -> wrap64 z = z.
Proof. intros H. unfold wrap64. apply Z.mod_small. exact H. Qed.

(** The index arithmetic of the two curves at [s = 0] and at
    [s = (float)(n - 1)], for [n] control points. *)
Lemma curve_start {A : Type} (v : list A) (a : A) :
  head v = Some a -> vsize v <= 2 ^ 24 ->
  let n1 := wrap64 (vsize v - 1) in
  fmul f0 (float_of_Z n1) = f0 /\
  exists b, index v 0 = Ok a /\
            index v (if 0 =? n1 then 0 else wrap64 (0 + 1)) = Ok b /\
            b ∈ v.
Proof.
  intros Hh Hn. destruct v as [|a' v]; [discriminate|]. injection Hh as ->.
  unfold vsize in *. cbn [length] in *.
  assert (Hw : wrap64 (Z.of_nat (S (length v)) - 1) = Z.of_nat (length v))
    by (rewrite wrap64_small; lia).
  cbn zeta. rewrite Hw.
  split; [apply float_of_Z_roundtrip; lia|].
  destruct v as [|b v].
  - exists a. simpl. repeat split. left.
  - exists b. split; [reflexivity|].
    replace (0 =? Z.of_nat (length (b :: v))) with false
      by (symmetry; apply Z.eqb_neq; simpl; lia).
    split; [reflexivity|]. right; left.
Qed.

Lemma curve_end {A : Type} (v : list A) (a : A) :
  last v = Some a -> vsize v <= 2 ^ 24 ->
  let n1 := wrap64 (vsize v - 1) in
  let F := float_of_Z n1 in
  fmul f1 F = F /\ size_t_of_float F = Ok n1 /\
  fsub F (float_of_Z n1) = f0 /\ index v n1 = Ok a.
Proof.
  intros Hl Hn. unfold vsize in *.
  assert (Hlen : (0 < length v)%nat).
  { destruct v; [discriminate|simpl; lia]. }
  assert (Hw : wrap64 (Z.of_nat (length v) - 1) = Z.of_nat (pred (length v)))
    by (rewrite wrap64_small; lia).
  cbn zeta. rewrite Hw.
  destruct (float_of_Z_roundtrip (Z.of_nat (pred (length v))))
    as (Hrt & Hv & Hf & _); [lia|].
  split; [apply fmul_1_l, Hv|]. split; [exact Hrt|].
  split; [apply fsub_self, Hf|].
  apply index_Some. rewrite <- last_lookup. exact Hl.
Qed.

(** [a * (1.0f - s) + a * s] is [a] when [s] is a zero. *)
Lemma lerp_same a sb :
  plain a = true ->
  fadd (fmul a (fsub f1 (S754_zero sb))) (fmul a (S754_zero sb)) = a.
Proof.
  intros Ha. destruct (plain_valid a Ha) as [Hv Hf].
  replace (fsub f1 (S754_zero sb)) with f1 by (destruct sb; reflexivity).
  rewrite (fmul_1_r a Hv).
  destruct a as [sa|sa| |sa m e]; try discriminate.
  - destruct sa; [discriminate|]. destruct sb; reflexivity.
  - reflexivity.
Qed.

(** The index arithmetic of a curve of one control point, at any finite
    [s]. *)
Lemma curve_single (x : float) :
  is_finite x = true ->
  exists sb,
    size_t_of_float (fmul x (float_of_Z 0)) = Ok 0 /\
    fsub (fmul x (float_of_Z 0)) (float_of_Z 0) = S754_zero sb.
Proof.
  intros Hx. destruct (fmul_0_r x Hx) as [s Hs].
  change (float_of_Z 0) with f0. rewrite Hs.
  destruct s; eexists; split; reflexivity.
Qed.

(** C7, amended. For curves of at most [2^24] control points that are
    finite and not the negative zero: the colour evaluated at [t = 0] is
    exactly the first control point and at [t = 1] exactly the last one;
    the same holds for the size of a particle whose window on the size
    curve is the whole curve ([sizeOffset = 0], [sizeIntervalSize = 1]);
    at [t = 1] the two indices read are both the last one; and a curve of
    one point is constant: it gives that point at every finite age, for
    every window. *)
Theorem curve_boundaries (sizes : list float) (colors : list Colorf)
  (z0 zl : float) (c0 cl : Colorf) :
  head sizes = Some z0 -> last sizes = Some zl ->
  head colors = Some c0 -> last colors = Some cl ->
  vsize sizes <= 2 ^ 24 -> vsize colors <= 2 ^ 24 ->
  Forall (fun x => plain x = true) sizes ->
  Forall (fun c => plain_color c = true) colors ->
  evalSize sizes f0 f1 f0 = Ok z0 /\ evalSize sizes f0 f1 f1 = Ok zl /\
  evalColor colors f0 = Ok c0 /\ evalColor colors f1 = Ok cl /\
  (forall z sizeOffset sizeIntervalSize t,
     plain z = true ->
     is_finite (fadd sizeOffset (fmul t sizeIntervalSize)) = true ->
     evalSize [z] sizeOffset sizeIntervalSize t = Ok z) /\
  (forall c t,
     plain_color c = true -> is_finite t = true -> evalColor [c] t = Ok c).
Proof.
  intros Hs0 Hsl Hc0 Hcl Hns Hnc Hps Hpc.
  rewrite Forall_forall in Hps. rewrite Forall_forall in Hpc.
  assert (Hps0 : plain z0 = true) by (apply Hps, head_Some_elem_of, Hs0).
  assert (Hpsl : plain zl = true) by (apply Hps, last_Some_elem_of, Hsl).
  assert (Hpc0 : plain_color c0 = true) by (apply Hpc, head_Some_elem_of, Hc0).
  assert (Hpcl : plain_color cl = true) by (apply Hpc, last_Some_elem_of, Hcl).
  destruct (curve_start sizes z0 Hs0 Hns) as (Hz & b & Hi0 & Hik & Hb).
  destruct (curve_end sizes zl Hsl Hns) as (Hone & Hrt & Hself & Hil).
  destruct (curve_start colors c0 Hc0 Hnc) as (Hz' & b' & Hi0' & Hik' & Hb').
  destruct (curve_end colors cl Hcl Hnc) as (Hone' & Hrt' & Hself' & Hil').
  cbn zeta in *.
  split; [|split; [|split; [|split; [|split]]]].
  - unfold evalSize. change (fadd f0 (fmul f0 f1)) with f0. rewrite Hz.
    change (size_t_of_float f0) with (@Ok Z 0). cbn [bind].
    rewrite Hi0, Hik. cbn [bind]. change (fsub f0 (float_of_Z 0)) with f0.
    f_equal. apply lerp_first; [exact Hps0|].
    eapply plain_valid, Hps, Hb.
  - unfold evalSize. change (fadd f0 (fmul f1 f1)) with f1.
    rewrite Hone, Hrt. cbn [bind]. rewrite Z.eqb_refl, Hself, Hil. cbn [bind].
    f_equal. apply lerp_first; [exact Hpsl|]. eapply plain_valid, Hpsl.
  - unfold evalColor. rewrite Hz'.
    change (size_t_of_float f0) with (@Ok Z 0). cbn [bind].
    rewrite Hi0', Hik'. cbn [bind]. change (fsub f0 (float_of_Z 0)) with f0.
    f_equal. apply lerp_first_color; [exact Hpc0|]. apply Hpc, Hb'.
  - unfold evalColor. rewrite Hone', Hrt'. cbn [bind].
    rewrite Z.eqb_refl, Hself', Hil'. cbn [bind].
    f_equal. apply lerp_first_color; assumption.
  - intros z off ivl t Hz1 Hfin. unfold evalSize.
    change (wrap64 (vsize [z] - 1)) with 0.
    destruct (curve_single _ Hfin) as (sb & Hst & Hsub).
    cbn zeta. rewrite Hst. cbn [bind]. rewrite Hsub.
    cbn [Z.eqb]. change (index [z] 0) with (Ok z). cbn [bind].
    f_equal. apply lerp_same, Hz1.
  - intros c t Hc1 Hfin. unfold evalColor.
    change (wrap64 (vsize [c] - 1)) with 0.
    destruct (curve_single _ Hfin) as (sb & Hst & Hsub).
    cbn zeta. rewrite Hst. cbn [bind]. rewrite Hsub.
    cbn [Z.eqb]. change (index [c] 0) with (Ok c). cbn [bind].
    f_equal. unfold plain_color in Hc1.
    apply andb_true_iff in Hc1 as [Hc1 H4].
    apply andb_true_iff in Hc1 as [Hc1 H3].
    apply andb_true_iff in Hc1 as [H1 H2].
    destruct c as [r g b0 a]. unfold cadd, cscale. cbn [cr cg cb ca] in *.
    f_equal; apply lerp_same; assumption.
Qed.

(** C9, amended. The initial size is read at the index
    [(size_t)(sizeOffset - .5f) * (n - 1)], computed without any clamp: the
    index is inside the array of [n >= 1] sizes whenever the truncation of
    [sizeOffset - .5f] is 0 or 1, and it is 0 for every [sizeOffset] from 0
    to 1, the interval in which a size variation between 0 and 1 draws
    it. *)
Theorem initial_size_index (sizeOffset : float) (sizes : list float) z :
  size_t_of_float (fsub sizeOffset fhalf) = Ok z -> z <= 1 ->
  1 <= vsize sizes < 2 ^ 64 ->
  (exists v,
     initialSizeIndex sizeOffset sizes = Ok (z * (vsize sizes - 1)) /\
     index sizes (z * (vsize sizes - 1)) = Ok v) /\
  initialSizeIndex f0 sizes = Ok 0 /\ initialSizeIndex f1 sizes = Ok 0 /\
  (forall offset,
     valid_float offset = true -> fle f0 offset = true ->
     fle offset f1 = true ->
     initialSizeIndex offset sizes = Ok 0 /\
     exists v, index sizes 0 = Ok v).
Proof.
  intros Hz Hle Hn.
  assert (Hz0 : 0 <= z).
  { unfold size_t_of_float in Hz. destruct (ftrunc _); [|discriminate].
    destruct (0 <=? z0) eqn:H0; [|discriminate].
    destruct (z0 <? 2 ^ 64); [|discriminate].
    injection Hz as <-. apply Z.leb_le, H0. }
  assert (Hunit : forall offset,
             valid_float offset = true -> fle f0 offset = true ->
             fle offset f1 = true -> initialSizeIndex offset sizes = Ok 0).
  { intros offset Hv H0 H1. unfold initialSizeIndex.
    rewrite (half_below_unit offset Hv H0 H1). cbn [bind].
    rewrite Z.mul_0_l. reflexivity. }
  split; [|split; [|split]].
  - unfold initialSizeIndex. rewrite Hz. cbn [bind].
    rewrite (wrap64_small (vsize sizes - 1)) by lia.
    rewrite wrap64_small by nia.
    unfold vsize in *.
    destruct (lookup_lt_is_Some_2 sizes (Z.to_nat (z * (Z.of_nat (length sizes) - 1))))
      as [v Hv]; [nia|].
    exists v. split; [reflexivity|]. unfold index. rewrite Hv. reflexivity.
  - apply Hunit; reflexivity.
  - apply Hunit; [reflexivity|reflexivity|]. rewrite f1_bits. reflexivity.
  - intros offset Hv H0 H1. split; [apply Hunit; assumption|].
    unfold vsize in Hn. destruct sizes as [|v sizes]; [simpl in Hn; lia|].
    exists v. reflexivity.
Qed.

End Claims3.

(** ** The emission scheduler and the countdown of the emitter *)





Section EmissionLaw.

Context {Rng : Type}.
Variable E : Externals Rng.
Hypothesis random_zero : forall g, fst (rng_random_max E f0 g) = f0.
Implicit Types (s : System Rng).









End EmissionLaw.

(** ** The properties on concrete systems *)

Ltac run_system name s H :=
  destruct name as [s| | |] eqn:H; try (vm_compute in H; discriminate);
  vm_compute in H; injection H as <-.

Lemma removeParticle_correct_witness :
  match three_particles with
  | Ok s =>
      match pMem s with
      | Some mem =>
          pool s mem ([] ++ 0%nat :: [1%nat; 2%nat]) /\
          exists s', removeParticle 0 s = Ok (Some 1%nat, s') /\
                     pFree s' = 2%nat /\ pHead s' = Some 1%nat
      | None => False
      end
  | _ => False
  end.
Proof.
  run_system three_particles s H. cbn [pMem].
  match goal with
  | |- pool ?s ?mem ?l /\ _ =>
      assert (Hpool : pool s mem l)
        by (repeat first [reflexivity | split | eexists]);
      split; [exact Hpool|];
      destruct (removeParticle_correct s mem [] 0%nat [1%nat; 2%nat] 2%nat)
        as (s' & mem' & Heq & _ & _ & _ & Hh & _ & _ & _ & Hf & _);
      [exact Hpool|reflexivity|reflexivity|]
  end.
  exists s'. split; [exact Heq|]. split; [exact Hf|exact Hh].
Defined.


Lemma reset_leaves_active :
  match three_particles with
  | Ok s => active (reset s) = true /\ isStopped (reset s) = false
  | _ => False
  end.
Proof. vm_compute. split; reflexivity. Qed.

Lemma reset_effect_witness :
  match three_particles with
  | Ok s =>
      pMem s <> None /\ activeParticles s = 3 /\
      activeParticles (reset s) = 0 /\ active_list (reset s) [] /\
      emitCounter (reset s) = f0 /\ life (reset s) = lifetime s
  | _ => False
  end.
Proof.
  run_system three_particles s H.
  match goal with
  | |- pMem ?s <> None /\ _ =>
      assert (Hm : pMem s <> None) by discriminate;
      destruct (reset_effect test_externals s Hm)
        as (H1 & H2 & _ & _ & H3 & H4 & _)
  end.
  split; [exact Hm|]. split; [reflexivity|]. auto.
Defined.



(** C6. The emission rate [-0.0] is equal to zero and [setEmissionRate]
    accepts it; [update] then enters the loop of the scheduler, which spawns
    a particle, and never returns, whatever the fuel. *)
Theorem negative_zero_rate_hangs :
  feq (S754_zero true) f0 = true /\
  match negative_zero_rate with
  | Ok s =>
      emissionRate s = S754_zero true /\ active s = true /\
      (forall fuel s', update test_externals fuel ftenth s <> Ok s') /\
      let s1 := set_emitCounter (fadd (emitCounter s) ftenth) s in
      fgt (emitCounter s1) (fdiv f1 (emissionRate s1)) = true /\
      match addParticle test_externals f1 s1 with
      | Ok s2 => activeParticles s1 = 0 /\ activeParticles s2 = 1
      | _ => False
      end
  | _ => False
  end.
Proof.
  split; [reflexivity|].
  run_system negative_zero_rate s H.
  split; [reflexivity|]. split; [reflexivity|]. split.
  - intros fuel s'. apply negative_zero_rate_never_returns; try reflexivity.
    discriminate.
  - vm_compute. repeat split.
Qed.

Lemma size_window_counterexample :
  head [f1; f2] = Some f1 /\ last [f1; f2] = Some f2 /\
  evalSize [f1; f2] fhalf f0 f0 = Ok fthree_halves /\
  evalSize [f1; f2] fhalf f0 f1 = Ok fthree_halves /\
  fthree_halves <> f1 /\ fthree_halves <> f2 /\
  match windowed_particle with
  | Ok s =>
      match load s 0 with
      | Ok v =>
          Particle.sizeOffset v = fhalf /\ Particle.sizeIntervalSize v = f0
      | _ => False
      end
  | _ => False
  end.
Proof. vm_compute. repeat split; discriminate. Qed.

Lemma curve_boundaries_witness :
  evalSize [f1; f2; f10] f0 f1 f0 = Ok f1 /\
  evalSize [f1; f2; f10] f0 f1 f1 = Ok f10 /\
  evalColor [mkColorf f1 f1 f1 f1; colorToFloat (mkColor 255 128 0 64)] f0 =
    Ok (mkColorf f1 f1 f1 f1) /\
  evalColor [mkColorf f1 f1 f1 f1; colorToFloat (mkColor 255 128 0 64)] f1 =
    Ok (colorToFloat (mkColor 255 128 0 64)) /\
  evalSize [f10] fhalf ftenth fhalf = Ok f10 /\
  evalColor [colorToFloat (mkColor 255 128 0 64)] ftenth =
    Ok (colorToFloat (mkColor 255 128 0 64)).
Proof.
  destruct (curve_boundaries [f1; f2; f10]
              [mkColorf f1 f1 f1 f1; colorToFloat (mkColor 255 128 0 64)]
              f1 f10 (mkColorf f1 f1 f1 f1)
              (colorToFloat (mkColor 255 128 0 64)))
    as (H1 & H2 & H3 & H4 & H5 & H6).
  - reflexivity.
  - reflexivity.
  - reflexivity.
  - reflexivity.
  - vm_compute. discriminate.
  - vm_compute. discriminate.
  - repeat constructor.
  - repeat constructor.
  - split; [exact H1|]. split; [exact H2|]. split; [exact H3|].
    split; [exact H4|]. split; [apply H5; reflexivity|apply H6; reflexivity].
Defined.

Lemma stop_effect_witness :
  match running_emitter with
  | Ok s =>
      active s = true /\ activeParticles s = 2 /\ emitCounter s <> f0 /\
      life s <> lifetime s /\
      isStopped (stop s) = true /\ life (stop s) = lifetime s /\
      emitCounter (stop s) = f0 /\ activeParticles (stop s) = 2 /\
      pMem (stop s) = pMem s /\ active_list (stop s) [0; 1]%nat
  | _ => False
  end.
Proof.
  run_system running_emitter s H.
  match goal with
  | |- active ?s = true /\ _ =>
      destruct (stop_effect s)
        as (_ & H0 & _ & H1 & H2 & H3 & _ & _ & _ & H4 & H5 & _)
  end.
  split; [reflexivity|]. split; [reflexivity|].
  split; [discriminate|]. split; [discriminate|].
  split; [apply H5; reflexivity|]. split; [exact H0|]. split; [exact H1|].
  split; [exact H2|]. split; [exact H3|]. apply H4.
  eexists. split; [reflexivity|].
  repeat first [reflexivity | split | eexists].
Defined.

Lemma stop_nan_lifetime :
  match nan_lifetime with
  | Ok s =>
      isActive (stop s) = false /\ isPaused (stop s) = false /\
      isStopped (stop s) = false
  | _ => False
  end.
Proof. vm_compute. repeat split. Qed.

Lemma initial_size_overrun :
  initialSizeIndex (float_of_Z 3) [f1; f2] = Ok 2 /\
  index [f1; f2] 2 = Undefined /\
  (s <- fresh_system ;;
   run test_externals 4
     [CallSetSizes [f1; f2]; CallSetSizeVariation (float_of_Z 6); CallEmit 1]
     s) = Undefined.
Proof. vm_compute. repeat split. Qed.

Lemma initial_size_index_witness :
  size_t_of_float (fsub fthree_halves fhalf) = Ok 1 /\
  (exists v,
     initialSizeIndex fthree_halves [f1; f2; f10] = Ok (1 * (3 - 1)) /\
     index [f1; f2; f10] (1 * (3 - 1)) = Ok v) /\
  fle f0 ftenth = true /\ fle ftenth f1 = true /\
  initialSizeIndex ftenth [f1; f2; f10] = Ok 0.
Proof.
  split; [reflexivity|].
  destruct (initial_size_index fthree_halves [f1; f2; f10] 1)
    as (H & _ & _ & Hunit);
    [reflexivity|lia|vm_compute; split; [discriminate|reflexivity]|].
  split; [exact H|]. split; [reflexivity|]. split; [reflexivity|].
  apply (Hunit ftenth); reflexivity.
Defined.

Lemma setParticleLifetime_effect_witness :
  match fresh_system with
  | Ok s =>
      feq (S754_zero true) f0 = true /\
      particleLifeMax (params (setParticleLifetime f2 (S754_zero true) s)) = f2 /\
      feq f10 f0 = false /\
      particleLifeMax (params (setParticleLifetime f2 f10 s)) = f10
  | _ => False
  end.
Proof.
  run_system fresh_system s H.
  match goal with
  | |- _ /\ particleLifeMax (params (setParticleLifetime _ _ ?s)) = _ /\ _ =>
      destruct (setParticleLifetime_effect f2 (S754_zero true) s) as (_ & H1 & _);
      destruct (setParticleLifetime_effect f2 f10 s) as (_ & _ & H2)
  end.
  split; [reflexivity|]. split; [apply H1; reflexivity|].
  split; [reflexivity|apply H2; reflexivity].
Defined.


(** ** The three insertions *)

Ltac by_decide := apply (bool_decide_unpack _); vm_compute; exact I.

Lemma three_particles_state :
  exists s mem,
    three_particles = Ok s /\ pool s mem [0; 1; 2]%nat /\
    tail_ok s [0; 1; 2]%nat /\ length mem = 4%nat /\ pFree s = 3%nat /\
    activeParticles s = 3 /\ maxParticles s = 4 /\ active s = true /\
    insertMode s = INSERT_MODE_TOP /\
    exists s', emit test_externals 5 s = Ok s'.
Proof.
  destruct three_particles as [s| | |] eqn:H;
    try (vm_compute in H; discriminate).
  vm_compute in H. injection H as <-.
  eexists _, _. split; [reflexivity|].
  split; [repeat first [reflexivity | split | eexists]|].
  repeat split. eexists. vm_compute. reflexivity.
Qed.

Lemma three_particles_inv s :
  three_particles = Ok s -> pool_inv s.
Proof.
  intros H.
  destruct three_particles_state
    as (s0 & mem & H0 & Hp & Ht & Hlen & Hf & Ha & Hmx & _).
  assert (s0 = s) by congruence. subst s0.
  exists mem, [0; 1; 2]%nat. rewrite Hf, Hlen, Hmx, Ha.
  split; [exact Hp|]. split; [reflexivity|]. split; [lia|].
  split; [reflexivity|]. split; [lia|]. split; [reflexivity|].
  intros _. exact Ht.
Qed.

Lemma random_first_state :
  exists s v,
    random_first = Ok s /\ pHead s = Some 0%nat /\ pTail s = None /\
    activeParticles s = 1 /\ load s 1 = Ok v.
Proof.
  destruct random_first as [s| | |] eqn:H;
    try (vm_compute in H; discriminate).
  vm_compute in H. injection H as <-.
  eexists _, _. repeat split.
Qed.

Section Insertions.

Context {Rng : Type}.
Variable E : Externals Rng.
Implicit Types (s : System Rng) (mem : list Particle.t) (l : list nat).

(** X1. [insertTop] puts the slot [p] at the end of a well-linked list: the
    list from the head becomes [l ++ [p]], linked in both directions,
    [pTail] is [p], and no particle's data, count or boundary changes. *)
Theorem insertTop_appends s mem l p :
  pool s mem l -> tail_ok s l -> NoDup l -> p ∉ l -> (p < length mem)%nat ->
  exists s' mem',
    insertTop p s = Ok s' /\ pool s' mem' (l ++ [p]) /\ pTail s' = Some p /\
    only_links mem mem' /\ pFree s' = pFree s /\
    activeParticles s' = activeParticles s.
Proof.
  intros Hp Ht Hnd Hin Hlt.
  destruct (insertTop_spec s mem l p Hp Ht Hnd Hin Hlt)
    as (s' & mem' & Hr & Hp' & Ht' & Hl & Hf & Ha & _).
  exists s', mem'. repeat split; try assumption.
  - apply Hp'.
  - apply Hp'.
  - apply Hp'.
  - unfold tail_ok in Ht'. rewrite Ht'. apply last_snoc.
  - apply Hl.
  - apply Hl.
Qed.

(** X2. [insertBottom] puts the slot [p] at the front of a well-linked
    list: the list from the head becomes [p :: l], linked in both
    directions, [pHead] is [p] and [pTail] stays on the last slot. *)
Theorem insertBottom_prepends s mem l p :
  pool s mem l -> tail_ok s l -> NoDup l -> p ∉ l -> (p < length mem)%nat ->
  exists s' mem',
    insertBottom p s = Ok s' /\ pool s' mem' (p :: l) /\ pHead s' = Some p /\
    pTail s' = last (p :: l) /\ only_links mem mem' /\ pFree s' = pFree s /\
    activeParticles s' = activeParticles s.
Proof.
  intros Hp Ht Hnd Hin Hlt.
  destruct (insertBottom_spec s mem l p Hp Ht Hnd Hin Hlt)
    as (s' & mem' & Hr & Hp' & Ht' & Hl & Hf & Ha & _).
  exists s', mem'.
  split; [exact Hr|]. split; [exact Hp'|].
  split; [exact (pool_head _ _ _ Hp')|]. split; [exact Ht'|].
  split; [exact Hl|]. split; assumption.
Qed.

(** X3. [insertRandom] links the slot [p] into a well-linked list of the
    slots below [activeParticles]: the result is again linked in both
    directions and holds [p] and the slots of [l], each once; a tail
    pointer that was on the last slot of a list that is not empty is on
    the last slot afterwards. *)
Theorem insertRandom_links s mem l p :
  pool s mem l -> NoDup l -> p ∉ l -> (p < length mem)%nat ->
  0 <= activeParticles s ->
  (forall x : nat, Z.of_nat x < activeParticles s -> x ∈ l) ->
  exists s' mem' l',
    insertRandom E p s = Ok s' /\ pool s' mem' l' /\ l' ≡ₚ p :: l /\
    NoDup l' /\
    (l <> [] -> pTail s = last l -> pTail s' = last l') /\
    only_links mem mem' /\ pFree s' = pFree s /\
    activeParticles s' = activeParticles s.
Proof.
  intros Hp Hnd Hin Hlt Ha Hall.
  destruct (insertRandom_spec E s mem l p Hp Hnd Hin Hlt Ha Hall)
    as (s' & mem' & l' & Hr & Hp' & Hperm & Ht & Hl & Hf & Hc & _).
  exists s', mem', l'. repeat split; try assumption.
  - apply Hp'.
  - apply Hp'.
  - apply Hp'.
  - rewrite Hperm. apply NoDup_cons. split; assumption.
  - apply Hl.
  - apply Hl.
Qed.

(** X4. On an empty list [insertRandom] takes the branch that inserts
    before the head, which never assigns [pTail]: the slot becomes the head
    of the list with both links null, and [pTail] keeps the value it had,
    null for an empty list. *)
Theorem insertRandom_empty_keeps_tail s p v :
  pHead s = None -> activeParticles s = 0 -> load s p = Ok v ->
  exists s',
    insertRandom E p s = Ok s' /\ pHead s' = Some p /\ pTail s' = pTail s /\
    load s' p = Ok (Particle.set_next None (Particle.set_prev None v)) /\
    active_list s' [p].
Proof.
  intros Hh Ha Hv. unfold insertRandom.
  destruct (rng_rand E (rng s)) as [r g].
  cbn [activeParticles set_rng]. rewrite Ha.
  replace (wrap64 r mod (0 + 1)) with 0 by (symmetry; apply Z.mod_1_r).
  cbn [Z.eqb pHead set_rng]. rewrite Hh. cbn [bind].
  apply load_Ok in Hv as (mem & Hm & Hv).
  assert (Hlt : (p < length mem)%nat) by (eapply lookup_lt_Some; exact Hv).
  assert (Hm1 : pMem (set_rng g s) = Some mem) by exact Hm.
  rewrite (modify_Some _ mem p v _ Hm1 Hv). cbn [bind].
  erewrite (modify_Some _ (<[p:=Particle.set_prev None v]> mem) p
              (Particle.set_prev None v));
    [|reflexivity|apply list_lookup_insert_eq; exact Hlt].
  cbn [bind]. rewrite list_insert_insert_eq.
  assert (Hlast : <[p:=Particle.set_next None (Particle.set_prev None v)]> mem
                    !! p =
                  Some (Particle.set_next None (Particle.set_prev None v)))
    by (apply list_lookup_insert_eq; exact Hlt).
  eexists. split; [reflexivity|]. split; [reflexivity|].
  split; [reflexivity|]. split.
  - unfold load. cbn [pMem set_pHead set_pMem]. rewrite Hlast. reflexivity.
  - eexists. split; [reflexivity|]. cbn [seg]. split; [reflexivity|].
    eexists. split; [exact Hlast|reflexivity].
Qed.

(** X5. [insertBottom] trusts [pTail]: when it is null, as [insertRandom]
    leaves it after the first insertion, the slot [p] becomes the whole
    list, whatever [pHead] pointed to, and the particles that were linked
    from the head are no longer reached by [update] or [draw]. *)
Theorem insertBottom_null_tail_drops_list s p v :
  pTail s = None -> load s p = Ok v ->
  exists s',
    insertBottom p s = Ok s' /\ pHead s' = Some p /\ pTail s' = Some p /\
    active_list s' [p] /\ activeParticles s' = activeParticles s.
Proof.
  intros Ht Hv. unfold insertBottom. rewrite Ht.
  apply load_Ok in Hv as (mem & Hm & Hv).
  assert (Hlt : (p < length mem)%nat) by (eapply lookup_lt_Some; exact Hv).
  assert (Hm1 : pMem (set_pTail (Some p) s) = Some mem) by exact Hm.
  rewrite (modify_Some _ mem p v _ Hm1 Hv). cbn [bind].
  erewrite (modify_Some _ (<[p:=Particle.set_next None v]> mem) p
              (Particle.set_next None v));
    [|reflexivity|apply list_lookup_insert_eq; exact Hlt].
  cbn [bind]. rewrite list_insert_insert_eq.
  eexists. split; [reflexivity|]. split; [reflexivity|].
  split; [reflexivity|]. split; [|reflexivity].
  eexists. split; [reflexivity|]. cbn [seg]. split; [reflexivity|].
  eexists. split; [apply list_lookup_insert_eq; exact Hlt|reflexivity].
Qed.

End Insertions.

Lemma insertTop_appends_witness :
  exists s s',
    three_particles = Ok s /\ insertTop 3 s = Ok s' /\ pTail s' = Some 3%nat.
Proof.
  destruct three_particles_state as (s & mem & H & Hp & Ht & Hlen & _).
  destruct (insertTop_appends s mem [0; 1; 2]%nat 3 Hp Ht)
    as (s' & mem' & Hr & _ & Htl & _);
    [by_decide|by_decide|rewrite Hlen; lia|].
  exists s, s'. auto.
Defined.

Lemma insertBottom_prepends_witness :
  exists s s',
    three_particles = Ok s /\ insertBottom 3 s = Ok s' /\
    pHead s' = Some 3%nat /\ pTail s' = Some 2%nat.
Proof.
  destruct three_particles_state as (s & mem & H & Hp & Ht & Hlen & _).
  destruct (insertBottom_prepends s mem [0; 1; 2]%nat 3 Hp Ht)
    as (s' & mem' & Hr & _ & Hh & Htl & _);
    [by_decide|by_decide|rewrite Hlen; lia|].
  exists s, s'. auto.
Defined.

Lemma insertRandom_links_witness :
  exists s s' l',
    three_particles = Ok s /\ insertRandom test_externals 3 s = Ok s' /\
    active_list s' l' /\ l' ≡ₚ [3; 0; 1; 2]%nat.
Proof.
  destruct three_particles_state as (s & mem & H & Hp & Ht & Hlen & Hf & Ha & _).
  destruct (insertRandom_links test_externals s mem [0; 1; 2]%nat 3 Hp)
    as (s' & mem' & l' & Hr & Hp' & Hperm & _);
    [by_decide|by_decide|rewrite Hlen; lia|lia| |].
  - intros x Hx. rewrite Ha in Hx.
    assert (Hc : x = 0%nat \/ x = 1%nat \/ x = 2%nat) by lia.
    destruct Hc as [-> | [-> | ->]]; by_decide.
  - exists s, s', l'. split; [exact H|]. split; [exact Hr|].
    split; [|exact Hperm]. exists mem'. split; apply Hp'.
Defined.

Lemma insertRandom_empty_keeps_tail_witness :
  exists s s',
    fresh_system = Ok s /\ pTail s = None /\
    insertRandom test_externals 0 s = Ok s' /\
    pHead s' = Some 0%nat /\ pTail s' = None.
Proof.
  destruct fresh_system as [s| | |] eqn:H;
    try (vm_compute in H; discriminate).
  assert (Hs : pHead s = None /\ activeParticles s = 0 /\ pTail s = None /\
               load s 0 = Ok Particle.blank).
  { vm_compute in H. injection H as <-. repeat split. }
  destruct Hs as (Hh & Ha & Ht & Hv).
  destruct (insertRandom_empty_keeps_tail test_externals s 0 _ Hh Ha Hv)
    as (s' & Hr & Hh' & Ht' & _).
  exists s, s'. rewrite Ht in Ht'. auto.
Defined.

Lemma insertBottom_null_tail_drops_list_witness :
  exists s s',
    random_first = Ok s /\ pHead s = Some 0%nat /\ activeParticles s = 1 /\
    insertBottom 1 s = Ok s' /\ active_list s' [1%nat].
Proof.
  destruct random_first_state as (s & v & H & Hh & Ht & Ha & Hv).
  destruct (insertBottom_null_tail_drops_list s 1 v Ht Hv)
    as (s' & Hr & _ & _ & Hl & _).
  exists s, s'. auto.
Defined.

(** ** Capacity, buffers and copies *)

Section Capacity.

Context {Rng : Type}.
Variable E : Externals Rng.
Implicit Types (s : System Rng) (mem : list Particle.t) (l : list nat).

Lemma emit_loop_count n s s' :
  pool_inv s -> emit_loop E n s = Ok s' ->
  Z.of_nat n <= maxParticles s - activeParticles s ->
  activeParticles s' = activeParticles s + Z.of_nat n /\
  maxParticles s' = maxParticles s.
Proof.
  revert s. induction n as [|n IH]; intros s Hinv; cbn [emit_loop].
  - intros [= <-] _. lia.
  - intros H Hroom. apply bind_Ok in H as (s1 & Hadd & H).
    destruct (addParticle_inv E _ _ _ Hinv Hadd)
      as (Hinv1 & (_ & _ & Hmx & _) & _ & Hfree).
    destruct (pool_inv_count s Hinv) as (Ha & _).
    destruct (pool_inv_count s1 Hinv1) as (Ha1 & _).
    assert (Hnf : isFull s = false) by (unfold isFull; apply Z.eqb_neq; lia).
    specialize (Hfree Hnf).
    destruct (IH s1 Hinv1 H) as (Hc & Hm); lia.
Qed.

(** X6. [emit num] adds exactly [min (num, capacity - count)] particles to
    an active system, so the count never goes past the capacity, and does
    nothing at all when the emitter is not active. *)
Theorem emit_fills num s s' :
  pool_inv s -> 0 <= num < 2 ^ 32 -> emit E num s = Ok s' ->
  activeParticles s' =
    (if active s then Z.min (activeParticles s + num) (maxParticles s)
     else activeParticles s) /\
  maxParticles s' = maxParticles s /\ (active s = false -> s' = s).
Proof.
  intros Hinv Hnum. unfold emit.
  destruct (pool_inv_count s Hinv) as (Ha & Hb & Hmax).
  destruct (active s); cbn [negb].
  - rewrite wrap32_small by lia. intros H.
    destruct (emit_loop_count _ _ _ Hinv H) as (Hc & Hm); [lia|].
    split; [lia|]. split; [exact Hm|discriminate].
  - intros [= <-]. auto.
Qed.

(** X7. [setBufferSize] refuses the sizes 0 and above [MAX_PARTICLES]
    before it touches the object.  For any other size it deletes the
    buffers and allocates new ones: when the allocation fails it throws
    [Out of memory]; when it succeeds the system has a new buffer of that
    size with no active particle, the remaining life of the emitter and its
    counter are rewound, and the configuration and the [active] flag are
    kept. *)
Theorem setBufferSize_effect size s :
  (size = 0 \/ MAX_PARTICLES E < size ->
   setBufferSize E size s = Exception "Invalid buffer size") /\
  (0 < size <= MAX_PARTICLES E -> allocates E size = false ->
   setBufferSize E size s = Exception "Out of memory") /\
  (0 < size <= MAX_PARTICLES E -> allocates E size = true ->
   exists s' mem,
     setBufferSize E size s = Ok s' /\ pMem s' = Some mem /\
     length mem = Z.to_nat size /\ maxParticles s' = size /\
     activeParticles s' = 0 /\ pFree s' = 0%nat /\ active_list s' [] /\
     pTail s' = None /\ emitCounter s' = f0 /\ life s' = lifetime s /\
     lifetime s' = lifetime s /\ active s' = active s /\
     insertMode s' = insertMode s /\ emissionRate s' = emissionRate s /\
     params s' = params s /\ position s' = position s).
Proof.
  unfold setBufferSize, createBuffers. split; [|split].
  - intros [-> | H].
    + reflexivity.
    + apply Z.ltb_lt in H. rewrite H, orb_true_r. reflexivity.
  - intros [H1 H2] Ha.
    assert (Hz : (size =? 0) = false) by (apply Z.eqb_neq; lia).
    assert (Hm : (MAX_PARTICLES E <? size) = false) by (apply Z.ltb_ge; lia).
    rewrite Hz, Hm, Ha. reflexivity.
  - intros [H1 H2] Ha.
    assert (Hz : (size =? 0) = false) by (apply Z.eqb_neq; lia).
    assert (Hm : (MAX_PARTICLES E <? size) = false) by (apply Z.ltb_ge; lia).
    rewrite Hz, Hm, Ha. cbn [orb bind].
    eexists _, _. split; [reflexivity|]. unfold reset. cbn.
    split; [reflexivity|]. split; [apply length_replicate|].
    repeat split. eexists. split; reflexivity.
Qed.

(** X8. The constructor refuses the sizes 0 and above [MAX_PARTICLES] with
    its own message and throws [Out of memory] when the buffers cannot be
    allocated; when they can, the new system is active, empty and not
    full, has the requested capacity, one size [1.0], the colour white, an
    infinite lifetime and the insert mode [top]. *)
Theorem constructor_effect size g :
  (size = 0 \/ MAX_PARTICLES E < size ->
   ParticleSystem E size g = Exception "Invalid ParticleSystem size.") /\
  (0 < size <= MAX_PARTICLES E -> allocates E size = false ->
   ParticleSystem E size g = Exception "Out of memory") /\
  (0 < size <= MAX_PARTICLES E -> allocates E size = true ->
   exists s,
     ParticleSystem E size g = Ok s /\ isActive s = true /\
     isEmpty s = true /\ isFull s = false /\ isPaused s = false /\
     isStopped s = false /\ getCount s = 0 /\ getBufferSize s = size /\
     sizes (params s) = [f1] /\
     colors (params s) = [mkColorf f1 f1 f1 f1] /\
     lifetime s = fminus1 /\ insertMode s = INSERT_MODE_TOP /\
     emissionRate s = f0).
Proof.
  unfold ParticleSystem, setBufferSize, createBuffers. split; [|split].
  - intros [-> | H].
    + reflexivity.
    + apply Z.ltb_lt in H. rewrite H, orb_true_r. reflexivity.
  - intros [H1 H2] Ha.
    assert (Hz : (size =? 0) = false) by (apply Z.eqb_neq; lia).
    assert (Hm : (MAX_PARTICLES E <? size) = false) by (apply Z.ltb_ge; lia).
    rewrite Hz, Hm, Ha. reflexivity.
  - intros [H1 H2] Ha.
    assert (Hz : (size =? 0) = false) by (apply Z.eqb_neq; lia).
    assert (Hm : (MAX_PARTICLES E <? size) = false) by (apply Z.ltb_ge; lia).
    rewrite Hz, Hm, Ha. cbn [orb bind].
    eexists. split; [reflexivity|]. unfold reset, isFull. cbn.
    repeat split. destruct size; [lia|reflexivity|lia].
Qed.

(** X9. [clone] of a system whose capacity is valid throws
    [Out of memory] when the buffers of the copy cannot be allocated; when
    they can, it gives a system with the same configuration, capacity,
    insert mode, rate, positions and [active] flag, but none of the
    particles: its pool is empty, its counter zero and its remaining life
    the full lifetime. *)
Theorem clone_effect s :
  0 < maxParticles s <= MAX_PARTICLES E ->
  (allocates E (maxParticles s) = false ->
   clone E s = Exception "Out of memory") /\
  (allocates E (maxParticles s) = true ->
   exists c,
     clone E s = Ok c /\ activeParticles c = 0 /\ active_list c [] /\
     pFree c = 0%nat /\ maxParticles c = maxParticles s /\
     params c = params s /\ active c = active s /\
     insertMode c = insertMode s /\ emissionRate c = emissionRate s /\
     position c = position s /\ prevPosition c = prevPosition s /\
     lifetime c = lifetime s /\ life c = lifetime s /\ emitCounter c = f0).
Proof.
  intros [H1 H2]. unfold clone, setBufferSize, createBuffers.
  cbn [copiedMembers maxParticles].
  assert (Hz : (maxParticles s =? 0) = false) by (apply Z.eqb_neq; lia).
  assert (Hm : (MAX_PARTICLES E <? maxParticles s) = false)
    by (apply Z.ltb_ge; lia).
  rewrite Hz, Hm. cbn [orb]. split; intros Ha; rewrite Ha.
  - reflexivity.
  - cbn [bind]. eexists. split; [reflexivity|]. unfold reset. cbn.
    repeat split. eexists. split; reflexivity.
Qed.

End Capacity.

Lemma emit_fills_witness :
  exists s s',
    three_particles = Ok s /\ emit test_externals 5 s = Ok s' /\
    activeParticles s' = 4.
Proof.
  destruct three_particles_state
    as (s & mem & H & _ & _ & _ & _ & Ha & Hmx & Hact & _ & s' & He).
  destruct (emit_fills test_externals 5 s s' (three_particles_inv s H))
    as (Hc & _); [lia|exact He|].
  rewrite Hact, Ha, Hmx in Hc. exists s, s'. auto.
Defined.

Lemma setBufferSize_effect_witness :
  exists s s',
    three_particles = Ok s /\
    setBufferSize test_externals 0 s = Exception "Invalid buffer size" /\
    setBufferSize small_heap 3 s = Exception "Out of memory" /\
    setBufferSize test_externals 2 s = Ok s' /\ activeParticles s' = 0 /\
    maxParticles s' = 2.
Proof.
  destruct three_particles_state as (s & mem & H & _).
  destruct (setBufferSize_effect test_externals 0 s) as (Hbad & _ & _).
  destruct (setBufferSize_effect small_heap 3 s) as (_ & Hoom & _).
  destruct (setBufferSize_effect test_externals 2 s) as (_ & _ & Hgood).
  destruct Hgood as (s' & mem' & Hr & _ & _ & Hmx & Ha & _);
    [simpl; lia|reflexivity|].
  exists s, s'. split; [exact H|]. split; [apply Hbad; left; reflexivity|].
  split; [apply Hoom; [simpl; lia|reflexivity]|]. auto.
Defined.

Lemma constructor_effect_witness :
  ParticleSystem test_externals 0 0%nat =
    Exception "Invalid ParticleSystem size." /\
  ParticleSystem small_heap 4 0%nat = Exception "Out of memory" /\
  exists s,
    ParticleSystem test_externals 4 0%nat = Ok s /\ isEmpty s = true /\
    getBufferSize s = 4.
Proof.
  destruct (constructor_effect test_externals 0 0%nat) as (Hbad & _ & _).
  destruct (constructor_effect small_heap 4 0%nat) as (_ & Hoom & _).
  destruct (constructor_effect test_externals 4 0%nat) as (_ & _ & Hgood).
  destruct Hgood as (s & Hr & _ & He & _ & _ & _ & _ & Hb & _);
    [simpl; lia|reflexivity|].
  split; [apply Hbad; left; reflexivity|].
  split; [apply Hoom; [simpl; lia|reflexivity]|]. exists s. auto.
Defined.

Lemma clone_effect_witness :
  exists s c,
    three_particles = Ok s /\ activeParticles s = 3 /\
    clone small_heap s = Exception "Out of memory" /\
    clone test_externals s = Ok c /\ activeParticles c = 0 /\
    maxParticles c = 4.
Proof.
  destruct three_particles_state
    as (s & mem & H & _ & _ & _ & _ & Ha & Hmx & _).
  destruct (clone_effect small_heap s) as (Hoom & _);
    [rewrite Hmx; simpl; lia|].
  destruct (clone_effect test_externals s) as (_ & Hgood);
    [rewrite Hmx; simpl; lia|].
  destruct Hgood as (c & Hr & Hc & _ & _ & Hm & _); [reflexivity|].
  exists s, c. rewrite Hmx in Hm.
  split; [exact H|]. split; [exact Ha|].
  split; [apply Hoom; rewrite Hmx; reflexivity|]. auto.
Defined.

(** ** What [update] leaves alone *)

Section UpdateFrame.

Context {Rng : Type}.
Variable E : Externals Rng.
Implicit Types (s : System Rng) (mem : list Particle.t) (l : list nat).

Lemma update_particles_shrinks fuel dt cur s s' :
  pool_inv s -> (forall x, cur = Some x -> (x < pFree s)%nat) ->
  update_particles E fuel dt cur s = Ok s' -> (pFree s' <= pFree s)%nat.
Proof.
  revert cur s. induction fuel as [|fuel IH]; intros cur s Hinv Hcur.
  - destruct cur; simpl; [discriminate|]. intros [= <-]. lia.
  - destruct cur as [p|]; simpl.
    2:{ intros [= <-]. lia. }
    assert (Hp : (p < pFree s)%nat) by (apply Hcur; reflexivity).
    intros H. apply bind_Ok in H as (s1 & Hmod & H).
    apply modify_Ok in Hmod as (v0 & Hload0 & Hstore0).
    destruct (store_data_inv s p v0
                (Particle.set_life (fsub (Particle.life v0) dt) v0) s1
                Hinv Hload0 eq_refl eq_refl Hstore0)
      as (Hinv1 & Hem1 & Hf1 & Hr1 & Hh1 & Hload1).
    rewrite Hload1 in H. cbn [bind] in H.
    destruct (fle _ f0).
    + apply bind_Ok in H as ([ret s2] & Hrem & H). simpl in H.
      destruct (removeParticle_inv s1 p Hinv1) as
        (ret' & s2' & Heq & Hinv2 & Hem2 & Hr2 & Hf2 & Hret); [lia|].
      rewrite Heq in Hrem. injection Hrem as <- <-.
      pose proof (IH ret' s2' Hinv2 Hret H). lia.
    + apply bind_Ok in H as (v2 & Hint & H).
      apply bind_Ok in H as (s2 & Hstore2 & H).
      apply integrate_links in Hint as (Hpv & Hnx & _).
      destruct (store_data_inv s1 p _ v2 s2 Hinv1 Hload1 Hpv Hnx Hstore2)
        as (Hinv2 & Hem2 & Hf2 & Hr2 & Hh2 & Hload2).
      rewrite Hload2 in H. cbn [bind] in H.
      assert (Hle : (pFree s' <= pFree s2)%nat); [|lia].
      apply (IH (Particle.next v2) s2 Hinv2); [|exact H].
      intros x Hx. eapply inv_next_in; eauto. lia.
Qed.

(** X10. While the emitter is not active, [update] spawns nothing and
    leaves the clock of the emitter alone: the counter and the remaining
    life are what they were, and the number of active particles can only
    go down. *)
Theorem update_inactive_only_removes fuel dt s r :
  pool_inv s -> active s = false -> update_counting E fuel dt s = Ok r ->
  snd r = 0%nat /\ active (fst r) = false /\
  emitCounter (fst r) = emitCounter s /\ life (fst r) = life s /\
  activeParticles (fst r) <= activeParticles s.
Proof.
  intros Hinv Hact. unfold update_counting.
  destruct (pMem s); [|intros [= <-]; simpl; repeat split; auto; lia].
  destruct (feq dt f0); [intros [= <-]; simpl; repeat split; auto; lia|].
  intros H. apply bind_Ok in H as (s1 & Htrav & H).
  apply bind_Ok in H as (r1 & Hem & H). injection H as <-.
  assert (Hcur : forall x, pHead s = Some x -> (x < pFree s)%nat)
    by (intros x; apply pool_inv_head; exact Hinv).
  pose proof (update_particles_shrinks _ _ _ _ _ Hinv Hcur Htrav) as Hle.
  destruct (update_particles_inv E _ _ _ _ _ Hinv Hcur Htrav)
    as (Hinv1 & (Ha & _ & _ & _ & Hec & _ & _ & _ & Hl & _) & _).
  unfold update_emitter in Hem. rewrite Ha, Hact in Hem. injection Hem as <-.
  destruct (pool_inv_count s Hinv) as (Hc & _).
  destruct (pool_inv_count s1 Hinv1) as (Hc1 & _).
  simpl. repeat split; try congruence. lia.
Qed.

(** X11. [update] never changes the configuration of the system:
    whenever it returns, the parameters of the particles, the emission
    rate, the insert mode, the capacity, the position and the lifetime of
    the emitter are what they were, and, when there is a buffer and [dt] is
    not zero, the previous position is the position.  Without a buffer or
    with [dt == 0] it returns at once, whatever the fuel, and the state is
    untouched.  On a well-linked pool it throws nothing, and it fails to
    return only when the emitter is active and the loop of the scheduler
    does not end on the counter. *)
Theorem update_keeps_configuration fuel dt s :
  (pMem s = None \/ feq dt f0 = true -> update E fuel dt s = Ok s) /\
  (forall s', update E fuel dt s = Ok s' ->
     params s' = params s /\ emissionRate s' = emissionRate s /\
     insertMode s' = insertMode s /\ maxParticles s' = maxParticles s /\
     position s' = position s /\ lifetime s' = lifetime s /\
     (pMem s <> None -> feq dt f0 = false ->
      prevPosition s' = position s)) /\
  (pool_inv s -> (pFree s <= fuel)%nat ->
   (forall msg, update E fuel dt s <> Exception msg) /\
   (update E fuel dt s = OutOfFuel ->
    feq dt f0 = false /\ active s = true /\
    scheduler_passes fuel (fdiv f1 (emissionRate s))
      (fadd (emitCounter s) dt) = None)).
Proof.
  split; [|split].
  - unfold update, update_counting.
    intros [Hn | Hn]; [rewrite Hn; reflexivity|].
    destruct (pMem s); [|reflexivity]. rewrite Hn. reflexivity.
  - intros s' H. exact (update_configuration E fuel dt s s' H).
  - intros Hinv Hfuel.
    pose proof (update_counting_outcome E fuel dt s Hinv Hfuel) as Hp.
    unfold update. split.
    + intros msg.
      destruct (update_counting E fuel dt s); cbn [bind];
        [discriminate|contradiction|discriminate|discriminate].
    + destruct (update_counting E fuel dt s); cbn [bind];
        [discriminate|discriminate|discriminate|]. intros _. exact Hp.
Qed.

(** X12. With the emission rate [+0.0] the interval between two particles
    is [+infinity], which the counter never exceeds: [update] spawns no
    particle, whatever [dt] and the state of the counter. *)
Theorem zero_rate_spawns_nothing fuel dt s r :
  emissionRate s = f0 -> update_counting E fuel dt s = Ok r -> snd r = 0%nat.
Proof.
  intros Hrate. unfold update_counting.
  destruct (pMem s); [|intros [= <-]; reflexivity].
  destruct (feq dt f0); [intros [= <-]; reflexivity|].
  intros H. apply bind_Ok in H as (s1 & Htrav & H).
  apply bind_Ok in H as (r1 & Hem & H). injection H as <-.
  apply update_particles_frame in Htrav as [(_ & _ & _ & Hr & _) _].
  destruct (active s1) eqn:Hact.
  - destruct (zero_rate_no_emission E fuel dt s1 Hact) as (s2 & Heq & _);
      [congruence|].
    rewrite Heq in Hem. injection Hem as <-. reflexivity.
  - unfold update_emitter in Hem. rewrite Hact in Hem. injection Hem as <-.
    reflexivity.
Qed.

(** The loop of the scheduler does not end when subtracting the interval
    leaves the counter where it is. *)
Lemma emit_pending_absorbed fuel rate total s r :
  fgt (emitCounter s) rate = true ->
  fsub (emitCounter s) rate = emitCounter s ->
  emit_pending E fuel rate total s <> Ok r.
Proof.
  revert s r. induction fuel as [|fuel IH]; intros s r Hgt Hsub; simpl;
    rewrite Hgt.
  - discriminate.
  - intros H. apply bind_Ok in H as (s1 & Hadd & H).
    apply bind_Ok in H as (r1 & Hrec & _).
    apply addParticle_frame in Hadd as [(_ & _ & _ & _ & Hec & _) _].
    apply IH in Hrec; [exact Hrec| |]; simpl; rewrite Hec, Hsub; assumption.
Qed.

(** X13. When the counter of the scheduler, once [dt] is added, is so far
    above the interval between two particles that subtracting the interval
    rounds back to the counter itself, the loop of the scheduler makes no
    progress: [update] does not return, whatever the fuel. *)
Theorem update_absorbed_never_returns fuel dt s s' :
  pMem s <> None -> feq dt f0 = false -> active s = true ->
  fgt (fadd (emitCounter s) dt) (fdiv f1 (emissionRate s)) = true ->
  fsub (fadd (emitCounter s) dt) (fdiv f1 (emissionRate s)) =
    fadd (emitCounter s) dt ->
  update E fuel dt s <> Ok s'.
Proof.
  intros Hm Hdt Hact Hgt Hsub. unfold update, update_counting. intros H.
  apply bind_Ok in H as (r & H & _).
  destruct (pMem s); [|contradiction]. rewrite Hdt in H.
  apply bind_Ok in H as (s1 & Htrav & H).
  apply bind_Ok in H as (r1 & Hem & _).
  apply update_particles_frame in Htrav
    as [(Ha & _ & _ & Hr & Hec & _) _].
  unfold update_emitter in Hem. rewrite Ha, Hact, Hr in Hem.
  apply bind_Ok in Hem as (r2 & Hloop & _).
  apply emit_pending_absorbed in Hloop; [exact Hloop| |];
    simpl; rewrite Hec; assumption.
Qed.

End UpdateFrame.

Lemma update_inactive_only_removes_witness :
  match three_particles with
  | Ok s =>
      match update_counting test_externals 4 ftenth (pause s) with
      | Ok r => snd r = 0%nat /\ activeParticles (fst r) <= 3
      | _ => False
      end
  | _ => False
  end.
Proof.
  destruct three_particles as [s| | |] eqn:H;
    try (vm_compute in H; discriminate).
  assert (Hinv : pool_inv (pause s)).
  { apply (pool_set_inv s); try reflexivity. apply three_particles_inv, H. }
  assert (Ha : activeParticles s = 3).
  { vm_compute in H. injection H as <-. reflexivity. }
  destruct (update_counting test_externals 4 ftenth (pause s))
    as [r| | |] eqn:Hr;
    try (vm_compute in H; injection H as <-; vm_compute in Hr; discriminate).
  destruct (update_inactive_only_removes test_externals 4 ftenth (pause s) r
              Hinv eq_refl Hr) as (Hn & _ & _ & _ & Hle).
  simpl in Hle. rewrite Ha in Hle. auto.
Defined.

Lemma update_keeps_configuration_witness :
  match ten_per_second with
  | Ok s =>
      update test_externals 0 f0 s = Ok s /\
      match update test_externals 4 ftenth s with
      | Ok s' =>
          emissionRate s' = f10 /\ maxParticles s' = 16 /\
          prevPosition s' = position s
      | _ => False
      end
  | _ => False
  end.
Proof.
  destruct ten_per_second as [s| | |] eqn:H;
    try (vm_compute in H; discriminate).
  assert (Hs : emissionRate s = f10 /\ maxParticles s = 16 /\
               pMem s <> None).
  { vm_compute in H. injection H as <-.
    split; [reflexivity|]. split; [reflexivity|discriminate]. }
  destruct (update_keeps_configuration test_externals 0 f0 s) as [Hz _].
  split; [apply Hz; right; reflexivity|].
  destruct (update test_externals 4 ftenth s) as [s'| | |] eqn:Hr;
    try (vm_compute in H; injection H as <-; vm_compute in Hr; discriminate).
  destruct (update_keeps_configuration test_externals 4 ftenth s)
    as (_ & Hk & _).
  destruct (Hk s' Hr) as (_ & Hrate & _ & Hmx & _ & _ & Hpp).
  destruct Hs as (<- & <- & Hm). split; [exact Hrate|].
  split; [exact Hmx|]. apply Hpp; [exact Hm|reflexivity].
Defined.

Lemma zero_rate_spawns_nothing_witness :
  match three_particles with
  | Ok s =>
      emissionRate s = f0 /\
      match update_counting test_externals 4 ftenth s with
      | Ok r => snd r = 0%nat
      | _ => False
      end
  | _ => False
  end.
Proof.
  destruct three_particles as [s| | |] eqn:H;
    try (vm_compute in H; discriminate).
  assert (Hs : emissionRate s = f0).
  { vm_compute in H. injection H as <-. reflexivity. }
  split; [exact Hs|].
  destruct (update_counting test_externals 4 ftenth s) as [r| | |] eqn:Hr;
    try (vm_compute in H; injection H as <-; vm_compute in Hr; discriminate).
  exact (zero_rate_spawns_nothing test_externals 4 ftenth s r Hs Hr).
Defined.

Lemma update_absorbed_never_returns_witness :
  match ten_per_second with
  | Ok s =>
      fsub (float_of_Z 16777216) ftenth = float_of_Z 16777216 /\
      forall fuel s',
        update test_externals fuel (float_of_Z 16777216) s <> Ok s'
  | _ => False
  end.
Proof.
  destruct ten_per_second as [s| | |] eqn:H;
    try (vm_compute in H; discriminate).
  vm_compute in H. injection H as <-.
  split; [reflexivity|]. intros fuel s'.
  apply (update_absorbed_never_returns test_externals fuel
           (float_of_Z 16777216)).
  - discriminate.
  - reflexivity.
  - reflexivity.
  - reflexivity.
  - reflexivity.
Defined.

(** ** Colours, quads and the queries on the state *)

Section Queries.

Context {Rng : Type}.
Implicit Types (s : System Rng).

Lemma byte_roundtrip z :
  is_byte z ->
  uchar_of_float (fmul (fdiv (float_of_Z z) f255) f255) = Ok z.
Proof.
  intros Hz.
  assert (Hall :
    List.forallb
      (fun n =>
         match uchar_of_float
                 (fmul (fdiv (float_of_Z (Z.of_nat n)) f255) f255) with
         | Ok z' => z' =? Z.of_nat n
         | _ => false
         end) (List.seq 0 256) = true) by (vm_compute; reflexivity).
  rewrite List.forallb_forall in Hall.
  specialize (Hall (Z.to_nat z)).
  rewrite Z2Nat.id in Hall by (unfold is_byte in Hz; lia).
  destruct (uchar_of_float _) as [z'| | |].
  - f_equal. apply Z.eqb_eq, Hall, List.in_seq. unfold is_byte in Hz. lia.
  - discriminate Hall. apply List.in_seq. unfold is_byte in Hz. lia.
  - discriminate Hall. apply List.in_seq. unfold is_byte in Hz. lia.
  - discriminate Hall. apply List.in_seq. unfold is_byte in Hz. lia.
Qed.

Lemma colorOfFloat_colorToFloat c :
  byte_color c -> colorOfFloat (colorToFloat c) = Ok c.
Proof.
  intros (Hr & Hg & Hb & Ha). unfold colorOfFloat, colorToFloat.
  cbn [cr cg cb ca].
  rewrite !byte_roundtrip by assumption. cbn [bind]. destruct c; reflexivity.
Qed.

(** X14. [getColor] after [setColor], with a list of colours or with one
    colour, gives back the colours that were set, byte for byte: dividing
    a byte by 255 and multiplying by 255 again in single precision, then
    truncating, loses nothing for any of the 256 values. *)
Theorem getColor_setColor cs c s :
  Forall byte_color cs -> byte_color c ->
  getColor (setColor cs s) = Ok cs /\ getColor (setColor1 c s) = Ok [c].
Proof.
  intros Hcs Hc. split.
  - unfold getColor, setColor. cbn [params set_params colors set_colors].
    induction Hcs as [|c' cs Hc' _ IH]; [reflexivity|].
    cbn [map getColor_loop]. rewrite colorOfFloat_colorToFloat by exact Hc'.
    cbn [bind]. rewrite IH. reflexivity.
  - unfold getColor, setColor1.
    cbn [params set_params colors set_colors getColor_loop].
    rewrite colorOfFloat_colorToFloat by exact Hc. reflexivity.
Qed.

Lemma size_t_of_float_range x z :
  size_t_of_float x = Ok z -> 0 <= z < 2 ^ 64.
Proof.
  unfold size_t_of_float. destruct (ftrunc x) as [z'|]; [|discriminate].
  destruct (_ && _) eqn:Hb; [|discriminate]. intros [= <-].
  apply andb_true_iff in Hb as [H1 H2].
  apply Z.leb_le in H1. apply Z.ltb_lt in H2. lia.
Qed.

Lemma positive_trunc x z :
  fgt x f0 = true -> ftrunc x = Some z -> 0 <= z.
Proof.
  unfold fgt, SFltb. destruct x as [b|b| |b m e]; simpl; try discriminate.
  destruct b; [discriminate|]. intros _ [= <-]. cbn [cond_Zopp].
  destruct (0 <=? e) eqn:He.
  - apply Z.mul_nonneg_nonneg; [lia|]. apply Z.pow_nonneg. lia.
  - apply Z.leb_gt in He. apply Z.div_pos; [lia|].
    apply Z.pow_pos_nonneg; lia.
Qed.

(** X15. The quad index that [update] assigns: without quads nothing is
    assigned; when the scaled age [t * k] is not above zero (a NaN
    included) the index is 0; when it is above zero and its integer part is
    below [2^64] the index is that integer part clamped to the last quad,
    hence a valid index; and when the scaled age is infinite or [2^64] or
    more, the conversion to [size_t], which comes before the clamp, is
    undefined.  An index that is assigned is always a valid one. *)
Theorem evalQuadIndex_in_range (quads : list nat) (t : float) :
  let k := vsize quads in
  let s := fmul t (float_of_Z k) in
  (quads = [] -> evalQuadIndex quads t = Ok None) /\
  (quads <> [] -> fgt s f0 = false -> evalQuadIndex quads t = Ok (Some 0)) /\
  (quads <> [] -> fgt s f0 = true ->
   forall z, ftrunc s = Some z -> z < 2 ^ 64 ->
     evalQuadIndex quads t = Ok (Some (Z.min z (k - 1))) /\
     0 <= Z.min z (k - 1) < k) /\
  (quads <> [] -> fgt s f0 = true ->
   ftrunc s = None \/ (exists z, ftrunc s = Some z /\ 2 ^ 64 <= z) ->
   evalQuadIndex quads t = Undefined) /\
  (forall i, evalQuadIndex quads t = Ok (Some i) -> 0 <= i < k).
Proof.
  intros k s.
  assert (Hk : quads <> [] -> (0 <? k) = true).
  { intros Hq. apply Z.ltb_lt. unfold k, vsize.
    destruct quads; [contradiction|]. simpl. lia. }
  unfold evalQuadIndex. fold k. fold s.
  split; [intros ->; reflexivity|].
  split.
  { intros Hq Hs. pose proof (Hk Hq) as Hk1. rewrite Hk1, Hs. cbn [bind].
    rewrite Hk1. reflexivity. }
  split; [|split].
  - intros Hq Hs z Hz Hlt. pose proof (Hk Hq) as Hk0. rewrite Hk0, Hs.
    apply Z.ltb_lt in Hk0.
    pose proof (positive_trunc s z Hs Hz) as Hpos.
    unfold size_t_of_float. rewrite Hz.
    assert (H1 : (0 <=? z) = true) by (apply Z.leb_le; lia).
    assert (H2 : (z <? 2 ^ 64) = true) by (apply Z.ltb_lt; lia).
    rewrite H1, H2. cbn [andb bind].
    destruct (z <? k) eqn:Hzk;
      [apply Z.ltb_lt in Hzk|apply Z.ltb_ge in Hzk].
    + rewrite Z.min_l by lia. split; [reflexivity|lia].
    + rewrite Z.min_r by lia. split; [reflexivity|lia].
  - intros Hq Hs Hbad. rewrite (Hk Hq), Hs. unfold size_t_of_float.
    destruct Hbad as [-> | (z & -> & Hz)]; [reflexivity|].
    assert (H2 : (z <? 2 ^ 64) = false) by (apply Z.ltb_ge; lia).
    rewrite H2, andb_false_r. reflexivity.
  - intros i H. destruct (0 <? k) eqn:Hk0; [|discriminate].
    apply Z.ltb_lt in Hk0.
    apply bind_Ok in H as (j & Hj & H). injection H as <-.
    assert (0 <= j).
    { destruct (fgt s f0); [apply size_t_of_float_range in Hj; lia|].
      injection Hj as <-. lia. }
    destruct (j <? k) eqn:Hlt; [apply Z.ltb_lt in Hlt|]; lia.
Qed.

Lemma flt_not_ge x y : flt x y = true -> fle y x = false.
Proof.
  unfold flt, fle, SFltb, SFleb.
  destruct x as [sx|sx| |sx mx ex], y as [sy|sy| |sy my ey]; simpl;
    try discriminate; try reflexivity;
    try (destruct sx; try discriminate; try reflexivity);
    try (destruct sy; try discriminate; try reflexivity).
  all: rewrite (Z.compare_antisym ex ey); destruct (ex ?= ey); simpl;
    try discriminate; try reflexivity.
  all: replace (Pos.compare_cont Eq my mx)
         with (CompOpp (Pos.compare_cont Eq mx my))
         by apply (Pos.compare_cont_antisym mx my Eq).
  all: destruct (Pos.compare_cont Eq mx my); simpl; try discriminate;
    try reflexivity.
Qed.

(** X16. The three queries on the state of the emitter never contradict
    each other: an active system is neither paused nor stopped and a
    paused one is not stopped.  The difference between the last two is
    only the remaining life: [pause] on an emitter whose remaining life is
    still the full lifetime reports it as stopped, not paused. *)
Theorem state_queries_exclusive s :
  (isActive s = true -> isPaused s = false /\ isStopped s = false) /\
  (isPaused s = true -> isStopped s = false) /\
  (life s = lifetime s -> is_nan (lifetime s) = false ->
   isStopped (pause s) = true /\ isPaused (pause s) = false).
Proof.
  unfold isActive, isPaused, isStopped. split; [|split].
  - intros ->. auto.
  - intros H. apply andb_true_iff in H as [-> H].
    apply flt_not_ge in H. rewrite H. reflexivity.
  - intros Hl Hn. cbn [pause active set_active life lifetime negb andb].
    rewrite Hl, (fle_refl _ Hn). split; [reflexivity|].
    destruct (flt _ _) eqn:H; [|reflexivity].
    apply flt_not_ge in H. rewrite fle_refl in H by exact Hn. discriminate.
Qed.

End Queries.

Lemma getColor_setColor_witness :
  match fresh_system with
  | Ok s =>
      getColor (setColor [mkColor 255 128 0 64; mkColor 1 2 3 254] s) =
      Ok [mkColor 255 128 0 64; mkColor 1 2 3 254] /\
      getColor (setColor1 (mkColor 7 0 255 33) s) = Ok [mkColor 7 0 255 33]
  | _ => False
  end.
Proof.
  destruct fresh_system as [s| | |] eqn:H;
    try (vm_compute in H; discriminate).
  apply getColor_setColor.
  - repeat constructor; unfold is_byte; simpl; lia.
  - repeat constructor; unfold is_byte; simpl; lia.
Defined.

Lemma state_queries_exclusive_witness :
  match fresh_system with
  | Ok s =>
      isActive s = true /\ isPaused s = false /\
      isStopped (pause s) = true /\ isPaused (pause s) = false
  | _ => False
  end.
Proof.
  destruct fresh_system as [s| | |] eqn:H;
    try (vm_compute in H; discriminate).
  vm_compute in H. injection H as <-.
  match goal with
  | |- isActive ?s = true /\ _ =>
      destruct (state_queries_exclusive s) as (H1 & _ & H3)
  end.
  destruct H1 as [Hp _]; [reflexivity|].
  destruct H3 as [Hs Hq]; [reflexivity|reflexivity|].
  split; [reflexivity|]. split; [exact Hp|]. split; [exact Hs|exact Hq].
Defined.

Lemma evalQuadIndex_in_range_witness :
  evalQuadIndex [7; 8; 9]%nat fminus1 = Ok (Some 0) /\
  evalQuadIndex [7; 8; 9]%nat fhalf = Ok (Some 1) /\
  evalQuadIndex [7; 8; 9]%nat (float_of_Z 5) = Ok (Some 2) /\
  evalQuadIndex [7; 8; 9]%nat (float_of_Z (2 ^ 70)) = Undefined.
Proof.
  destruct (evalQuadIndex_in_range [7; 8; 9]%nat fminus1)
    as (_ & Hz & _).
  destruct (evalQuadIndex_in_range [7; 8; 9]%nat fhalf)
    as (_ & _ & Hh & _).
  destruct (evalQuadIndex_in_range [7; 8; 9]%nat (float_of_Z 5))
    as (_ & _ & Hc & _).
  destruct (evalQuadIndex_in_range [7; 8; 9]%nat (float_of_Z (2 ^ 70)))
    as (_ & _ & _ & Hu & _).
  split; [apply Hz; [discriminate|reflexivity]|].
  split; [apply (Hh ltac:(discriminate) eq_refl 1); [reflexivity|lia]|].
  split; [apply (Hc ltac:(discriminate) eq_refl 15); [reflexivity|lia]|].
  apply Hu; [discriminate|reflexivity|]. right. eexists. split; [reflexivity|].
  vm_compute. discriminate.
Defined.

(** ** The traversal of [update] *)

Section Traversal.

Context {Rng : Type}.
Variable E : Externals Rng.
Implicit Types (s : System Rng) (mem : list Particle.t) (l : list nat).

(** X17. The traversal of [update] visits every particle exactly once,
    removals and their compaction included: with as much fuel as there are
    active particles it neither runs out of fuel nor throws; when it
    returns, the list holds, in their order, the particles whose life less
    [dt] is above zero, each with its life decreased by [dt] once; and it
    fails to return only by an undefined evaluation for one of the
    particles that stay. *)
Theorem traversal_visits_each_once fuel dt s mem l ls :
  pool s mem l -> l ≡ₚ seq 0 (pFree s) -> lives_are mem l ls ->
  (pFree s <= fuel)%nat ->
  match update_particles E fuel dt (pHead s) s with
  | Ok s' =>
      exists mem' l',
        pool s' mem' l' /\ l' ≡ₚ seq 0 (pFree s') /\
        lives_are mem' l' (survivors dt ls) /\
        pFree s' = length (survivors dt ls)
  | Undefined => survivors dt ls <> []
  | OutOfFuel | Exception _ => False
  end.
Proof.
  intros Hpool Hperm Hls Hfuel.
  pose proof (sweep_core E fuel dt s mem [] l [] ls Hpool Hperm
                (Forall2_nil_2 _ _ _) Hls) as H.
  rewrite <- (pool_head _ _ _ Hpool) in H.
  destruct (update_particles E fuel dt (pHead s) s) as [s'| | |];
    try exact H.
  - destruct H as (mem' & l' & Hpool' & Hperm' & Hls').
    exists mem', l'. repeat split; try assumption; try apply Hpool'.
    apply Permutation_length in Hperm'. rewrite length_seq in Hperm'.
    rewrite <- Hperm'. exact (lives_length _ _ _ Hls').
  - apply Permutation_length in Hperm. rewrite length_seq in Hperm.
    simpl in H. lia.
Qed.

(** X18. When the traversal of [update] returns, no active particle is
    left with a remaining life [<= 0]: every slot below the free boundary
    holds a particle whose life is above zero (or not a number). *)
Theorem traversal_leaves_no_dead fuel dt s s' :
  pool_inv s -> update_particles E fuel dt (pHead s) s = Ok s' ->
  forall x, (x < pFree s')%nat ->
    exists v, load s' x = Ok v /\ fle (Particle.life v) f0 = false.
Proof.
  intros (mem & l & Hpool & Hperm & _) Hup x Hx.
  destruct (pool_lives _ _ _ Hpool) as [ls Hls].
  pose proof (sweep_core E fuel dt s mem [] l [] ls Hpool Hperm
                (Forall2_nil_2 _ _ _) Hls) as H.
  rewrite <- (pool_head _ _ _ Hpool), Hup in H.
  destruct H as (mem' & l' & Hpool' & Hperm' & Hall).
  assert (Hin : x ∈ l') by (rewrite Hperm'; apply elem_of_seq; lia).
  apply list_elem_of_lookup in Hin as [i Hi].
  destruct (Forall2_lookup_l _ _ _ _ _ Hall Hi) as (f & Hf & v & Hv & Hlife).
  exists v. split.
  - destruct Hpool' as (Hm' & _). exact (load_Some s' mem' x v Hm' Hv).
  - pose proof (survivors_alive dt ls) as Hs. rewrite Forall_forall in Hs.
    rewrite Hlife. apply Hs. eapply list_elem_of_lookup_2. exact Hf.
Qed.

End Traversal.

Lemma long_lived_inv s : long_lived_particles = Ok s -> pool_inv s.
Proof.
  unfold long_lived_particles, fresh_system. intros H.
  apply bind_Ok in H as (s0 & H0 & H).
  apply constructor_inv in H0 as (Hinv & _); [|lia].
  eapply emit_inv; [|exact H].
  apply (pool_set_inv s0); try reflexivity; try exact Hinv.
  all: unfold setParticleLifetime; destruct (feq f1 f0); reflexivity.
Qed.

Lemma traversal_visits_each_once_witness :
  match running_emitter with
  | Ok s =>
      match pMem s with
      | Some mem =>
          lives_are mem [0; 1]%nat [fsub f1 ftenth; f1] /\
          match update_particles test_externals 2 ftenth (pHead s) s with
          | Ok s' =>
              exists mem' l',
                pool s' mem' l' /\
                lives_are mem' l'
                  [fsub (fsub f1 ftenth) ftenth; fsub f1 ftenth]
          | _ => False
          end
      | None => False
      end
  | _ => False
  end.
Proof.
  destruct running_emitter as [s| | |] eqn:H;
    try (vm_compute in H; discriminate).
  vm_compute in H. injection H as <-. cbn [pMem].
  match goal with
  | |- lives_are ?mem ?l ?ls /\ match update_particles ?E ?fuel ?dt ?h ?s with _ => _ end =>
      assert (Hls : lives_are mem l ls)
        by (unfold lives_are; repeat constructor; eexists; split;
            reflexivity);
      assert (Hpool : pool s mem l)
        by (repeat first [reflexivity | split | eexists]);
      split; [exact Hls|];
      pose proof (traversal_visits_each_once E fuel dt s mem l ls Hpool
                    ltac:(reflexivity) Hls ltac:(simpl; lia)) as Hres;
      change (pHead s) with h in Hres;
      destruct (update_particles E fuel dt h s) as [s'| | |] eqn:Hup;
        try (vm_compute in Hup; discriminate)
  end.
  destruct Hres as (mem' & l' & Hp' & _ & Hl' & _).
  exists mem', l'. split; [exact Hp'|exact Hl'].
Defined.

Lemma traversal_leaves_no_dead_witness :
  match long_lived_particles with
  | Ok s =>
      match update_particles test_externals 4 ftenth (pHead s) s with
      | Ok s' =>
          pFree s' = 3%nat /\
          exists v, load s' 2 = Ok v /\ fle (Particle.life v) f0 = false
      | _ => False
      end
  | _ => False
  end.
Proof.
  destruct long_lived_particles as [s| | |] eqn:H;
    try (vm_compute in H; discriminate).
  pose proof (long_lived_inv s H) as Hinv.
  destruct (update_particles test_externals 4 ftenth (pHead s) s)
    as [s'| | |] eqn:Hup;
    try (vm_compute in H; injection H as <-; vm_compute in Hup; discriminate).
  assert (Hf : pFree s' = 3%nat).
  { vm_compute in H. injection H as <-. vm_compute in Hup.
    injection Hup as <-. reflexivity. }
  split; [exact Hf|].
  apply (traversal_leaves_no_dead test_externals 4 ftenth s s' Hinv Hup).
  rewrite Hf. lia.
Defined.

(** ** Allocation and initialisation of a particle *)

Section Allocation.

Context {Rng : Type}.
Variable E : Externals Rng.
Implicit Types (s : System Rng) (mem : list Particle.t) (l : list nat).

(** X19. [addParticle] on a full pool does nothing; otherwise it takes the
    slot at the free boundary, moves the boundary and the count up by one
    and keeps the pool well formed; the members of the emitter are left
    alone in both cases. *)
Theorem addParticle_allocates t s s' :
  pool_inv s -> addParticle E t s = Ok s' ->
  pool_inv s' /\ same_emitter s s' /\
  (isFull s = true -> s' = s) /\
  (isFull s = false ->
   pFree s' = S (pFree s) /\ activeParticles s' = activeParticles s + 1 /\
   exists v, load s' (pFree s) = Ok v).
Proof.
  intros Hinv Hadd.
  destruct (addParticle_inv E t s s' Hinv Hadd) as (Hinv' & Hem & Hfull & Hfree).
  split; [exact Hinv'|]. split; [exact Hem|]. split; [exact Hfull|].
  intros Hnf. specialize (Hfree Hnf).
  destruct (pool_inv_count s Hinv) as (Ha & _).
  destruct (pool_inv_count s' Hinv') as (Ha' & _).
  split; [exact Hfree|]. split; [lia|].
  destruct Hinv' as (mem' & l' & (Hm' & _) & _ & Hle & _).
  destruct (lookup_lt_is_Some_2 mem' (pFree s)) as [v Hv]; [lia|].
  exists v. exact (load_Some s' mem' _ v Hm' Hv).
Qed.

Lemma flt_zero_negative x :
  flt x f0 = true <->
  x = S754_infinity true \/ exists m e, x = S754_finite true m e.
Proof.
  unfold flt, SFltb. destruct x as [b|b| |b m e]; simpl.
  - split; [discriminate|]. intros [H|(m & e & H)]; discriminate.
  - destruct b; split; auto; try discriminate.
    intros [H|(m & e & H)]; discriminate.
  - split; [discriminate|]. intros [H|(m & e & H)]; discriminate.
  - destruct b; split; eauto; try discriminate.
    intros [H|(m' & e' & H)]; discriminate.
Qed.

(** X20. [setEmissionRate] throws exactly for the rates below zero, the
    negative infinity and the negative numbers; every other value, the
    negative zero and a NaN included, is stored as the rate, and nothing
    else changes. *)
Theorem setEmissionRate_rejects rate s :
  (setEmissionRate rate s = Exception "Invalid emission rate" <->
   rate = S754_infinity true \/ exists m e, rate = S754_finite true m e) /\
  (forall s', setEmissionRate rate s = Ok s' ->
     s' = set_emissionRate rate s /\ flt rate f0 = false).
Proof.
  unfold setEmissionRate. rewrite <- flt_zero_negative.
  destruct (flt rate f0); split.
  - split; reflexivity.
  - discriminate.
  - split; discriminate.
  - intros s' [= <-]. auto.
Qed.

Lemma initParticle_fields p t s s' :
  initParticle E p t s = Ok s' ->
  exists mem v',
    pMem s = Some mem /\ (p < length mem)%nat /\
    pMem s' = Some (<[p:=v']> mem) /\
    Particle.origin v' =
      vadd (prevPosition s)
        (vscale (vsub (position s) (prevPosition s)) t) /\
    Particle.life v' = Particle.lifetime v' /\ Particle.quadIndex v' = 0.
Proof.
  unfold initParticle. intros H.
  apply bind_Ok in H as (old & Hold & H).
  apply load_Ok in Hold as (mem & Hm & Hv).
  repeat match type of H with
         | context [let (_, _) := ?x in _] => destruct x
         | context [match ?x with DISTRIBUTION_NONE => _ | _ => _ end] => destruct x
         | context [if ?x then _ else _] => destruct x
         end.
  all: apply bind_Ok in H as (i & _ & H).
  all: apply bind_Ok in H as (size & _ & H).
  all: repeat match type of H with
         | context [let (_, _) := ?x in _] => destruct x
         end.
  all: apply bind_Ok in H as (color & _ & H).
  all: apply store_Ok in H as (mem' & Hm' & Hlt & ->).
  all: simpl in Hm'; rewrite Hm in Hm'; injection Hm' as <-.
  all: eexists mem, _; simpl; repeat split; eauto.
Qed.

Lemma fadd_plain_zero x b : plain x = true -> fadd x (S754_zero b) = x.
Proof.
  destruct x as [sx|sx| |sx m e]; try discriminate.
  - destruct sx; [discriminate|]. destruct b; reflexivity.
  - reflexivity.
Qed.

Lemma fmul_zero_finite t :
  is_finite t = true -> exists b, fmul f0 t = S754_zero b.
Proof. destruct t; intros H; try discriminate; simpl; eauto. Qed.

Lemma plain_finite x : plain x = true -> is_finite x = true.
Proof.
  unfold plain. intros H. apply andb_true_iff in H as [H _].
  apply andb_true_iff in H as [_ H]. exact H.
Qed.

(** X21. A particle initialised while the previous position of the emitter
    is its position (as after [setPosition]), the two coordinates being
    finite and not the negative zero, gets exactly the position of the
    emitter as its origin, whatever the finite interpolation factor [t];
    it starts with its whole lifetime left and the quad index 0.
    [initParticle] throws nothing and has no loop: it fails to return only
    by undefined behaviour (a slot outside the buffer, an index outside the
    sizes), and with the particle configuration of the constructor, a
    generator whose [random(0)] is 0 and a slot of the buffer it returns. *)
Theorem spawn_origin_at_rest p t s :
  prevPosition s = position s ->
  plain (vx (position s)) = true -> plain (vy (position s)) = true ->
  is_finite t = true ->
  match initParticle E p t s with
  | Ok s' =>
      exists v,
        load s' p = Ok v /\ Particle.origin v = position s /\
        Particle.life v = Particle.lifetime v /\ Particle.quadIndex v = 0
  | Undefined => True
  | OutOfFuel | Exception _ => False
  end /\
  ((forall g, fst (rng_random_max E f0 g) = f0) ->
   params s = constructor_params ->
   forall old, load s p = Ok old ->
   exists s', initParticle E p t s = Ok s').
Proof.
  intros Hprev Hx Hy Ht. split.
  - pose proof (initParticle_plain E p t s) as Hp.
    destruct (initParticle E p t s) as [s'| | |] eqn:H; try exact Hp.
    apply initParticle_fields in H
      as (mem & v' & Hm & Hlt & Hm' & Ho & Hl & Hq).
    exists v'. split.
    { unfold load. rewrite Hm', list_lookup_insert_eq by exact Hlt.
      reflexivity. }
    split; [|split; assumption].
    rewrite Ho, Hprev. unfold vadd, vsub, vscale. cbn [vx vy].
    rewrite !fsub_self by (apply plain_finite; assumption).
    destruct (fmul_zero_finite t Ht) as [b ->].
    rewrite !fadd_plain_zero by assumption.
    destruct (position s); reflexivity.
  - intros Hrand Hc old Hold.
    destruct (initParticle_total E Hrand p t s old Hold Hc)
      as (v & g & Hinit & _).
    apply load_Ok in Hold as (mem & Hm & Hv).
    rewrite Hinit. eexists. apply (store_Some _ mem); [exact Hm|].
    apply lookup_lt_Some in Hv. exact Hv.
Qed.

End Allocation.

Lemma addParticle_allocates_witness :
  match three_particles with
  | Ok s =>
      match addParticle test_externals f1 s with
      | Ok s' => pFree s' = 4%nat /\ activeParticles s' = 4
      | _ => False
      end
  | _ => False
  end.
Proof.
  destruct three_particles as [s| | |] eqn:H;
    try (vm_compute in H; discriminate).
  pose proof (three_particles_inv s H) as Hinv.
  assert (Hs : pFree s = 3%nat /\ activeParticles s = 3 /\ isFull s = false).
  { vm_compute in H. injection H as <-. repeat split. }
  destruct Hs as (Hf & Ha & Hnf).
  destruct (addParticle test_externals f1 s) as [s'| | |] eqn:Hadd;
    try (vm_compute in H; injection H as <-; vm_compute in Hadd;
         discriminate).
  destruct (addParticle_allocates test_externals f1 s s' Hinv Hadd)
    as (_ & _ & _ & Hnew).
  destruct (Hnew Hnf) as (Hf' & Ha' & _). split; [congruence|lia].
Defined.

Lemma setEmissionRate_rejects_witness :
  match fresh_system with
  | Ok s =>
      setEmissionRate fminus1 s = Exception "Invalid emission rate" /\
      forall s',
        setEmissionRate (S754_zero true) s = Ok s' ->
        emissionRate s' = S754_zero true
  | _ => False
  end.
Proof.
  destruct fresh_system as [s| | |] eqn:H;
    try (vm_compute in H; discriminate).
  destruct (setEmissionRate_rejects fminus1 s) as [Hbad _].
  destruct (setEmissionRate_rejects (S754_zero true) s) as [_ Hgood].
  split.
  - apply Hbad. right. vm_compute. eauto.
  - intros s' Hs'. destruct (Hgood s' Hs') as [-> _]. reflexivity.
Defined.

Lemma spawn_origin_at_rest_witness :
  match fresh_system with
  | Ok s =>
      match initParticle test_externals 0 fhalf (setPosition f2 f10 s) with
      | Ok s' =>
          exists v,
            load s' 0 = Ok v /\ Particle.origin v = mkVector f2 f10
      | _ => False
      end
  | _ => False
  end.
Proof.
  destruct fresh_system as [s| | |] eqn:H;
    try (vm_compute in H; discriminate).
  destruct (spawn_origin_at_rest test_externals 0 fhalf
              (setPosition f2 f10 s)) as [Hres _]; try reflexivity.
  destruct (initParticle test_externals 0 fhalf (setPosition f2 f10 s))
    as [s'| | |] eqn:Hi;
    try (vm_compute in H; injection H as <-; vm_compute in Hi; discriminate).
  destruct Hres as (v & Hv & Ho & _).
  exists v. split; [exact Hv|exact Ho].
Defined.
